(** * Procedural tree generator: L-system engine, turtle interpreter, geometry

    A shallow embedding of the generative core of the repository
    (src/lsystem/random.ts, src/lsystem/engine.ts, src/utils/math.ts,
    src/utils/quaternion.ts, src/tree/turtle3d.ts, src/tree/uvMapping.ts,
    src/tree/branchGeometry.ts, src/tree/leafGeometry.ts,
    src/tree/TreeBuilder.ts, src/hooks/useTreeGenerator.ts), the
    properties its specification states about it, and further
    properties read off the code.

    Conventions of the embedding.
    - A JavaScript [number] that holds a measurement (length, angle,
      radius, odds, coordinate) is a value of an abstract type [num]
      with the operations of the class [Number]; results that depend
      only on the control flow are proved for every instance, results
      that need the laws of arithmetic are proved for the instance of
      the real numbers [Number_R].
    - A [number] that only ever counts (ids, array lengths, loop
      counters, vertex offsets) is a [nat]; the bracket depth of the
      engine, which a stray closing bracket can drive below zero, is
      a [Z].
    - The 32-bit registers of the random generator are [Z] values kept
      in the range [0, 2^32), wrap-around written out. JavaScript holds
      them as signed values between operations; every operator the
      generator uses reads the low 32 bits only, so the unsigned
      representative is kept throughout.
    - A string is a sequence of one-byte characters, and
      [charCodeAt] is the code of the character.
    - Mutable objects are threaded explicitly: the generator state, the
      turtle state and its stack, the accumulated arrays.
    - A [TypeError] (reading a field of [undefined]) is [None]. *)

From Stdlib Require Import ZArith List String Ascii Bool Arith Lia.
From Stdlib Require Import QArith Qreals Reals Lra.
Import ListNotations.

Set Implicit Arguments.

(* ================================================================= *)
(** * Numbers *)

(** The operations on [number] that the sources use. *)
Class Number (num : Type) : Type := {
  ofZ : Z -> num;                 (* an integer literal, or a counter entering arithmetic *)
  lit : Q -> num;                 (* a decimal literal such as 0.5 *)
  nadd : num -> num -> num;
  nsub : num -> num -> num;
  nmul : num -> num -> num;
  ndiv : num -> num -> num;
  nneg : num -> num;
  nltb : num -> num -> bool;      (* a < b *)
  neqb : num -> num -> bool;      (* a === b *)
  nfloor : num -> num;            (* Math.floor *)
  npow : num -> Z -> num;         (* Math.pow(x, depth), depth an integer *)
  nsqrt : num -> num;             (* Math.sqrt *)
  nsin : num -> num;              (* Math.sin *)
  ncos : num -> num;              (* Math.cos *)
  nPI : num;                      (* Math.PI *)
  nmax : num -> num -> num;       (* Math.max *)
  nmin : num -> num -> num        (* Math.min *)
}.

Declare Scope num_scope.
Delimit Scope num_scope with num.
Infix "+" := nadd : num_scope.
Infix "-" := nsub : num_scope.
Infix "*" := nmul : num_scope.
Infix "/" := ndiv : num_scope.
Notation "- x" := (nneg x) : num_scope.
Infix "<?" := nltb : num_scope.
Infix "=?" := neqb : num_scope.

Definition ofNat {num} `{Number num} (n : nat) : num := ofZ (Z.of_nat n).

(** The real numbers: exact arithmetic, the idealisation of IEEE doubles
    against which the metric properties are stated. *)
#[global] Instance Number_R : Number R := {
  ofZ := IZR;
  lit := Q2R;
  nadd := Rplus;
  nsub := Rminus;
  nmul := Rmult;
  ndiv := Rdiv;
  nneg := Ropp;
  nltb := fun a b => if Rlt_dec a b then true else false;
  neqb := fun a b => if Req_dec_T a b then true else false;
  nfloor := fun x => IZR (Int_part x);
  npow := powerRZ;
  nsqrt := sqrt;
  nsin := sin;
  ncos := cos;
  nPI := PI;
  nmax := Rmax;
  nmin := Rmin
}.

(* ================================================================= *)
(** * src/lsystem/random.ts *)

Module Random.

Local Open Scope Z_scope.

(** Reduction of an integer to its low 32 bits, as [x >>> 0] gives them. *)
Definition u32 (x : Z) : Z := x mod 4294967296.

(** [Math.imul(a, b)]: the low 32 bits of the product. *)
Definition imul (a b : Z) : Z := u32 (a * b).

(** [x << k] on a 32-bit register. *)
Definition shl (x k : Z) : Z := u32 (Z.shiftl x k).

(** [x >>> k] on a 32-bit register held in [0, 2^32). *)
Definition shr (x k : Z) : Z := Z.shiftr x k.

Definition charCodeAt (c : ascii) : Z := Z.of_nat (nat_of_ascii c).

(** The loop of [xmur3]: one round per character of the seed. *)
Definition xmur3_round (h : Z) (c : ascii) : Z :=
  let h := imul (Z.lxor h (charCodeAt c)) 3432918353 in
  Z.lor (shl h 13) (shr h 19).

Definition xmur3 (str : string) : Z :=
  fold_left xmur3_round (list_ascii_of_string str)
            (Z.lxor 1779033703 (Z.of_nat (String.length str))).

(** The closure [xmur3] returns: the value produced and the new [h]. *)
Definition xmur3_next (h : Z) : Z * Z :=
  let h := imul (Z.lxor h (shr h 16)) 2246822507 in
  let h := imul (Z.lxor h (shr h 13)) 3266489909 in
  let h := Z.lxor h (shr h 16) in
  (h, h).

(** The four registers of [sfc32]. *)
Record Sfc32 : Type := mkSfc32 { ra : Z; rb : Z; rc : Z; rd : Z }.

(** One call of the closure [sfc32] returns: the raw word [t >>> 0] and
    the registers after the call. *)
Definition sfc32 (s : Sfc32) : Z * Sfc32 :=
  let a := u32 (ra s) in
  let b := u32 (rb s) in
  let c := u32 (rc s) in
  let d := u32 (rd s) in
  let t := u32 (a + b) in
  let a := Z.lxor b (shr b 9) in
  let b := u32 (c + shl c 3) in
  let c := Z.lor (shl c 21) (shr c 11) in
  let d := u32 (d + 1) in
  let t := u32 (t + d) in
  let c := u32 (c + t) in
  (t, mkSfc32 a b c d).

(** [createRandom]: the generator state is the registers of [sfc32],
    seeded by four successive values of the hash. *)
Definition createRandom (seed : string) : Sfc32 :=
  let h0 := xmur3 seed in
  let '(a, h1) := xmur3_next h0 in
  let '(b, h2) := xmur3_next h1 in
  let '(c, h3) := xmur3_next h2 in
  let '(d, _) := xmur3_next h3 in
  mkSfc32 a b c d.

Section Derived.
Context {num : Type} `{Number num}.
Local Open Scope num_scope.

(** [nextRandom()]: the raw word divided by 2^32. *)
Definition nextRandom (g : Sfc32) : num * Sfc32 :=
  let '(t, g') := sfc32 g in (ofZ t / ofZ 4294967296, g').

Definition random (g : Sfc32) : num * Sfc32 := nextRandom g.




Definition randomChance (probability : num) (g : Sfc32) : bool * Sfc32 :=
  let '(r, g') := nextRandom g in (r <? probability, g').

(** [array[index]] for a number [index]: the element whose position
    equals it, [undefined] ([None]) when no position does. *)
Definition arrayAt {T : Type} (array : list T) (index : num) : option T :=
  match find (fun i => ofNat i =? index) (seq 0 (List.length array)) with
  | Some i => nth_error array i
  | None => None
  end.

Definition randomChoice {T : Type} (array : list T) (g : Sfc32)
  : option T * Sfc32 :=
  let '(r, g') := nextRandom g in
  let index := nfloor (r * ofNat (List.length array)) in
  (arrayAt array index, g').

End Derived.

End Random.

(* ================================================================= *)
(** * src/lsystem/symbols.ts *)

(** [SymbolParams]: every field is optional. *)
Record SymbolParams (num : Type) : Type := mkSymbolParams {
  param_length : option num;
  param_radius : option num;
  param_angle : option num;
  param_size : option num;
  param_age : option num
}.

Definition noParams {num : Type} : SymbolParams num :=
  mkSymbolParams None None None None None.

Record Symbol (num : Type) : Type := mkSymbol {
  symbol : string;
  params : SymbolParams num
}.

Record LSystemConfig (num : Type) : Type := mkLSystemConfig {
  baseLength : num;
  baseRadius : num;
  lengthFalloff : num;
  radiusFalloff : num;
  branchAngle : num;
  variability : num
}.

(** A production is a string or a function; the function receives the
    symbol, the generator, the configuration and the depth, and may draw
    from the generator. [G] is the state of the generator. *)
Definition ProduceFunction (num G : Type) : Type :=
  Symbol num -> G -> LSystemConfig num -> Z -> list (Symbol num) * G.

Inductive Produce (num G : Type) : Type :=
| Literal (production : string)
| Generator (produceFunc : ProduceFunction num G).

Arguments Literal {num G} production.
Arguments Generator {num G} produceFunc.

Record Rule (num G : Type) : Type := mkRule {
  rule_match : string;
  odds : num;
  produce : Produce num G
}.

Record LSystem (num G : Type) : Type := mkLSystem {
  axiom : string;
  rules : list (Rule num G);
  config : LSystemConfig num
}.

(* ================================================================= *)
(** * src/lsystem/engine.ts *)

Section Engine.
Context {num : Type} `{Number num}.
(** The generator the engine is handed: its state and [rng.random()]. *)
Variable G : Type.
Variable random : G -> num * G.
Local Open Scope num_scope.

(** The [for] loop of [selectRule]: the first rule at which the running
    sum exceeds [randomValue], or [None] when the loop runs to its end. *)
Fixpoint selectLoop (randomValue accumulated : num) (rs : list (Rule num G))
  : option (Rule num G) :=
  match rs with
  | [] => None
  | rule :: rest =>
      let accumulated := accumulated + odds rule in
      if randomValue <? accumulated then Some rule
      else selectLoop randomValue accumulated rest
  end.

(** [rules[i]] is [undefined] outside the array: [None]. *)
Definition selectRule (rs : list (Rule num G)) (g : G)
  : option (Rule num G) * G :=
  if Nat.eqb (List.length rs) 1 then (nth_error rs 0, g)
  else
    let totalOdds := fold_left (fun sum rule => sum + odds rule) rs (ofZ 0) in
    let '(r, g') := random g in
    let randomValue := r * totalOdds in
    match selectLoop randomValue (ofZ 0) rs with
    | Some rule => (Some rule, g')
    | None => (nth_error rs (List.length rs - 1), g')
    end.

Definition getVariabilityFactor (cfg : LSystemConfig num) (g : G) : num * G :=
  if variability cfg =? ofZ 0 then (ofZ 1, g)
  else
    let '(r, g') := random g in
    (ofZ 1 + variability cfg * (r - lit (1 # 2)) * ofZ 2, g').

Definition rotationSymbols : list string :=
  ["+"; "-"; "^"; "&"; "/"; "\"]%string.

Definition createSymbol (char : string) (cfg : LSystemConfig num)
  (depth : Z) (g : G) : Symbol num * G :=
  if String.eqb char "F" then
    let baseLengthWithFalloff :=
      baseLength cfg * npow (lengthFalloff cfg) depth in
    let '(v, g') := getVariabilityFactor cfg g in
    (mkSymbol char
       (mkSymbolParams (Some (baseLengthWithFalloff * v)) None None None None),
     g')
  else if existsb (String.eqb char) rotationSymbols then
    let '(v, g') := getVariabilityFactor cfg g in
    (mkSymbol char
       (mkSymbolParams None None (Some (branchAngle cfg * v)) None None),
     g')
  else if String.eqb char "L" then
    (mkSymbol char (mkSymbolParams None None None (Some (ofZ 1)) None), g)
  else
    (mkSymbol char noParams, g).

(** [parseProduction]: one [createSymbol] per character, left to right. *)
Definition parseProduction (production : string) (cfg : LSystemConfig num)
  (depth : Z) (g : G) : list (Symbol num) * G :=
  fold_left
    (fun '(symbols, g) c =>
       let '(sym, g') := createSymbol (String c EmptyString) cfg depth g in
       (symbols ++ [sym], g'))
    (list_ascii_of_string production) ([], g).

(** The variables the loop of [applyRules] updates. *)
Record ApplyState : Type := mkApplyState {
  as_result : list (Symbol num);
  as_depth : Z;
  as_rng : G
}.

Definition applyRulesStep (rs : list (Rule num G)) (cfg : LSystemConfig num)
  (st : ApplyState) (sym : Symbol num) : ApplyState :=
  let '(mkApplyState result depth g) := st in
  if String.eqb (symbol sym) "[" then
    mkApplyState (result ++ [sym]) (depth + 1) g
  else if String.eqb (symbol sym) "]" then
    mkApplyState (result ++ [sym]) (depth - 1) g
  else
    let matchingRules :=
      filter (fun rule => String.eqb (rule_match rule) (symbol sym)) rs in
    if Nat.eqb (List.length matchingRules) 0 then
      mkApplyState (result ++ [sym]) depth g
    else
      match selectRule matchingRules g with
      | (Some selectedRule, g') =>
          match produce selectedRule with
          | Literal production =>
              let '(newSymbols, g'') := parseProduction production cfg depth g' in
              mkApplyState (result ++ newSymbols) depth g''
          | Generator produceFunc =>
              let '(newSymbols, g'') := produceFunc sym g' cfg depth in
              mkApplyState (result ++ newSymbols) depth g''
          end
      | (None, g') =>
          (* unreachable: [matchingRules] is not empty *)
          mkApplyState result depth g'
      end.

Definition applyRules (sentence : list (Symbol num)) (rs : list (Rule num G))
  (cfg : LSystemConfig num) (g : G) : list (Symbol num) * G :=
  let st := fold_left (applyRulesStep rs cfg) sentence (mkApplyState [] 0 g) in
  (as_result st, as_rng st).

(** [generateSentence] from the point where the generator exists. *)
Definition generateFrom (lsystem : LSystem num G) (iterations : nat) (g : G)
  : list (Symbol num) * G :=
  Nat.iter iterations
    (fun '(sentence, g) => applyRules sentence (rules lsystem) (config lsystem) g)
    (parseProduction (axiom lsystem) (config lsystem) 0 g).

End Engine.

(** [generateSentence]: a fresh generator from the seed, then the loop. *)
Definition generateSentence {num : Type} `{Number num}
  (lsystem : LSystem num Random.Sfc32) (iterations : nat) (seed : string)
  : list (Symbol num) :=
  fst (generateFrom Random.random lsystem iterations (Random.createRandom seed)).

(* ================================================================= *)
(** * src/utils/math.ts and src/utils/quaternion.ts *)

Record Vec3 (num : Type) : Type := mkVec3 { vx : num; vy : num; vz : num }.
Record Quat (num : Type) : Type := mkQuat { qx : num; qy : num; qz : num; qw : num }.

Section VectorMath.
Context {num : Type} `{Number num}.
Local Open Scope num_scope.

Definition vec3 (x y z : num) : Vec3 num := mkVec3 x y z.

Definition addVec3 (a b : Vec3 num) : Vec3 num :=
  mkVec3 (vx a + vx b) (vy a + vy b) (vz a + vz b).

Definition subVec3 (a b : Vec3 num) : Vec3 num :=
  mkVec3 (vx a - vx b) (vy a - vy b) (vz a - vz b).

Definition scaleVec3 (v : Vec3 num) (s : num) : Vec3 num :=
  mkVec3 (vx v * s) (vy v * s) (vz v * s).

Definition lengthVec3 (v : Vec3 num) : num :=
  nsqrt (vx v * vx v + vy v * vy v + vz v * vz v).

Definition normalizeVec3 (v : Vec3 num) : Vec3 num :=
  let len := lengthVec3 v in
  if len =? ofZ 0 then mkVec3 (ofZ 0) (ofZ 0) (ofZ 0)
  else mkVec3 (vx v / len) (vy v / len) (vz v / len).

Definition crossVec3 (a b : Vec3 num) : Vec3 num :=
  mkVec3 (vy a * vz b - vz a * vy b)
         (vz a * vx b - vx a * vz b)
         (vx a * vy b - vy a * vx b).

Definition dotVec3 (a b : Vec3 num) : num :=
  vx a * vx b + vy a * vy b + vz a * vz b.

Definition distanceVec3 (a b : Vec3 num) : num :=
  let diff := subVec3 b a in
  lengthVec3 diff.

Definition lerpVec3 (a b : Vec3 num) (t : num) : Vec3 num :=
  mkVec3 (vx a + (vx b - vx a) * t)
         (vy a + (vy b - vy a) * t)
         (vz a + (vz b - vz a) * t).

Definition identityQuat : Quat num :=
  mkQuat (ofZ 0) (ofZ 0) (ofZ 0) (ofZ 1).

Definition multiplyQuat (a b : Quat num) : Quat num :=
  mkQuat (qw a * qx b + qx a * qw b + qy a * qz b - qz a * qy b)
         (qw a * qy b - qx a * qz b + qy a * qw b + qz a * qx b)
         (qw a * qz b + qx a * qy b - qy a * qx b + qz a * qw b)
         (qw a * qw b - qx a * qx b - qy a * qy b - qz a * qz b).


Definition quatFromAxisAngle (axis : Vec3 num) (angle : num) : Quat num :=
  let halfAngle := angle / ofZ 2 in
  let sinHalfAngle := nsin halfAngle in
  let cosHalfAngle := ncos halfAngle in
  mkQuat (vx axis * sinHalfAngle) (vy axis * sinHalfAngle)
         (vz axis * sinHalfAngle) cosHalfAngle.

Definition rotateVec3ByQuat (v : Vec3 num) (q : Quat num) : Vec3 num :=
  let qv := mkVec3 (qx q) (qy q) (qz q) in
  let cross1 := crossVec3 qv v in
  let cross2 := crossVec3 qv cross1 in
  let term1 := scaleVec3 cross1 (ofZ 2 * qw q) in
  let term2 := scaleVec3 cross2 (ofZ 2) in
  addVec3 (addVec3 v term1) term2.

End VectorMath.

(* ================================================================= *)
(** * src/tree/skeleton.ts *)

Module SkeletonNode.
Record t (num : Type) : Type := mk {
  id : nat;
  position : Vec3 num;
  orientation : Quat num;
  radius : num;
  parentId : option nat;
  depth : nat;
  isTerminal : bool;
  isBranchPoint : bool
}.
End SkeletonNode.

Module SkeletonSegment.
Record t (num : Type) : Type := mk {
  startNodeId : nat;
  endNodeId : nat;
  startRadius : num;
  endRadius : num;
  length : num
}.
End SkeletonSegment.

Module LeafPoint.
Record t (num : Type) : Type := mk {
  position : Vec3 num;
  orientation : Quat num;
  size : num
}.
End LeafPoint.

Module Skeleton.
Record t (num : Type) : Type := mk {
  nodes : list (SkeletonNode.t num);
  segments : list (SkeletonSegment.t num);
  leaves : list (LeafPoint.t num)
}.
End Skeleton.

Record TurtleConfig (num : Type) : Type := mkTurtleConfig {
  tc_baseRadius : num;
  tc_radiusFalloff : num;
  upVector : Vec3 num;
  forwardVector : Vec3 num
}.

Record GeometryData (num : Type) : Type := mkGeometryData {
  positions : list num;
  normals : list num;
  uvs : list num;
  indices : list nat
}.

Record BranchGeometryConfig (num : Type) : Type := mkBranchGeometryConfig {
  radialSegments : nat;
  textureRepeatY : num
}.

Record LeafShapeConfig (num : Type) : Type := mkLeafShapeConfig {
  ls_width : num;
  ls_length : num;
  ls_curvature : num;
  ls_segments : nat
}.

Record Color (num : Type) : Type := mkColor { cr : num; cg : num; cb : num }.

Record LeafInstanceConfig (num : Type) : Type := mkLeafInstanceConfig {
  baseColor : Color num;
  colorVariation : num;
  sizeVariation : num;
  rotationScatter : num;
  li_seed : string
}.

Record LeafInstanceData (num : Type) : Type := mkLeafInstanceData {
  matrices : list num;
  colors : list num;
  count : nat
}.

(* ================================================================= *)
(** * src/tree/turtle3d.ts *)

Module TurtleState.
Record t (num : Type) : Type := mk {
  position : Vec3 num;
  orientation : Quat num;
  radius : num;
  depth : nat;
  currentNodeId : nat
}.
End TurtleState.

(** The variables of [interpretSentence] that the loop updates. The
    stack is a list whose head is the top; [childCounts] lists the
    entries of the [Map] in insertion order. *)
Module Interp.
Record t (num : Type) : Type := mk {
  nodes : list (SkeletonNode.t num);
  segments : list (SkeletonSegment.t num);
  leaves : list (LeafPoint.t num);
  childCounts : list (nat * nat);
  nextNodeId : nat;
  stateStack : list (TurtleState.t num);
  state : TurtleState.t num
}.
End Interp.

(** [childCounts.get(key) ?? 0] *)
Definition mapGet (key : nat) (m : list (nat * nat)) : nat :=
  match find (fun e => Nat.eqb (fst e) key) m with
  | Some e => snd e
  | None => 0
  end.

(** [childCounts.set(key, value)]: an existing key keeps its place. *)
Fixpoint mapSet (key value : nat) (m : list (nat * nat)) : list (nat * nat) :=
  match m with
  | [] => [(key, value)]
  | e :: rest =>
      if Nat.eqb (fst e) key then (key, value) :: rest
      else e :: mapSet key value rest
  end.

(** [nodes.find((n) => n.id === nodeId)] *)
Definition findNode {num : Type} (nodeId : nat) (ns : list (SkeletonNode.t num))
  : option (SkeletonNode.t num) :=
  find (fun n => Nat.eqb (SkeletonNode.id n) nodeId) ns.

Section Turtle.
Context {num : Type} `{Number num}.
Local Open Scope num_scope.

Definition degreesToRadians (degrees : num) : num :=
  (degrees * nPI) / ofZ 180.

Definition getForward (orientation : Quat num) : Vec3 num :=
  let forward := vec3 (ofZ 0) (ofZ 1) (ofZ 0) in
  rotateVec3ByQuat forward orientation.

Definition getRight (orientation : Quat num) : Vec3 num :=
  let right := vec3 (ofZ 1) (ofZ 0) (ofZ 0) in
  rotateVec3ByQuat right orientation.

Definition getUp (orientation : Quat num) : Vec3 num :=
  let up := vec3 (ofZ 0) (ofZ 0) (ofZ 1) in
  rotateVec3ByQuat up orientation.

Definition cloneTurtleState (state : TurtleState.t num) : TurtleState.t num :=
  TurtleState.mk (TurtleState.position state) (TurtleState.orientation state)
    (TurtleState.radius state) (TurtleState.depth state)
    (TurtleState.currentNodeId state).

Definition createNode (id : nat) (position : Vec3 num) (orientation : Quat num)
  (radius : num) (parentId : option nat) (depth : nat) : SkeletonNode.t num :=
  SkeletonNode.mk id position orientation radius parentId depth false false.

Definition createSegment (startNode endNode : SkeletonNode.t num) (length : num)
  : SkeletonSegment.t num :=
  SkeletonSegment.mk (SkeletonNode.id startNode) (SkeletonNode.id endNode)
    (SkeletonNode.radius startNode) (SkeletonNode.radius endNode) length.

(** [x ?? d] *)
Definition orDefault (x : option num) (d : num) : num :=
  match x with Some v => v | None => d end.

(** The six rotation cases: [state.orientation] multiplied on the right
    by the rotation of [angleDegrees] about [axis]. *)
Definition rotateState (m : Interp.t num) (axis : Vec3 num) (angleDegrees : num)
  : Interp.t num :=
  let state := Interp.state m in
  let angleRadians := degreesToRadians angleDegrees in
  let rotation := quatFromAxisAngle axis angleRadians in
  let state' :=
    TurtleState.mk (TurtleState.position state)
      (multiplyQuat (TurtleState.orientation state) rotation)
      (TurtleState.radius state) (TurtleState.depth state)
      (TurtleState.currentNodeId state) in
  Interp.mk (Interp.nodes m) (Interp.segments m) (Interp.leaves m)
    (Interp.childCounts m) (Interp.nextNodeId m) (Interp.stateStack m) state'.

(** One turn of the loop over the sentence: the [switch] on the symbol.
    [None] is the [TypeError] raised when [createSegment] reads the
    fields of a start node that [find] did not return. *)
Definition step (config : TurtleConfig num) (m : Interp.t num) (sym : Symbol num)
  : option (Interp.t num) :=
  let state := Interp.state m in
  let symbolParams := params sym in
  let c := symbol sym in
  if String.eqb c "F" then
    let length := orDefault (param_length symbolParams) (ofZ 1) in
    let forward := getForward (TurtleState.orientation state) in
    let movement := scaleVec3 forward length in
    let newPosition := addVec3 (TurtleState.position state) movement in
    let newRadius :=
      tc_baseRadius config
      * npow (tc_radiusFalloff config) (Z.of_nat (TurtleState.depth state)) in
    let newNode :=
      createNode (Interp.nextNodeId m) newPosition
        (TurtleState.orientation state) newRadius
        (Some (TurtleState.currentNodeId state)) (TurtleState.depth state) in
    let nodes := Interp.nodes m ++ [newNode] in
    match findNode (TurtleState.currentNodeId state) nodes with
    | None => None
    | Some currentNode =>
        let segment := createSegment currentNode newNode length in
        let currentCount :=
          mapGet (TurtleState.currentNodeId state) (Interp.childCounts m) in
        Some (Interp.mk nodes (Interp.segments m ++ [segment]) (Interp.leaves m)
                (mapSet (TurtleState.currentNodeId state) (currentCount + 1)%nat
                   (Interp.childCounts m))
                (S (Interp.nextNodeId m)) (Interp.stateStack m)
                (TurtleState.mk newPosition (TurtleState.orientation state)
                   newRadius (TurtleState.depth state) (SkeletonNode.id newNode)))
    end
  else if String.eqb c "+" then
    Some (rotateState m (getUp (TurtleState.orientation state))
            (orDefault (param_angle symbolParams) (ofZ 30)))
  else if String.eqb c "-" then
    Some (rotateState m (getUp (TurtleState.orientation state))
            (- orDefault (param_angle symbolParams) (ofZ 30)))
  else if String.eqb c "^" then
    Some (rotateState m (getRight (TurtleState.orientation state))
            (orDefault (param_angle symbolParams) (ofZ 30)))
  else if String.eqb c "&" then
    Some (rotateState m (getRight (TurtleState.orientation state))
            (- orDefault (param_angle symbolParams) (ofZ 30)))
  else if String.eqb c "/" then
    Some (rotateState m (getForward (TurtleState.orientation state))
            (orDefault (param_angle symbolParams) (ofZ 30)))
  else if String.eqb c "\" then
    Some (rotateState m (getForward (TurtleState.orientation state))
            (- orDefault (param_angle symbolParams) (ofZ 30)))
  else if String.eqb c "[" then
    Some (Interp.mk (Interp.nodes m) (Interp.segments m) (Interp.leaves m)
            (Interp.childCounts m) (Interp.nextNodeId m)
            (cloneTurtleState state :: Interp.stateStack m)
            (TurtleState.mk (TurtleState.position state)
               (TurtleState.orientation state) (TurtleState.radius state)
               (TurtleState.depth state + 1)%nat
               (TurtleState.currentNodeId state)))
  else if String.eqb c "]" then
    match Interp.stateStack m with
    | savedState :: rest =>
        Some (Interp.mk (Interp.nodes m) (Interp.segments m) (Interp.leaves m)
                (Interp.childCounts m) (Interp.nextNodeId m) rest savedState)
    | [] => Some m
    end
  else if String.eqb c "L" then
    let leafSize := orDefault (param_size symbolParams) (ofZ 1) in
    let leaf :=
      LeafPoint.mk (TurtleState.position state)
        (TurtleState.orientation state) leafSize in
    Some (Interp.mk (Interp.nodes m) (Interp.segments m)
            (Interp.leaves m ++ [leaf]) (Interp.childCounts m)
            (Interp.nextNodeId m) (Interp.stateStack m) state)
  else Some m.

(** The state of [interpretSentence] when the loop starts: the root node
    pushed, an empty stack, the initial turtle state. *)
Definition initialInterp (config : TurtleConfig num) : Interp.t num :=
  let initialState :=
    TurtleState.mk (vec3 (ofZ 0) (ofZ 0) (ofZ 0)) identityQuat
      (tc_baseRadius config) 0 0 in
  let rootNode :=
    createNode 0 (TurtleState.position initialState)
      (TurtleState.orientation initialState)
      (TurtleState.radius initialState) None 0 in
  Interp.mk [rootNode] [] [] [] 1 [] (cloneTurtleState initialState).

Definition runSentence (config : TurtleConfig num) (sentence : list (Symbol num))
  (m : Interp.t num) : option (Interp.t num) :=
  fold_left
    (fun acc sym => match acc with Some m => step config m sym | None => None end)
    sentence (Some m).

(** [node.isBranchPoint = true] on the node that [find] returns. *)
Fixpoint setBranchPoint (nodeId : nat) (ns : list (SkeletonNode.t num))
  : list (SkeletonNode.t num) :=
  match ns with
  | [] => []
  | n :: rest =>
      if Nat.eqb (SkeletonNode.id n) nodeId then
        SkeletonNode.mk (SkeletonNode.id n) (SkeletonNode.position n)
          (SkeletonNode.orientation n) (SkeletonNode.radius n)
          (SkeletonNode.parentId n) (SkeletonNode.depth n)
          (SkeletonNode.isTerminal n) true :: rest
      else n :: setBranchPoint nodeId rest
  end.

(** The loop over [childCounts.entries()]. *)
Definition markBranchPoints (childCounts : list (nat * nat))
  (ns : list (SkeletonNode.t num)) : list (SkeletonNode.t num) :=
  fold_left
    (fun ns '(nodeId, count) =>
       if Nat.ltb 1 count then setBranchPoint nodeId ns else ns)
    childCounts ns.

(** The loop over the nodes that marks the terminal ones;
    [nodesWithOutgoingSegments] is the set of the segments' start ids. *)
Definition markTerminals (segs : list (SkeletonSegment.t num))
  (ns : list (SkeletonNode.t num)) : list (SkeletonNode.t num) :=
  let nodesWithOutgoingSegments := map (@SkeletonSegment.startNodeId num) segs in
  map (fun node =>
         if negb (existsb (Nat.eqb (SkeletonNode.id node)) nodesWithOutgoingSegments)
         then
           SkeletonNode.mk (SkeletonNode.id node) (SkeletonNode.position node)
             (SkeletonNode.orientation node) (SkeletonNode.radius node)
             (SkeletonNode.parentId node) (SkeletonNode.depth node)
             true (SkeletonNode.isBranchPoint node)
         else node)
      ns.

Definition finish (m : Interp.t num) : Skeleton.t num :=
  let ns := markBranchPoints (Interp.childCounts m) (Interp.nodes m) in
  let ns := markTerminals (Interp.segments m) ns in
  Skeleton.mk ns (Interp.segments m) (Interp.leaves m).

Definition interpretSentence (sentence : list (Symbol num))
  (config : TurtleConfig num) : option (Skeleton.t num) :=
  match runSentence config sentence (initialInterp config) with
  | Some m => Some (finish m)
  | None => None
  end.

End Turtle.

(* ================================================================= *)
(** * src/tree/uvMapping.ts *)

Section UvMapping.
Context {num : Type} `{Number num}.
Local Open Scope num_scope.

Record UV : Type := mkUV { u : num; v : num }.

Definition calculateBranchUV (ringIndex vertexIndex totalRings radialSegs : nat)
  (segmentLength textureScale vOffset : num) : UV :=
  let u := ofNat vertexIndex / ofNat radialSegs in
  let ringProgress :=
    if Nat.ltb 1 totalRings then ofNat ringIndex / ofNat (totalRings - 1)
    else ofZ 0 in
  let v := vOffset + ringProgress * segmentLength * textureScale in
  mkUV u v.

(** [segments] holds the lengths of the segments ([SegmentInfo]); the
    loop adds those before [segmentIndex], which the caller keeps within
    the array. *)
Definition calculateVOffset (segmentIndex : nat) (segments : list num)
  (textureScale : num) : num :=
  if Nat.eqb segmentIndex 0 then ofZ 0
  else
    fold_left (fun offset len => offset + len * textureScale)
              (firstn segmentIndex segments) (ofZ 0).

End UvMapping.

(* ================================================================= *)
(** * src/tree/branchGeometry.ts *)

Record RingData (num : Type) : Type := mkRingData {
  ring_positions : list num;
  ring_normals : list num
}.

Section BranchGeometry.
Context {num : Type} `{Number num}.
Local Open Scope num_scope.

(** One turn of the loop of [generateRing]: the world position of
    vertex [i] and its normal. *)
Definition ringVertex (center : Vec3 num) (orientation : Quat num)
  (radius : num) (segments i : nat) : Vec3 num * Vec3 num :=
  let angle := (ofNat i * ofZ 2 * nPI) / ofNat segments in
  let localPos := vec3 (ncos angle * radius) (ofZ 0) (nsin angle * radius) in
  let rotatedPos := rotateVec3ByQuat localPos orientation in
  let worldPos := addVec3 center rotatedPos in
  let normal := normalizeVec3 rotatedPos in
  (worldPos, normal).

Definition generateRing (center : Vec3 num) (orientation : Quat num)
  (radius : num) (segments : nat) : RingData num :=
  fold_left
    (fun ring i =>
       let '(worldPos, normal) := ringVertex center orientation radius segments i in
       mkRingData
         (ring_positions ring ++ [vx worldPos; vy worldPos; vz worldPos])
         (ring_normals ring ++ [vx normal; vy normal; vz normal]))
    (seq 0 segments) (mkRingData [] []).

Definition connectRings (ring1Offset ring2Offset segments : nat) : list nat :=
  fold_left
    (fun indices i =>
       let r1Current := (ring1Offset + i)%nat in
       let r2Current := (ring2Offset + i)%nat in
       let r1Next := (ring1Offset + ((i + 1) mod segments))%nat in
       let r2Next := (ring2Offset + ((i + 1) mod segments))%nat in
       indices ++ [r1Current; r2Current; r1Next] ++ [r1Next; r2Current; r2Next])
    (seq 0 segments) [].

(** The accumulators of [buildBranchGeometry]. *)
Record BranchAcc : Type := mkBranchAcc {
  allPositions : list num;
  allNormals : list num;
  allUvs : list num;
  allIndices : list nat;
  vertexOffset : nat
}.

(** The UVs of one ring: the loop over the [radialSegments] vertices. *)
Definition ringUvs (ringIndex radialSegs : nat)
  (segmentLength textureScale vOffset : num) : list num :=
  fold_left
    (fun uvs i =>
       let uv := calculateBranchUV ringIndex i 2 radialSegs
                   segmentLength textureScale vOffset in
       uvs ++ [u uv; v uv])
    (seq 0 radialSegs) [].

(** The callback of [skeleton.segments.forEach]. [None]: a segment
    names a node the skeleton does not hold, and reading the position
    of [undefined] raises. *)
Definition branchSegment (skeleton : Skeleton.t num)
  (cfg : BranchGeometryConfig num) (segmentInfos : list num)
  (acc : BranchAcc) (segment : SkeletonSegment.t num) (segmentIndex : nat)
  : option BranchAcc :=
  match findNode (SkeletonSegment.startNodeId segment) (Skeleton.nodes skeleton),
        findNode (SkeletonSegment.endNodeId segment) (Skeleton.nodes skeleton) with
  | Some startNode, Some endNode =>
      let vOffset := calculateVOffset segmentIndex segmentInfos (textureRepeatY cfg) in
      let startRing :=
        generateRing (SkeletonNode.position startNode)
          (SkeletonNode.orientation startNode)
          (SkeletonSegment.startRadius segment) (radialSegments cfg) in
      let endRing :=
        generateRing (SkeletonNode.position endNode)
          (SkeletonNode.orientation endNode)
          (SkeletonSegment.endRadius segment) (radialSegments cfg) in
      let ring1Offset := vertexOffset acc in
      let ring2Offset := (vertexOffset acc + radialSegments cfg)%nat in
      let segmentIndices :=
        connectRings ring1Offset ring2Offset (radialSegments cfg) in
      Some (mkBranchAcc
              (allPositions acc ++ ring_positions startRing
                 ++ ring_positions endRing)
              (allNormals acc ++ ring_normals startRing ++ ring_normals endRing)
              (allUvs acc
                 ++ ringUvs 0 (radialSegments cfg)
                      (SkeletonSegment.length segment) (textureRepeatY cfg) vOffset
                 ++ ringUvs 1 (radialSegments cfg)
                      (SkeletonSegment.length segment) (textureRepeatY cfg) vOffset)
              (allIndices acc ++ segmentIndices)
              (vertexOffset acc + radialSegments cfg * 2)%nat)
  | _, _ => None
  end.

(** [forEach] with its index. *)
Fixpoint forEachSegment (skeleton : Skeleton.t num)
  (cfg : BranchGeometryConfig num) (segmentInfos : list num)
  (segs : list (SkeletonSegment.t num)) (segmentIndex : nat) (acc : BranchAcc)
  : option BranchAcc :=
  match segs with
  | [] => Some acc
  | segment :: rest =>
      match branchSegment skeleton cfg segmentInfos acc segment segmentIndex with
      | Some acc' =>
          forEachSegment skeleton cfg segmentInfos rest (S segmentIndex) acc'
      | None => None
      end
  end.

Definition buildBranchGeometry (skeleton : Skeleton.t num)
  (cfg : BranchGeometryConfig num) : option (GeometryData num) :=
  let segmentInfos :=
    map (@SkeletonSegment.length num) (Skeleton.segments skeleton) in
  match forEachSegment skeleton cfg segmentInfos (Skeleton.segments skeleton) 0
          (mkBranchAcc [] [] [] [] 0) with
  | Some acc =>
      Some (mkGeometryData (allPositions acc) (allNormals acc) (allUvs acc)
              (allIndices acc))
  | None => None
  end.

End BranchGeometry.

(* ================================================================= *)
(** * src/tree/leafGeometry.ts *)

(** [array[i] = x] on a typed array: a write past the end is dropped,
    the length never changes. *)
Fixpoint setAt {A : Type} (i : nat) (x : A) (l : list A) : list A :=
  match l, i with
  | [], _ => []
  | _ :: rest, O => x :: rest
  | y :: rest, S i' => y :: setAt i' x rest
  end.

(** [new Float32Array(n)], [new Uint32Array(n)] *)
Definition newArray {A : Type} (zero : A) (n : nat) : list A := repeat zero n.

Section LeafGeometry.
Context {num : Type} `{Number num}.
Local Open Scope num_scope.





(** The state of the loop of [buildLeafInstances]. *)
Record LeafAcc : Type := mkLeafAcc {
  la_matrices : list num;
  la_colors : list num;
  la_rng : Random.Sfc32
}.

(** One leaf: seven draws, then the colour and the matrix of instance [i]. *)
Definition leafInstance (cfg : LeafInstanceConfig num) (acc : LeafAcc)
  (il : nat * LeafPoint.t num) : LeafAcc :=
  let '(i, leaf) := il in
  let '(mkLeafAcc matrices colors g) := acc in
  let '(r1, g) := Random.random g in
  let sizeMult := ofZ 1 + (r1 * ofZ 2 - ofZ 1) * sizeVariation cfg in
  let '(r2, g) := Random.random g in
  let scatterX := (r2 * ofZ 2 - ofZ 1) * rotationScatter cfg in
  let '(r3, g) := Random.random g in
  let scatterY := (r3 * ofZ 2 - ofZ 1) * rotationScatter cfg in
  let '(r4, g) := Random.random g in
  let scatterZ := (r4 * ofZ 2 - ofZ 1) * rotationScatter cfg in
  let '(r5, g) := Random.random g in
  let rVar := (r5 * ofZ 2 - ofZ 1) * colorVariation cfg in
  let '(r6, g) := Random.random g in
  let gVar := (r6 * ofZ 2 - ofZ 1) * colorVariation cfg in
  let '(r7, g) := Random.random g in
  let bVar := (r7 * ofZ 2 - ofZ 1) * colorVariation cfg in
  let colors :=
    setAt (i * 3 + 0) (nmax (ofZ 0) (nmin (ofZ 1) (cr (baseColor cfg) + rVar))) colors in
  let colors :=
    setAt (i * 3 + 1) (nmax (ofZ 0) (nmin (ofZ 1) (cg (baseColor cfg) + gVar))) colors in
  let colors :=
    setAt (i * 3 + 2) (nmax (ofZ 0) (nmin (ofZ 1) (cb (baseColor cfg) + bVar))) colors in
  let orientation :=
    if ofZ 0 <? rotationScatter cfg then
      let scatterQuatX := quatFromAxisAngle (vec3 (ofZ 1) (ofZ 0) (ofZ 0)) scatterX in
      let scatterQuatY := quatFromAxisAngle (vec3 (ofZ 0) (ofZ 1) (ofZ 0)) scatterY in
      let scatterQuatZ := quatFromAxisAngle (vec3 (ofZ 0) (ofZ 0) (ofZ 1)) scatterZ in
      multiplyQuat (LeafPoint.orientation leaf)
        (multiplyQuat scatterQuatX (multiplyQuat scatterQuatY scatterQuatZ))
    else LeafPoint.orientation leaf in
  let scale := LeafPoint.size leaf * sizeMult in
  let q := orientation in
  let xx := qx q * qx q in
  let yy := qy q * qy q in
  let zz := qz q * qz q in
  let xy := qx q * qy q in
  let xz := qx q * qz q in
  let yz := qy q * qz q in
  let wx := qw q * qx q in
  let wy := qw q * qy q in
  let wz := qw q * qz q in
  let r00 := (ofZ 1 - ofZ 2 * (yy + zz)) * scale in
  let r01 := ofZ 2 * (xy - wz) * scale in
  let r02 := ofZ 2 * (xz + wy) * scale in
  let r10 := ofZ 2 * (xy + wz) * scale in
  let r11 := (ofZ 1 - ofZ 2 * (xx + zz)) * scale in
  let r12 := ofZ 2 * (yz - wx) * scale in
  let r20 := ofZ 2 * (xz - wy) * scale in
  let r21 := ofZ 2 * (yz + wx) * scale in
  let r22 := (ofZ 1 - ofZ 2 * (xx + yy)) * scale in
  let matrices := setAt (i * 16 + 0) r00 matrices in
  let matrices := setAt (i * 16 + 1) r10 matrices in
  let matrices := setAt (i * 16 + 2) r20 matrices in
  let matrices := setAt (i * 16 + 3) (ofZ 0) matrices in
  let matrices := setAt (i * 16 + 4) r01 matrices in
  let matrices := setAt (i * 16 + 5) r11 matrices in
  let matrices := setAt (i * 16 + 6) r21 matrices in
  let matrices := setAt (i * 16 + 7) (ofZ 0) matrices in
  let matrices := setAt (i * 16 + 8) r02 matrices in
  let matrices := setAt (i * 16 + 9) r12 matrices in
  let matrices := setAt (i * 16 + 10) r22 matrices in
  let matrices := setAt (i * 16 + 11) (ofZ 0) matrices in
  let matrices := setAt (i * 16 + 12) (vx (LeafPoint.position leaf)) matrices in
  let matrices := setAt (i * 16 + 13) (vy (LeafPoint.position leaf)) matrices in
  let matrices := setAt (i * 16 + 14) (vz (LeafPoint.position leaf)) matrices in
  let matrices := setAt (i * 16 + 15) (ofZ 1) matrices in
  mkLeafAcc matrices colors g.

Definition buildLeafInstances (leaves : list (LeafPoint.t num))
  (cfg : LeafInstanceConfig num) : LeafInstanceData num :=
  let count := List.length leaves in
  if Nat.eqb count 0 then mkLeafInstanceData [] [] 0
  else
    let matrices := newArray (ofZ 0) (count * 16) in
    let colors := newArray (ofZ 0) (count * 3) in
    let rng := Random.createRandom (li_seed cfg) in
    let acc :=
      fold_left (leafInstance cfg) (combine (seq 0 count) leaves)
                (mkLeafAcc matrices colors rng) in
    mkLeafInstanceData (la_matrices acc) (la_colors acc) count.

End LeafGeometry.

(* ================================================================= *)
(** * src/tree/TreeBuilder.ts *)

Record TreeConfig (num : Type) : Type := mkTreeConfig {
  lsystem : LSystem num Random.Sfc32;
  iterations : nat;
  seed : string;
  turtleConfig : TurtleConfig num;
  branchConfig : BranchGeometryConfig num;
  leafShapeConfig : LeafShapeConfig num;
  leafInstanceConfig : LeafInstanceConfig num
}.



Section TreeBuilder.
Context {num : Type} `{Number num}.


Definition defaultTreeConfig : TreeConfig num :=
  let lsystem :=
    mkLSystem "X"
      [ mkRule "X" (ofZ 1) (Literal "F[+X][-X]FL");
        mkRule "F" (ofZ 1) (Literal "FF") ]
      (mkLSystemConfig (lit (5 # 10)) (lit (1 # 10)) (lit (85 # 100))
         (lit (7 # 10)) (ofZ 25) (lit (15 # 100))) in
  let turtleConfig :=
    mkTurtleConfig (lit (1 # 10)) (lit (7 # 10))
      (mkVec3 (ofZ 0) (ofZ 1) (ofZ 0)) (mkVec3 (ofZ 0) (ofZ 1) (ofZ 0)) in
  let branchConfig := mkBranchGeometryConfig 8 (ofZ 2) in
  let leafShapeConfig :=
    mkLeafShapeConfig (lit (15 # 100)) (lit (25 # 100)) (lit (1 # 10)) 2 in
  let leafInstanceConfig :=
    mkLeafInstanceConfig
      (mkColor (lit (13 # 100)) (lit (55 # 100)) (lit (13 # 100)))
      (lit (1 # 10)) (lit (2 # 10)) (lit (3 # 10)) "leaves" in
  mkTreeConfig lsystem 4 "default-tree" turtleConfig branchConfig
    leafShapeConfig leafInstanceConfig.

End TreeBuilder.

(* ================================================================= *)
(** * src/hooks/useTreeGenerator.ts *)


Section ParamsToConfig.
Context {num : Type} `{Number num}.
Local Open Scope num_scope.
(** The preset table ([getPreset] of src/lsystem/presets.ts, which yields
    the L-system of the named preset) and the colour parser ([hexToRgb])
    are taken as given: [paramsToConfig] only passes their results on. *)
Variable getPreset : string -> option (LSystem num Random.Sfc32).
Variable hexToRgb : string -> Color num.


End ParamsToConfig.

(* ================================================================= *)
(** * Vocabulary of the properties *)

Section Vocabulary.
Context {num : Type} `{Number num}.
Local Open Scope num_scope.

(** The odds of the first [k] rules, added from 0 in list order, as the
    loop of [selectRule] and its [reduce] add them. *)
Definition cumulativeOdds {G : Type} (rs : list (Rule num G)) (k : nat) : num :=
  fold_left (fun sum rule => sum + odds rule) (firstn k rs) (ofZ 0).

(** The running sum of the loop of [selectRule] when it starts from
    [acc]. *)
Definition sumFrom {G : Type} (acc : num) (rs : list (Rule num G)) (k : nat) : num :=
  fold_left (fun sum rule => sum + odds rule) (firstn k rs) acc.

(** The L-system of the doubling scenario: axiom F, one rule F -> FF with
    odds 1. *)
Definition doublingRules {G : Type} : list (Rule num G) :=
  [mkRule "F" (ofZ 1) (Literal "FF")].

Definition doublingSystem (cfg : LSystemConfig num) : LSystem num Random.Sfc32 :=
  mkLSystem "F" doublingRules cfg.

(** The node with its branch-point flag set when [b] holds. *)
Definition flagBranch (b : bool) (n : SkeletonNode.t num) : SkeletonNode.t num :=
  if b then
    SkeletonNode.mk (SkeletonNode.id n) (SkeletonNode.position n)
      (SkeletonNode.orientation n) (SkeletonNode.radius n)
      (SkeletonNode.parentId n) (SkeletonNode.depth n)
      (SkeletonNode.isTerminal n) true
  else n.


(** The number of segments that start at the node [nodeId]. *)
Definition countStarts (nodeId : nat) (segs : list (SkeletonSegment.t num)) : nat :=
  List.length
    (filter (fun s => Nat.eqb (SkeletonSegment.startNodeId s) nodeId) segs).

(** What the loop of [interpretSentence] maintains: ids are dense and in
    creation order, the turtle and every saved state stand on an existing
    node, [childCounts] counts the segments leaving each node and holds
    each key once, segments join existing nodes, and no flag is set
    before the post-processing. *)
Record InterpInv (m : Interp.t num) : Prop := mkInterpInv {
  inv_ids :
    map (@SkeletonNode.id num) (Interp.nodes m) = seq 0 (Interp.nextNodeId m);
  inv_current :
    (TurtleState.currentNodeId (Interp.state m) < Interp.nextNodeId m)%nat;
  inv_stack :
    Forall (fun st => (TurtleState.currentNodeId st < Interp.nextNodeId m)%nat)
           (Interp.stateStack m);
  inv_counts :
    forall k, mapGet k (Interp.childCounts m) = countStarts k (Interp.segments m);
  inv_keys : NoDup (map fst (Interp.childCounts m));
  inv_segments :
    Forall (fun s => (SkeletonSegment.startNodeId s < Interp.nextNodeId m)%nat
                     /\ (SkeletonSegment.endNodeId s < Interp.nextNodeId m)%nat)
           (Interp.segments m);
  inv_flags :
    Forall (fun n => SkeletonNode.isTerminal n = false
                     /\ SkeletonNode.isBranchPoint n = false)
           (Interp.nodes m)
}.

(** A skeleton whose segments join nodes it holds. *)
Definition segmentsReferToNodes (sk : Skeleton.t num) : Prop :=
  Forall (fun s =>
            findNode (SkeletonSegment.startNodeId s) (Skeleton.nodes sk) <> None
            /\ findNode (SkeletonSegment.endNodeId s) (Skeleton.nodes sk) <> None)
         (Skeleton.segments sk).



(** The generator after [k] draws. *)
Fixpoint advance (k : nat) (g : Random.Sfc32) : Random.Sfc32 :=
  match k with
  | O => g
  | S k' => advance k' (snd (Random.sfc32 g))
  end.

(** Instance [i] as the body of the loop of [buildLeafInstances] computes
    it when the generator stands at [g], written into fresh arrays for
    [n] leaves. *)
Definition leafInstanceAt (cfg : LeafInstanceConfig num) (n i : nat)
  (leaf : LeafPoint.t num) (g : Random.Sfc32) : LeafAcc :=
  leafInstance cfg
    (mkLeafAcc (newArray (ofZ 0) (n * 16)) (newArray (ofZ 0) (n * 3)) g)
    (i, leaf).

End Vocabulary.

(** Successive writes of [vals] at [base + k], [base + k + 1], ... *)
Fixpoint writeAt {A : Type} (base k : nat) (vals : list A) (l : list A) : list A :=
  match vals with
  | [] => l
  | x :: rest => writeAt base (S k) rest (setAt (base + k) x l)
  end.

(* ================================================================= *)
(** * Vocabulary of the further properties *)

(** A generator state whose four registers are 32-bit unsigned words. *)
Definition wordState (g : Random.Sfc32) : Prop :=
  (0 <= Random.ra g < 4294967296)%Z /\ (0 <= Random.rb g < 4294967296)%Z
  /\ (0 <= Random.rc g < 4294967296)%Z /\ (0 <= Random.rd g < 4294967296)%Z.

Section EngineVocabulary.
Context {num : Type} `{Number num}.
Variable G : Type.
Variable random : G -> num * G.

(** The characters for which [createSymbol] asks for a variability
    factor: F and the six rotations. *)
Definition variedChar (c : ascii) : bool :=
  String.eqb (String c EmptyString) "F"
  || existsb (String.eqb (String c EmptyString)) rotationSymbols.

(** The generator after [k] calls of [rng.random()]. *)
Definition drawn (k : nat) (g : G) : G :=
  Nat.iter k (fun g => snd (random g)) g.

(** A rule whose [match] is a bracket. *)
Definition rewritesBracket (rule : Rule num G) : bool :=
  String.eqb (rule_match rule) "[" || String.eqb (rule_match rule) "]".

(** An L-system without chance: no variability, every rule a literal
    production, at most one rule per symbol. *)
Definition deterministic (ls : LSystem num G) : Prop :=
  (variability (config ls) =? ofZ 0)%num = true
  /\ Forall (fun rule => exists production, produce rule = Literal production)
            (rules ls)
  /\ forall c : string,
       (List.length (filter (fun rule => String.eqb (rule_match rule) c) (rules ls))
        <= 1)%nat.

End EngineVocabulary.

Section TurtleVocabulary.
Context {num : Type} `{Number num}.
Local Open Scope num_scope.

(** A node with both flags cleared: what the loop of [interpretSentence]
    built, before the post-processing set the flags. *)
Definition unflag (n : SkeletonNode.t num) : SkeletonNode.t num :=
  SkeletonNode.mk (SkeletonNode.id n) (SkeletonNode.position n)
    (SkeletonNode.orientation n) (SkeletonNode.radius n)
    (SkeletonNode.parentId n) (SkeletonNode.depth n) false false.

(** The number of symbols [c] in a sentence. *)
Definition countSymbol (c : string) (sentence : list (Symbol num)) : nat :=
  List.length (filter (fun s => String.eqb (symbol s) c) sentence).

(** The symbols the [switch] of [interpretSentence] has a case for. *)
Definition turtleCommands : list string :=
  ["F"; "+"; "-"; "^"; "&"; "/"; "\"; "["; "]"; "L"]%string.

Definition isCommand (s : Symbol num) : bool :=
  existsb (String.eqb (symbol s)) turtleCommands.

(** Sentences whose brackets match. *)
Inductive balanced : list (Symbol num) -> Prop :=
| balanced_nil : balanced []
| balanced_symbol (s : Symbol num) (rest : list (Symbol num)) :
    symbol s <> "["%string -> symbol s <> "]"%string ->
    balanced rest -> balanced (s :: rest)
| balanced_branch (o c : Symbol num) (body rest : list (Symbol num)) :
    symbol o = "["%string -> symbol c = "]"%string ->
    balanced body -> balanced rest ->
    balanced (o :: body ++ c :: rest).

(** The tree the loop of [interpretSentence] has built: the root first,
    every later node with an earlier parent and the radius of its depth,
    and segment [k] the one that created node [k + 1]. *)
Record TreeInv (config : TurtleConfig num) (m : Interp.t num) : Prop := mkTreeInv {
  tree_root :
    exists rest,
      Interp.nodes m
      = createNode 0 (vec3 (ofZ 0) (ofZ 0) (ofZ 0)) identityQuat
          (tc_baseRadius config) None 0 :: rest;
  tree_parent :
    forall i n, nth_error (Interp.nodes m) (S i) = Some n ->
      exists p, SkeletonNode.parentId n = Some p /\ (p <= i)%nat;
  tree_radius :
    forall i n, nth_error (Interp.nodes m) (S i) = Some n ->
      SkeletonNode.radius n
      = tc_baseRadius config
        * npow (tc_radiusFalloff config) (Z.of_nat (SkeletonNode.depth n));
  tree_count :
    List.length (Interp.nodes m) = S (List.length (Interp.segments m));
  tree_segment :
    forall k s, nth_error (Interp.segments m) k = Some s ->
      exists a b,
        nth_error (Interp.nodes m) (SkeletonSegment.startNodeId s) = Some a
        /\ nth_error (Interp.nodes m) (S k) = Some b
        /\ SkeletonSegment.endNodeId s = S k
        /\ SkeletonNode.parentId b = Some (SkeletonSegment.startNodeId s)
        /\ SkeletonSegment.startRadius s = SkeletonNode.radius a
        /\ SkeletonSegment.endRadius s = SkeletonNode.radius b
}.

(** The turtle state [st] stands on a node of [ns]: the node it names
    exists, lies where the turtle is, and is no deeper than the turtle. *)
Definition standsOn (ns : list (SkeletonNode.t num)) (st : TurtleState.t num) : Prop :=
  exists n,
    nth_error ns (TurtleState.currentNodeId st) = Some n
    /\ SkeletonNode.position n = TurtleState.position st
    /\ (SkeletonNode.depth n <= TurtleState.depth st)%nat.

(** Where the loop of [interpretSentence] keeps the turtle, the saved
    states, the children and the leaves. *)
Record PlaceInv (m : Interp.t num) : Prop := mkPlaceInv {
  place_here : standsOn (Interp.nodes m) (Interp.state m);
  place_saved : Forall (standsOn (Interp.nodes m)) (Interp.stateStack m);
  place_child :
    forall i n, nth_error (Interp.nodes m) (S i) = Some n ->
      exists p pn,
        SkeletonNode.parentId n = Some p
        /\ nth_error (Interp.nodes m) p = Some pn
        /\ (SkeletonNode.depth pn <= SkeletonNode.depth n)%nat;
  place_leaves :
    Forall (fun l => exists n, In n (Interp.nodes m)
                               /\ SkeletonNode.position n = LeafPoint.position l)
           (Interp.leaves m)
}.

(** A quaternion of length 1. *)
Definition unitQuat (q : Quat num) : Prop :=
  qx q * qx q + qy q * qy q + qz q * qz q + qw q * qw q = ofZ 1.

(** Every orientation the loop of [interpretSentence] holds is a unit
    quaternion. *)
Record UnitInv (m : Interp.t num) : Prop := mkUnitInv {
  unit_state : unitQuat (TurtleState.orientation (Interp.state m));
  unit_saved :
    Forall (fun st => unitQuat (TurtleState.orientation st)) (Interp.stateStack m);
  unit_nodes :
    Forall (fun n => unitQuat (SkeletonNode.orientation n)) (Interp.nodes m);
  unit_leaves :
    Forall (fun l => unitQuat (LeafPoint.orientation l)) (Interp.leaves m)
}.

End TurtleVocabulary.

(** A segment whose recorded length is, up to its sign, the distance
    between the nodes it names. *)
Definition segmentSpans (ns : list (SkeletonNode.t R)) (s : SkeletonSegment.t R)
  : Prop :=
  exists a b,
    nth_error ns (SkeletonSegment.startNodeId s) = Some a
    /\ nth_error ns (SkeletonSegment.endNodeId s) = Some b
    /\ distanceVec3 (SkeletonNode.position a) (SkeletonNode.position b)
       = Rabs (SkeletonSegment.length s).

Section GeometryVocabulary.
Context {num : Type} `{Number num}.

(** Accumulators of [buildBranchGeometry] after whole segments: the
    buffers hold [vertexOffset] vertices, and every index names one of
    them. *)
Definition accIndexed (acc : @BranchAcc num) : Prop :=
  List.length (allPositions acc) = (3 * vertexOffset acc)%nat
  /\ List.length (allNormals acc) = (3 * vertexOffset acc)%nat
  /\ List.length (allUvs acc) = (2 * vertexOffset acc)%nat
  /\ List.length (allIndices acc) = (3 * vertexOffset acc)%nat
  /\ Forall (fun i => (i < vertexOffset acc)%nat) (allIndices acc).

End GeometryVocabulary.

(* ================================================================= *)
(** * Properties *)

Unset Implicit Arguments.

(* ----------------------------------------------------------------- *)
(** ** The random source *)

Module RandomFacts.
Import Random.
Local Open Scope R_scope.

Lemma u32_range (x : Z) : (0 <= u32 x < 4294967296)%Z.
Proof. unfold u32. apply Z.mod_pos_bound. lia. Qed.

(** The raw word of [sfc32] is a 32-bit unsigned integer. *)
Lemma sfc32_word_range (g : Sfc32) : (0 <= fst (sfc32 g) < 4294967296)%Z.
Proof. unfold sfc32. cbn [fst]. apply u32_range. Qed.

(** Every draw lies in [0, 1). *)
Lemma random_unit_interval (g : Sfc32) :
  0 <= fst (random (num := R) g) < 1.
Proof.
  unfold random, nextRandom.
  pose proof (sfc32_word_range g) as Hw.
  destruct (sfc32 g) as [t g']. cbn [fst] in *. cbn.
  destruct Hw as [Hlo Hhi].
  apply IZR_le in Hlo. apply IZR_lt in Hhi.
  split.
  - apply Rmult_le_reg_r with 4294967296; [lra|].
    unfold Rdiv. rewrite Rmult_assoc, Rinv_l by lra. lra.
  - apply Rmult_lt_reg_r with 4294967296; [lra|].
    unfold Rdiv. rewrite Rmult_assoc, Rinv_l by lra. lra.
Qed.

(** The model evaluates: the registers seeded from "apples" and the
    first raw words drawn from them. *)
Example createRandom_apples :
  createRandom "apples" = mkSfc32 3453500757 525147136 2278772549 1068107389
  /\ fst (sfc32 (createRandom "apples")) = 751787987%Z
  /\ fst (sfc32 (advance 1 (createRandom "apples"))) = 626690682%Z
  /\ fst (sfc32 (advance 2 (createRandom "apples"))) = 3342610981%Z.
Proof. vm_compute. repeat split; reflexivity. Qed.



Lemma Int_part_bounds (x : R) (n : Z) :
  0 <= x < IZR n + 1 -> (0 <= Int_part x <= n)%Z.
Proof.
  intros [Hlo Hhi].
  destruct (base_Int_part x) as [Hle Hgt].
  split.
  - assert (IZR (-1) < IZR (Int_part x)) as Hc by (simpl; lra).
    apply lt_IZR in Hc. lia.
  - assert (IZR (Int_part x) < IZR (n + 1)) as Hc by (rewrite plus_IZR; lra).
    apply lt_IZR in Hc. lia.
Qed.




End RandomFacts.

(* ----------------------------------------------------------------- *)
(** ** The engine *)

Section EngineFacts.
Context {num : Type} `{Number num}.
Variable G : Type.
Variable random : G -> num * G.
Local Open Scope num_scope.

Lemma selectLoop_first (rv : num) (rs : list (Rule num G)) :
  forall acc,
    match selectLoop rv acc rs with
    | Some rule =>
        exists i, nth_error rs i = Some rule
                  /\ (rv <? sumFrom acc rs (S i)) = true
                  /\ forall j, (j < i)%nat -> (rv <? sumFrom acc rs (S j)) = false
    | None =>
        forall j, (j < List.length rs)%nat -> (rv <? sumFrom acc rs (S j)) = false
    end.
Proof.
  induction rs as [|rule rest IH]; intros acc.
  - simpl. intros j Hj. inversion Hj.
  - simpl. destruct (rv <? acc + odds rule) eqn:Hcmp.
    + exists 0%nat. repeat split; [exact Hcmp|]. intros j Hj. inversion Hj.
    + specialize (IH (acc + odds rule)).
      destruct (selectLoop rv (acc + odds rule) rest) as [found|].
      * destruct IH as (i & Hnth & Hi & Hbefore).
        exists (S i). repeat split; [exact Hnth|exact Hi|].
        intros [|j] Hj; [exact Hcmp|]. apply Hbefore. lia.
      * intros [|j] Hj; [exact Hcmp|]. apply IH. simpl in Hj. lia.
Qed.

(** C3: with exactly one rule [selectRule] returns it and leaves the
    generator untouched; otherwise it takes exactly one draw [r], and
    with the threshold [r * (sum of the odds)] it returns the first rule,
    in list order, whose cumulative odds exceed the threshold, or the
    last rule when none does. *)
Theorem selectRule_spec (rs : list (Rule num G)) (g : G) :
  (forall rule, rs = [rule] -> selectRule random rs g = (Some rule, g))
  /\ (List.length rs <> 1%nat ->
      let threshold := fst (random g) * cumulativeOdds rs (List.length rs) in
      snd (selectRule random rs g) = snd (random g)
      /\ (forall i rule,
             nth_error rs i = Some rule ->
             (threshold <? cumulativeOdds rs (S i)) = true ->
             (forall j, (j < i)%nat ->
                        (threshold <? cumulativeOdds rs (S j)) = false) ->
             fst (selectRule random rs g) = Some rule)
      /\ ((forall j, (j < List.length rs)%nat ->
                     (threshold <? cumulativeOdds rs (S j)) = false) ->
          fst (selectRule random rs g) = nth_error rs (List.length rs - 1))).
Proof.
  split.
  - intros rule ->. reflexivity.
  - intros Hlen threshold.
    unfold selectRule.
    destruct (Nat.eqb (List.length rs) 1) eqn:Hone;
      [apply Nat.eqb_eq in Hone; contradiction|].
    assert (Htot : fold_left (fun sum rule => sum + odds rule) rs (ofZ 0)
                   = cumulativeOdds rs (List.length rs)).
    { unfold cumulativeOdds. rewrite firstn_all. reflexivity. }
    rewrite Htot. subst threshold.
    destruct (random g) as [r g'] eqn:Hdraw. cbn [fst snd].
    pose proof (selectLoop_first (r * cumulativeOdds rs (List.length rs)) rs (ofZ 0))
      as Hloop.
    unfold sumFrom in Hloop. unfold cumulativeOdds in *.
    destruct (selectLoop _ (ofZ 0) rs) as [found|]; cbn [fst snd].
    + destruct Hloop as (i0 & Hnth0 & Hi0 & Hbefore0).
      split; [reflexivity|]. split.
      * intros i rule Hnth Hi Hbefore.
        destruct (Nat.lt_trichotomy i i0) as [Hlt|[Heq|Hgt]].
        -- rewrite (Hbefore0 i Hlt) in Hi. discriminate.
        -- subst i0. congruence.
        -- rewrite (Hbefore i0 Hgt) in Hi0. discriminate.
      * intros Hnone.
        assert (Hi0len : (i0 < List.length rs)%nat).
        { apply nth_error_Some. congruence. }
        rewrite (Hnone i0 Hi0len) in Hi0. discriminate.
    + split; [reflexivity|]. split.
      * intros i rule Hnth Hi _.
        assert (Hilen : (i < List.length rs)%nat).
        { apply nth_error_Some. congruence. }
        rewrite (Hloop i Hilen) in Hi. discriminate.
      * intros _. reflexivity.
Qed.

(** [selectRule] never returns [undefined] on a non-empty list, so the
    branch of [applyRulesStep] for it is not taken. *)
Lemma selectRule_defined (rs : list (Rule num G)) (g : G) :
  rs <> [] -> exists rule, fst (selectRule random rs g) = Some rule.
Proof.
  intros Hne. unfold selectRule.
  destruct (Nat.eqb (List.length rs) 1) eqn:Hone.
  - destruct rs as [|rule rest]; [contradiction|]. exists rule. reflexivity.
  - destruct (random g) as [r g'].
    destruct (selectLoop _ _ rs) as [found|]; [exists found; reflexivity|].
    cbn [fst].
    destruct (nth_error rs (List.length rs - 1)) as [rule|] eqn:Hlast;
      [exists rule; reflexivity|].
    apply nth_error_None in Hlast.
    destruct rs; [contradiction|]. simpl in Hlast. lia.
Qed.

(** A created symbol carries the character it was created for. *)
Lemma createSymbol_symbol (char : string) (cfg : LSystemConfig num) (d : Z) (g : G) :
  symbol (fst (createSymbol random char cfg d g)) = char.
Proof.
  unfold createSymbol.
  destruct (String.eqb char "F");
    [destruct (getVariabilityFactor random cfg g); reflexivity|].
  destruct (existsb (String.eqb char) rotationSymbols);
    [destruct (getVariabilityFactor random cfg g); reflexivity|].
  destruct (String.eqb char "L"); reflexivity.
Qed.

(** The loop of [parseProduction] from an accumulator. *)
Lemma parseProduction_fold (cfg : LSystemConfig num) (d : Z) (cs : list ascii) :
  forall (acc : list (Symbol num)) (g : G),
    map (@symbol num)
        (fst (fold_left
                (fun '(symbols, g) c =>
                   let '(sym, g') := createSymbol random (String c EmptyString) cfg d g in
                   (symbols ++ [sym], g'))
                cs (acc, g)))
    = map (@symbol num) acc ++ map (fun c => String c EmptyString) cs.
Proof.
  induction cs as [|c cs IH]; intros acc g; simpl.
  - rewrite app_nil_r. reflexivity.
  - pose proof (createSymbol_symbol (String c EmptyString) cfg d g) as Hc.
    destruct (createSymbol random (String c EmptyString) cfg d g) as [sym g'].
    rewrite IH, map_app. simpl in *. rewrite Hc, <- app_assoc. reflexivity.
Qed.

(** [parseProduction] yields one symbol per character, in order. *)
Lemma parseProduction_symbols (production : string) (cfg : LSystemConfig num)
  (d : Z) (g : G) :
  map (@symbol num) (fst (parseProduction random production cfg d g))
  = map (fun c => String c EmptyString) (list_ascii_of_string production).
Proof. unfold parseProduction. apply (parseProduction_fold cfg d _ [] g). Qed.

(** One turn of [applyRules] under the rule F -> FF on a symbol F: two
    symbols F are appended, the depth is kept. *)
Lemma applyRulesStep_doubling (cfg : LSystemConfig num) (st : ApplyState G)
  (sym : Symbol num) :
  symbol sym = "F"%string ->
  exists s1 s2 g',
    applyRulesStep random doublingRules cfg st sym
    = mkApplyState (as_result st ++ [s1; s2]) (as_depth st) g'
    /\ symbol s1 = "F"%string /\ symbol s2 = "F"%string.
Proof.
  intros Hsym. destruct st as [result depth g].
  assert (Hstep :
            applyRulesStep random doublingRules cfg (mkApplyState result depth g) sym
            = let '(newSymbols, g'') := parseProduction random "FF" cfg depth g in
              mkApplyState (result ++ newSymbols) depth g'').
  { unfold applyRulesStep, doublingRules. rewrite Hsym. reflexivity. }
  rewrite Hstep. clear Hstep.
  pose proof (parseProduction_symbols "FF" cfg depth g) as Hp.
  destruct (parseProduction random "FF" cfg depth g) as [newSymbols g''].
  cbn in Hp. cbn [as_result as_depth].
  destruct newSymbols as [|s1 [|s2 [|s3 rest]]]; try discriminate.
  injection Hp as H1 H2.
  exists s1, s2, g''. auto.
Qed.

Lemma applyRules_doubling_fold (cfg : LSystemConfig num)
  (sentence : list (Symbol num)) :
  Forall (fun s => symbol s = "F"%string) sentence ->
  forall st : ApplyState G,
  exists out,
    as_result (fold_left (applyRulesStep random doublingRules cfg) sentence st)
    = as_result st ++ out
    /\ List.length out = (2 * List.length sentence)%nat
    /\ Forall (fun s => symbol s = "F"%string) out.
Proof.
  induction 1 as [|sym rest Hsym Hrest IH]; intros st.
  - exists []. simpl. rewrite app_nil_r. auto.
  - simpl fold_left.
    destruct (applyRulesStep_doubling cfg st sym Hsym)
      as (s1 & s2 & g' & Hstep & H1 & H2).
    rewrite Hstep.
    destruct (IH (mkApplyState (as_result st ++ [s1; s2]) (as_depth st) g'))
      as (out & Hout & Hlen & Hall).
    exists (s1 :: s2 :: out). rewrite Hout. cbn [as_result].
    rewrite <- app_assoc. split; [reflexivity|].
    split; [simpl; lia|]. repeat constructor; assumption.
Qed.

(** One pass of [applyRules] under F -> FF doubles a sentence of F's. *)
Lemma applyRules_doubling (cfg : LSystemConfig num) (sentence : list (Symbol num))
  (g : G) :
  Forall (fun s => symbol s = "F"%string) sentence ->
  let out := fst (applyRules random sentence doublingRules cfg g) in
  List.length out = (2 * List.length sentence)%nat
  /\ Forall (fun s => symbol s = "F"%string) out.
Proof.
  intros Hall. unfold applyRules. cbn [fst].
  destruct (applyRules_doubling_fold cfg sentence Hall (mkApplyState [] 0 g))
    as (out & Hout & Hlen & HF).
  rewrite Hout. cbn [as_result app]. auto.
Qed.

Lemma generateFrom_doubling (cfg : LSystemConfig num) (n : nat) (g : G) :
  let out := fst (generateFrom random (mkLSystem "F" doublingRules cfg) n g) in
  List.length out = (2 ^ n)%nat /\ Forall (fun s => symbol s = "F"%string) out.
Proof.
  unfold generateFrom. cbn [axiom rules config].
  induction n as [|n IH].
  - cbn [Nat.iter].
    pose proof (parseProduction_symbols "F" cfg 0 g) as Hp.
    destruct (parseProduction random "F" cfg 0 g) as [syms g'].
    cbn in Hp. cbn [fst].
    destruct syms as [|s1 [|s2 rest]]; try discriminate.
    injection Hp as H1. split; [reflexivity|]. repeat constructor; assumption.
  - rewrite Nat.iter_succ.
    destruct (Nat.iter n _ _) as [sentence gn].
    cbn [fst] in IH. destruct IH as [Hlen Hall].
    destruct (applyRules_doubling cfg sentence gn Hall) as [Hlen' Hall'].
    cbv beta iota.
    split; [|exact Hall'].
    rewrite Hlen', Hlen. simpl. lia.
Qed.

End EngineFacts.

(** The theorem at the two rules of the engine's documentation, odds 0.7
    and 0.3, over the reals and the seeded generator: one draw is taken. *)
Lemma selectRule_spec_witness :
  let rs : list (Rule R Random.Sfc32) :=
    [mkRule "F" (7 / 10)%R (Literal "F[+F]");
     mkRule "F" (3 / 10)%R (Literal "F[-F]")] in
  let g := Random.createRandom "tree-123" in
  List.length rs <> 1%nat
  /\ snd (selectRule Random.random rs g) = snd (Random.random (num := R) g).
Proof.
  intros rs g.
  assert (Hlen : List.length rs <> 1%nat) by (cbn; discriminate).
  split; [exact Hlen|].
  exact (proj1 (proj2 (selectRule_spec Random.Sfc32 Random.random rs g) Hlen)).
Defined.

(** C8: for the axiom F and the single rule F -> FF with odds 1,
    [generateSentence] with 3 iterations returns 8 symbols, all F, for
    every seed and configuration; after [n] iterations the sentence has
    [2 ^ n] symbols, all F. *)
Theorem generateSentence_doubling {num : Type} `{Number num}
  (cfg : LSystemConfig num) (seed : string) :
  (List.length (generateSentence (doublingSystem cfg) 3 seed) = 8%nat
   /\ Forall (fun s => symbol s = "F"%string)
             (generateSentence (doublingSystem cfg) 3 seed))
  /\ forall n : nat,
       List.length (generateSentence (doublingSystem cfg) n seed) = (2 ^ n)%nat
       /\ Forall (fun s => symbol s = "F"%string)
                 (generateSentence (doublingSystem cfg) n seed).
Proof.
  assert (Hgen : forall n : nat,
             List.length (generateSentence (doublingSystem cfg) n seed) = (2 ^ n)%nat
             /\ Forall (fun s => symbol s = "F"%string)
                       (generateSentence (doublingSystem cfg) n seed)).
  { intros n. unfold generateSentence, doublingSystem.
    apply (generateFrom_doubling Random.Sfc32 Random.random cfg n
             (Random.createRandom seed)). }
  split; [exact (Hgen 3%nat)|exact Hgen].
Qed.

Section SymbolParameters.
Variable G : Type.
Variable random : G -> R * G.
Local Open Scope R_scope.

Lemma Q2R_half : Q2R (1 # 2) = 1 / 2.
Proof. unfold Q2R. simpl. lra. Qed.

Lemma neqb_R_true (a b : R) : neqb a b = true <-> a = b.
Proof.
  cbn. destruct (Req_dec_T a b); split; intros; congruence.
Qed.

(** C7: the parameters [createSymbol] attaches at depth [d]. For F the
    length is [baseLength * lengthFalloff ^ d * v]; for each of the six
    rotation characters the angle is [branchAngle * v]; for L the size is
    1 and the generator is untouched; every other character has no
    parameter and the generator is untouched. The factor [v] is 1 with no
    draw when the variability is 0, and otherwise
    [1 + variability * (r - 0.5) * 2] for exactly one draw [r]; for a
    draw in [0, 1) it lies between [1 - variability] and
    [1 + variability], whichever of the two is the smaller. *)
Theorem createSymbol_parameters (cfg : LSystemConfig R) (d : Z) (g : G) :
  let vf := getVariabilityFactor random cfg g in
  createSymbol random "F" cfg d g
  = (mkSymbol "F"
       (mkSymbolParams
          (Some (baseLength cfg * powerRZ (lengthFalloff cfg) d * fst vf))
          None None None None),
     snd vf)
  /\ (forall c, In c rotationSymbols ->
        createSymbol random c cfg d g
        = (mkSymbol c
             (mkSymbolParams None None (Some (branchAngle cfg * fst vf)) None None),
           snd vf))
  /\ createSymbol random "L" cfg d g
     = (mkSymbol "L" (mkSymbolParams None None None (Some 1) None), g)
  /\ (forall c, c <> "F"%string -> ~ In c rotationSymbols -> c <> "L"%string ->
        createSymbol random c cfg d g = (mkSymbol c noParams, g))
  /\ (variability cfg = 0 -> vf = (1, g))
  /\ (variability cfg <> 0 ->
        vf = (1 + variability cfg * (fst (random g) - 1 / 2) * 2, snd (random g)))
  /\ (0 <= fst (random g) < 1 ->
        Rmin (1 - variability cfg) (1 + variability cfg) <= fst vf
        <= Rmax (1 - variability cfg) (1 + variability cfg))
  /\ (0 <= variability cfg -> 0 <= fst (random g) < 1 ->
        1 - variability cfg <= fst vf <= 1 + variability cfg).
Proof.
  intros vf.
  assert (Hzero : variability cfg = 0 -> vf = (1, g)).
  { intros Hv. unfold vf, getVariabilityFactor.
    destruct (neqb (variability cfg) (ofZ 0)) eqn:Hc; [reflexivity|].
    exfalso. apply (proj2 (neqb_R_true _ _)) in Hv. cbn in *. congruence. }
  assert (Hdraw : variability cfg <> 0 ->
            vf = (1 + variability cfg * (fst (random g) - 1 / 2) * 2,
                  snd (random g))).
  { intros Hv. unfold vf, getVariabilityFactor.
    destruct (neqb (variability cfg) (ofZ 0)) eqn:Hc.
    - apply neqb_R_true in Hc. contradiction.
    - destruct (random g) as [r g']. cbn. rewrite Q2R_half. reflexivity. }
  refine (conj _ (conj _ (conj _ (conj _ (conj Hzero (conj Hdraw (conj _ _))))))).
  - unfold createSymbol. cbn [String.eqb Ascii.eqb Bool.eqb].
    fold vf. destruct vf as [v g']. reflexivity.
  - intros c Hin. unfold createSymbol.
    cbn [In rotationSymbols] in Hin.
    destruct Hin as [<-|[<-|[<-|[<-|[<-|[<-|[]]]]]]];
      cbn [String.eqb Ascii.eqb Bool.eqb existsb rotationSymbols orb];
      fold vf; destruct vf as [v g']; reflexivity.
  - reflexivity.
  - intros c HF Hrot HL. unfold createSymbol.
    apply String.eqb_neq in HF. apply String.eqb_neq in HL.
    rewrite HF, HL.
    destruct (existsb (String.eqb c) rotationSymbols) eqn:Hex; [|reflexivity].
    apply existsb_exists in Hex. destruct Hex as (x & Hin & Heq).
    apply String.eqb_eq in Heq. subst x. contradiction.
  - intros Hr.
    destruct (Req_dec_T (variability cfg) 0) as [Hv|Hv].
    + rewrite (Hzero Hv). cbn [fst]. rewrite Hv.
      unfold Rmin, Rmax. destruct (Rle_dec (1 - 0) (1 + 0)); lra.
    + rewrite (Hdraw Hv). cbn [fst].
      unfold Rmin, Rmax.
      destruct (Rle_dec (1 - variability cfg) (1 + variability cfg));
        split; nra.
  - intros Hnonneg Hr.
    destruct (Req_dec_T (variability cfg) 0) as [Hv|Hv].
    + rewrite (Hzero Hv). cbn [fst]. lra.
    + rewrite (Hdraw Hv). cbn [fst]. split; nra.
Qed.

End SymbolParameters.

(** The theorem at the default configuration (variability 0.15), depth 2,
    with the generator seeded from the default seed. *)
Lemma createSymbol_parameters_witness :
  let cfg := config (lsystem (defaultTreeConfig (num := R))) in
  let g := Random.createRandom "default-tree" in
  (0 <= variability cfg)%R
  /\ (1 - variability cfg
      <= fst (getVariabilityFactor Random.random cfg g)
      <= 1 + variability cfg)%R.
Proof.
  intros cfg g.
  assert (Hv : (0 <= variability cfg)%R).
  { cbn. unfold Q2R. cbn. lra. }
  split; [exact Hv|].
  exact (proj2 (proj2 (proj2 (proj2 (proj2 (proj2 (proj2
           (createSymbol_parameters Random.Sfc32 Random.random cfg 2 g)))))))
           Hv (RandomFacts.random_unit_interval g)).
Defined.

(* ----------------------------------------------------------------- *)
(** ** The turtle interpreter *)

Section MapFacts.

Lemma mapGet_mapSet_same (k v : nat) (m : list (nat * nat)) :
  mapGet k (mapSet k v m) = v.
Proof.
  unfold mapGet. induction m as [|[k' v'] m IH]; simpl.
  - rewrite Nat.eqb_refl. reflexivity.
  - destruct (Nat.eqb k' k) eqn:E; simpl.
    + rewrite Nat.eqb_refl. reflexivity.
    + rewrite E. exact IH.
Qed.

Lemma mapGet_mapSet_other (k k' v : nat) (m : list (nat * nat)) :
  k' <> k -> mapGet k' (mapSet k v m) = mapGet k' m.
Proof.
  intros Hne. unfold mapGet. induction m as [|[k0 v0] m IH]; simpl.
  - destruct (Nat.eqb k k') eqn:E; [apply Nat.eqb_eq in E; congruence|reflexivity].
  - destruct (Nat.eqb k0 k) eqn:E; simpl.
    + apply Nat.eqb_eq in E. subst k0.
      destruct (Nat.eqb k k') eqn:E'; [apply Nat.eqb_eq in E'; congruence|].
      reflexivity.
    + destruct (Nat.eqb k0 k'); [reflexivity|exact IH].
Qed.

Lemma mapSet_keys (k v : nat) (m : list (nat * nat)) :
  map fst (mapSet k v m)
  = if existsb (Nat.eqb k) (map fst m) then map fst m else map fst m ++ [k].
Proof.
  induction m as [|[k0 v0] m IH]; simpl; [reflexivity|].
  rewrite (Nat.eqb_sym k k0).
  destruct (Nat.eqb k0 k) eqn:E; simpl.
  - apply Nat.eqb_eq in E. subst. reflexivity.
  - rewrite IH. destruct (existsb (Nat.eqb k) (map fst m)); reflexivity.
Qed.

Lemma mapSet_NoDup (k v : nat) (m : list (nat * nat)) :
  NoDup (map fst m) -> NoDup (map fst (mapSet k v m)).
Proof.
  intros Hnd. rewrite mapSet_keys.
  destruct (existsb (Nat.eqb k) (map fst m)) eqn:E; [exact Hnd|].
  apply NoDup_app; [exact Hnd|constructor; [intros []|constructor]|].
  intros x Hin [Hx|[]]. subst x.
  assert (existsb (Nat.eqb k) (map fst m) = true) as Ht.
  { apply existsb_exists. exists k. split; [exact Hin|apply Nat.eqb_refl]. }
  congruence.
Qed.

(** With each key held once, an entry above 1 exists exactly when the
    lookup is above 1. *)
Lemma mapGet_entry (k : nat) (m : list (nat * nat)) :
  NoDup (map fst m) ->
  existsb (fun e => Nat.eqb (fst e) k && Nat.ltb 1 (snd e)) m = true
  <-> (1 < mapGet k m)%nat.
Proof.
  unfold mapGet. induction m as [|[k0 v0] m IH]; intros Hnd; simpl.
  - split; [discriminate|lia].
  - inversion Hnd as [|? ? Hnotin Hnd']; subst.
    destruct (Nat.eqb k0 k) eqn:E; simpl.
    + apply Nat.eqb_eq in E. subst k0.
      assert (Hrest : existsb (fun e => Nat.eqb (fst e) k && Nat.ltb 1 (snd e)) m
                      = false).
      { apply not_true_is_false. intros Hex. apply existsb_exists in Hex.
        destruct Hex as ([k1 v1] & Hin & Hb). simpl in Hb.
        apply andb_true_iff in Hb. destruct Hb as [Hk _].
        apply Nat.eqb_eq in Hk. subst k1.
        apply Hnotin. apply (in_map fst) in Hin. exact Hin. }
      rewrite Hrest, orb_false_r. apply Nat.ltb_lt.
    + apply IH. exact Hnd'.
Qed.

End MapFacts.

Section TurtleFacts.
Context {num : Type} `{Number num}.

(** In a list whose ids are [a, a+1, ...], [find] returns the node of
    every id in range. *)
Lemma findNode_dense (ns : list (SkeletonNode.t num)) :
  forall a k,
    map (@SkeletonNode.id num) ns = seq a (List.length ns) ->
    (a <= k < a + List.length ns)%nat ->
    exists node, findNode k ns = Some node /\ SkeletonNode.id node = k.
Proof.
  induction ns as [|n ns IH]; intros a k Hids Hk; simpl in *; [lia|].
  injection Hids as Hn Hrest. unfold findNode. simpl.
  destruct (Nat.eqb (SkeletonNode.id n) k) eqn:E.
  - exists n. apply Nat.eqb_eq in E. auto.
  - apply Nat.eqb_neq in E.
    apply (IH (S a) k Hrest). lia.
Qed.

Lemma ids_length (ns : list (SkeletonNode.t num)) (n : nat) :
  map (@SkeletonNode.id num) ns = seq 0 n -> List.length ns = n.
Proof.
  intros Hids. apply (f_equal (@List.length nat)) in Hids.
  rewrite length_map, length_seq in Hids. exact Hids.
Qed.

Lemma findNode_in_range (ns : list (SkeletonNode.t num)) (n k : nat) :
  map (@SkeletonNode.id num) ns = seq 0 n -> (k < n)%nat ->
  exists node, findNode k ns = Some node /\ SkeletonNode.id node = k.
Proof.
  intros Hids Hk. pose proof (ids_length ns n Hids) as Hlen.
  apply (findNode_dense ns 0 k); [rewrite Hlen; exact Hids|lia].
Qed.

Lemma countStarts_app (k : nat) (l1 l2 : list (SkeletonSegment.t num)) :
  countStarts k (l1 ++ l2) = (countStarts k l1 + countStarts k l2)%nat.
Proof. unfold countStarts. rewrite filter_app, length_app. reflexivity. Qed.

Lemma initialInterp_inv (config : TurtleConfig num) :
  InterpInv (initialInterp config).
Proof.
  constructor; simpl; auto; repeat constructor.
Qed.

Lemma rotateState_inv (m : Interp.t num) (axis : Vec3 num) (angle : num) :
  InterpInv m -> InterpInv (rotateState m axis angle).
Proof. intros [? ? ? ? ? ? ?]. constructor; simpl; assumption. Qed.

(** Every turn of the loop succeeds and keeps the invariant. *)
Lemma step_inv (config : TurtleConfig num) (m : Interp.t num) (sym : Symbol num) :
  InterpInv m -> exists m', step config m sym = Some m' /\ InterpInv m'.
Proof.
  intros Hinv. pose proof Hinv as [Hids Hcur Hstack Hcounts Hkeys Hsegs Hflags].
  unfold step.
  destruct (String.eqb (symbol sym) "F") eqn:EF.
  { set (newNode := createNode (Interp.nextNodeId m) _ _ _ _ _).
    assert (Hids' : map (@SkeletonNode.id num) (Interp.nodes m ++ [newNode])
                    = seq 0 (S (Interp.nextNodeId m))).
    { rewrite map_app, Hids, seq_S. reflexivity. }
    destruct (findNode_in_range (Interp.nodes m ++ [newNode])
                (S (Interp.nextNodeId m))
                (TurtleState.currentNodeId (Interp.state m)) Hids'
                (Nat.lt_lt_succ_r _ _ Hcur))
      as (currentNode & Hfind & Hid).
    rewrite Hfind. eexists. split; [reflexivity|].
    constructor; cbn [Interp.nodes Interp.segments Interp.leaves
                      Interp.childCounts Interp.nextNodeId Interp.stateStack
                      Interp.state TurtleState.currentNodeId].
    - exact Hids'.
    - unfold newNode, createNode. simpl. lia.
    - eapply Forall_impl; [|exact Hstack]. simpl. intros; lia.
    - intros k. rewrite countStarts_app.
      unfold countStarts at 2, createSegment. cbn [filter SkeletonSegment.startNodeId].
      rewrite Hid.
      destruct (Nat.eq_dec k (TurtleState.currentNodeId (Interp.state m))) as [->|Hne].
      + rewrite mapGet_mapSet_same, Nat.eqb_refl, Hcounts. reflexivity.
      + rewrite mapGet_mapSet_other by exact Hne.
        destruct (Nat.eqb _ k) eqn:E; [apply Nat.eqb_eq in E; congruence|].
        rewrite Hcounts. simpl. lia.
    - apply mapSet_NoDup. exact Hkeys.
    - apply Forall_app. split.
      + eapply Forall_impl; [|exact Hsegs]. simpl. intros; lia.
      + constructor; [|constructor]. unfold createSegment, newNode, createNode.
        simpl. rewrite Hid. lia.
    - apply Forall_app. split; [exact Hflags|].
      constructor; [|constructor]. split; reflexivity. }
  destruct (String.eqb (symbol sym) "+");
    [eexists; split; [reflexivity|apply rotateState_inv; exact Hinv]|].
  destruct (String.eqb (symbol sym) "-");
    [eexists; split; [reflexivity|apply rotateState_inv; exact Hinv]|].
  destruct (String.eqb (symbol sym) "^");
    [eexists; split; [reflexivity|apply rotateState_inv; exact Hinv]|].
  destruct (String.eqb (symbol sym) "&");
    [eexists; split; [reflexivity|apply rotateState_inv; exact Hinv]|].
  destruct (String.eqb (symbol sym) "/");
    [eexists; split; [reflexivity|apply rotateState_inv; exact Hinv]|].
  destruct (String.eqb (symbol sym) "\");
    [eexists; split; [reflexivity|apply rotateState_inv; exact Hinv]|].
  destruct (String.eqb (symbol sym) "[").
  { eexists. split; [reflexivity|].
    constructor; simpl; try assumption.
    constructor; [exact Hcur|exact Hstack]. }
  destruct (String.eqb (symbol sym) "]").
  { destruct (Interp.stateStack m) as [|savedState rest] eqn:Estack.
    - eexists. split; [reflexivity|exact Hinv].
    - eexists. split; [reflexivity|].
      inversion Hstack as [|? ? Hsaved Hrest]; subst.
      constructor; simpl; assumption. }
  destruct (String.eqb (symbol sym) "L").
  { eexists. split; [reflexivity|]. constructor; simpl; assumption. }
  eexists. split; [reflexivity|exact Hinv].
Qed.

Lemma runSentence_inv (config : TurtleConfig num) (sentence : list (Symbol num)) :
  forall m, InterpInv m ->
    exists m', runSentence config sentence m = Some m' /\ InterpInv m'.
Proof.
  unfold runSentence.
  induction sentence as [|sym rest IH]; intros m Hinv; simpl.
  - exists m. auto.
  - destruct (step_inv config m sym Hinv) as (m1 & Hstep & Hinv1).
    rewrite Hstep. apply IH. exact Hinv1.
Qed.

(** With distinct ids, marking the node [find] returns is marking every
    node of that id. *)
Lemma setBranchPoint_map (k : nat) (ns : list (SkeletonNode.t num)) :
  NoDup (map (@SkeletonNode.id num) ns) ->
  setBranchPoint k ns
  = map (fun n => flagBranch (Nat.eqb (SkeletonNode.id n) k) n) ns.
Proof.
  induction ns as [|n ns IH]; intros Hnd; simpl; [reflexivity|].
  inversion Hnd as [|? ? Hnotin Hnd']; subst.
  destruct (Nat.eqb (SkeletonNode.id n) k) eqn:E; simpl.
  - f_equal. apply Nat.eqb_eq in E.
    rewrite <- (map_id ns) at 1. apply map_ext_in.
    intros n' Hin.
    destruct (Nat.eqb (SkeletonNode.id n') k) eqn:E'; [|reflexivity].
    apply Nat.eqb_eq in E'. exfalso. apply Hnotin.
    rewrite E, <- E'. apply in_map. exact Hin.
  - f_equal. apply IH. exact Hnd'.
Qed.

Lemma flagBranch_id (b : bool) (n : SkeletonNode.t num) :
  SkeletonNode.id (flagBranch b n) = SkeletonNode.id n.
Proof. destruct b; reflexivity. Qed.

(** The loop over the entries of [childCounts], as one pass over the
    nodes. *)
Lemma markBranchPoints_map (cc : list (nat * nat)) :
  forall ns : list (SkeletonNode.t num),
    NoDup (map (@SkeletonNode.id num) ns) ->
    markBranchPoints cc ns
    = map (fun n =>
             flagBranch
               (existsb (fun e => Nat.eqb (fst e) (SkeletonNode.id n)
                                  && Nat.ltb 1 (snd e)) cc) n)
          ns.
Proof.
  unfold markBranchPoints.
  induction cc as [|[k c] cc IH]; intros ns Hnd; simpl.
  - symmetry. apply map_id.
  - assert (Hstep : (if Nat.ltb 1 c then setBranchPoint k ns else ns)
                    = map (fun n => flagBranch
                                      (Nat.eqb k (SkeletonNode.id n) && Nat.ltb 1 c) n)
                          ns).
    { destruct (Nat.ltb 1 c).
      - rewrite setBranchPoint_map by exact Hnd. apply map_ext.
        intros n. rewrite andb_true_r, Nat.eqb_sym. reflexivity.
      - rewrite <- (map_id ns) at 1. apply map_ext.
        intros n. rewrite andb_false_r. reflexivity. }
    rewrite Hstep, IH.
    + rewrite map_map. apply map_ext. intros n.
      rewrite flagBranch_id.
      destruct (Nat.eqb k (SkeletonNode.id n) && Nat.ltb 1 c); simpl;
        [|reflexivity].
      destruct (existsb _ cc); reflexivity.
    + rewrite map_map.
      erewrite map_ext; [exact Hnd|]. intros n. apply flagBranch_id.
Qed.

Lemma existsb_starts (k : nat) (segs : list (SkeletonSegment.t num)) :
  existsb (Nat.eqb k) (map (@SkeletonSegment.startNodeId num) segs) = false
  <-> countStarts k segs = 0%nat.
Proof.
  unfold countStarts. induction segs as [|s segs IH]; simpl; [tauto|].
  rewrite (Nat.eqb_sym k).
  destruct (Nat.eqb (SkeletonSegment.startNodeId s) k); simpl.
  - split; [discriminate|lia].
  - exact IH.
Qed.

(** The flags [finish] leaves on the nodes of a state that satisfies the
    invariant. *)
Lemma finish_flags (m : Interp.t num) :
  InterpInv m ->
  forall node, In node (Skeleton.nodes (finish m)) ->
    (SkeletonNode.isBranchPoint node = true
     <-> (1 < countStarts (SkeletonNode.id node) (Skeleton.segments (finish m)))%nat)
    /\ (SkeletonNode.isTerminal node = true
        <-> countStarts (SkeletonNode.id node) (Skeleton.segments (finish m)) = 0%nat).
Proof.
  intros [Hids Hcur Hstack Hcounts Hkeys Hsegs Hflags] node Hin.
  unfold finish in *. cbn [Skeleton.nodes Skeleton.segments] in *.
  assert (Hnd : NoDup (map (@SkeletonNode.id num) (Interp.nodes m))).
  { rewrite Hids. apply seq_NoDup. }
  rewrite markBranchPoints_map in Hin by exact Hnd.
  unfold markTerminals in Hin. rewrite map_map in Hin.
  apply in_map_iff in Hin. destruct Hin as (n & Hnode & Hn).
  rewrite Forall_forall in Hflags. destruct (Hflags n Hn) as [Hterm Hbranch].
  rewrite flagBranch_id in Hnode.
  pose proof (mapGet_entry (SkeletonNode.id n) (Interp.childCounts m) Hkeys) as Hentry.
  rewrite Hcounts in Hentry.
  pose proof (existsb_starts (SkeletonNode.id n) (Interp.segments m)) as Hstarts.
  destruct (existsb (Nat.eqb (SkeletonNode.id n))
                    (map (@SkeletonSegment.startNodeId num) (Interp.segments m)));
    destruct (existsb (fun e => Nat.eqb (fst e) (SkeletonNode.id n)
                                && Nat.ltb 1 (snd e)) (Interp.childCounts m));
    subst node; cbn in *; rewrite ?Hterm, ?Hbranch; intuition congruence.
Qed.

(** C5: [interpretSentence] returns a skeleton for every sentence, and in
    it a node is a branch point exactly when more than one segment starts
    at it, and terminal exactly when no segment starts at it. *)
Theorem interpretSentence_flags (sentence : list (Symbol num))
  (config : TurtleConfig num) :
  exists sk,
    interpretSentence sentence config = Some sk
    /\ forall node, In node (Skeleton.nodes sk) ->
         (SkeletonNode.isBranchPoint node = true
          <-> (1 < countStarts (SkeletonNode.id node) (Skeleton.segments sk))%nat)
         /\ (SkeletonNode.isTerminal node = true
             <-> countStarts (SkeletonNode.id node) (Skeleton.segments sk) = 0%nat).
Proof.
  unfold interpretSentence.
  destruct (runSentence_inv config sentence (initialInterp config)
              (initialInterp_inv config)) as (m & Hrun & Hinv).
  rewrite Hrun. exists (finish m). split; [reflexivity|].
  apply finish_flags. exact Hinv.
Qed.

(** C9: at a closing bracket with an empty stack the turn of the loop
    succeeds and changes nothing: the turtle state, the nodes, the
    segments, the leaves and the rest of the interpreter state are the
    ones before. *)
Theorem pop_on_empty_stack (config : TurtleConfig num) (m : Interp.t num)
  (symbolParams : SymbolParams num) :
  Interp.stateStack m = [] ->
  step config m (mkSymbol "]" symbolParams) = Some m.
Proof.
  intros Hempty. unfold step. cbn [symbol String.eqb Ascii.eqb Bool.eqb].
  rewrite Hempty. reflexivity.
Qed.

(** C10: for the empty sentence the skeleton is the root alone: id 0, no
    parent, depth 0, at the origin, identity orientation, radius
    [baseRadius], terminal and not a branch point; no segment, no leaf. *)
Theorem interpretSentence_empty (config : TurtleConfig num) :
  interpretSentence [] config
  = Some (Skeleton.mk
            [SkeletonNode.mk 0 (mkVec3 (ofZ 0) (ofZ 0) (ofZ 0))
               (mkQuat (ofZ 0) (ofZ 0) (ofZ 0) (ofZ 1))
               (tc_baseRadius config) None 0 true false]
            [] []).
Proof.
  unfold interpretSentence, runSentence. cbn [fold_left].
  unfold finish, initialInterp, markBranchPoints, markTerminals.
  reflexivity.
Qed.

(** The scenarios of the specification, by evaluation. A sentence "F"
    gives two nodes, one segment and no leaf. *)
Example scenario_forward (config : TurtleConfig num) :
  option_map
    (fun sk => (List.length (Skeleton.nodes sk),
                List.length (Skeleton.segments sk),
                List.length (Skeleton.leaves sk)))
    (interpretSentence [mkSymbol "F" noParams] config)
  = Some (2%nat, 1%nat, 0%nat).
Proof. reflexivity. Qed.

(** The sentence "F[+F][-F]L": the node reached by the first F is the
    branch point, the two nodes at the branch tips are terminal, and the
    leaf is recorded without a node. *)
Example scenario_branch (config : TurtleConfig num) :
  option_map
    (fun sk => (map (@SkeletonNode.isBranchPoint num) (Skeleton.nodes sk),
                map (@SkeletonNode.isTerminal num) (Skeleton.nodes sk),
                map (@SkeletonNode.parentId num) (Skeleton.nodes sk),
                List.length (Skeleton.leaves sk)))
    (interpretSentence
       (map (fun c => mkSymbol c noParams)
            ["F"; "["; "+"; "F"; "]"; "["; "-"; "F"; "]"; "L"]%string)
       config)
  = Some ([false; true; false; false], [false; false; true; true],
          [None; Some 0%nat; Some 1%nat; Some 1%nat], 1%nat).
Proof. reflexivity. Qed.

End TurtleFacts.

(** The closing bracket as the first symbol of a sentence, interpreted
    over the reals with the default turtle configuration. *)
Lemma pop_on_empty_stack_witness :
  Interp.stateStack (initialInterp (turtleConfig (defaultTreeConfig (num := R)))) = []
  /\ step (turtleConfig defaultTreeConfig)
          (initialInterp (turtleConfig (defaultTreeConfig (num := R))))
          (mkSymbol "]" noParams)
     = Some (initialInterp (turtleConfig defaultTreeConfig)).
Proof.
  split; [reflexivity|].
  apply (pop_on_empty_stack (turtleConfig defaultTreeConfig)
           (initialInterp (turtleConfig defaultTreeConfig)) noParams).
  reflexivity.
Defined.

(* ----------------------------------------------------------------- *)
(** ** Buffer shapes *)

Section BufferFacts.
Context {num : Type} `{Number num}.

Lemma setAt_length {A : Type} (i : nat) (x : A) (l : list A) :
  List.length (setAt i x l) = List.length l.
Proof.
  revert i. induction l as [|y l IH]; intros [|i]; simpl; auto.
Qed.

(** A loop that grows a measure by [k] at every turn. *)
Lemma fold_left_measure {A B : Type} (f : A -> B -> A) (measure : A -> nat)
  (k : nat) :
  (forall a b, measure (f a b) = (measure a + k)%nat) ->
  forall (l : list B) (a : A),
    measure (fold_left f l a) = (measure a + k * List.length l)%nat.
Proof.
  intros Hstep. induction l as [|b l IH]; intros a; simpl; [lia|].
  rewrite IH, Hstep. lia.
Qed.

(** A ring of [n] segments holds [n] vertices and [n] normals. *)
Lemma generateRing_lengths (center : Vec3 num) (orientation : Quat num)
  (radius : num) (segments : nat) :
  List.length (ring_positions (generateRing center orientation radius segments))
  = (3 * segments)%nat
  /\ List.length (ring_normals (generateRing center orientation radius segments))
     = (3 * segments)%nat.
Proof.
  unfold generateRing. split.
  - rewrite (fold_left_measure _ (fun ring => List.length (ring_positions ring)) 3).
    + rewrite length_seq. reflexivity.
    + intros ring i.
      destruct (ringVertex center orientation radius segments i).
      cbn [ring_positions]. rewrite length_app. reflexivity.
  - rewrite (fold_left_measure _ (fun ring => List.length (ring_normals ring)) 3).
    + rewrite length_seq. reflexivity.
    + intros ring i.
      destruct (ringVertex center orientation radius segments i).
      cbn [ring_normals]. rewrite length_app. reflexivity.
Qed.

Lemma connectRings_length (ring1Offset ring2Offset segments : nat) :
  List.length (connectRings ring1Offset ring2Offset segments) = (6 * segments)%nat.
Proof.
  unfold connectRings.
  rewrite (fold_left_measure _ (@List.length nat) 6).
  - rewrite length_seq. reflexivity.
  - intros indices i. rewrite !length_app. simpl. lia.
Qed.

Lemma ringUvs_length (ringIndex radialSegs : nat)
  (segmentLength textureScale vOffset : num) :
  List.length (ringUvs ringIndex radialSegs segmentLength textureScale vOffset)
  = (2 * radialSegs)%nat.
Proof.
  unfold ringUvs.
  rewrite (fold_left_measure _ (@List.length num) 2).
  - rewrite length_seq. reflexivity.
  - intros uvs i. rewrite length_app. simpl. lia.
Qed.



Lemma forEachSegment_total (skeleton : Skeleton.t num)
  (cfg : BranchGeometryConfig num) (segmentInfos : list num)
  (segs : list (SkeletonSegment.t num)) :
  Forall (fun s =>
            findNode (SkeletonSegment.startNodeId s) (Skeleton.nodes skeleton) <> None
            /\ findNode (SkeletonSegment.endNodeId s) (Skeleton.nodes skeleton) <> None)
         segs ->
  forall (segmentIndex : nat) (acc : @BranchAcc num),
    exists acc', forEachSegment skeleton cfg segmentInfos segs segmentIndex acc
                 = Some acc'.
Proof.
  induction 1 as [|segment rest [Hs He] Hrest IH]; intros segmentIndex acc; simpl.
  - exists acc. reflexivity.
  - unfold branchSegment.
    destruct (findNode (SkeletonSegment.startNodeId segment) _); [|contradiction].
    destruct (findNode (SkeletonSegment.endNodeId segment) _); [|contradiction].
    apply IH.
Qed.









End BufferFacts.


(** Outside the data model, for a skeleton with a segment between nodes
    it does not hold, [find] returns [undefined] and reading its position
    raises: no buffers are returned. *)
Lemma buildBranchGeometry_dangling_segment :
  buildBranchGeometry
    (Skeleton.mk [] [SkeletonSegment.mk 0 1 1%R 1%R 1%R] [])
    (mkBranchGeometryConfig 8 2%R)
  = None.
Proof. reflexivity. Qed.

(* ----------------------------------------------------------------- *)
(** ** Rings *)

Section FlatBuffers.
Context {num : Type} `{Number num}.




End FlatBuffers.

Section RingFacts.
Local Open Scope R_scope.

(** The squared length of a rotated vector, for any quaternion. *)
Lemma rotate_sqnorm (v : Vec3 R) (q : Quat R) :
  let v' := rotateVec3ByQuat v q in
  vx v' * vx v' + vy v' * vy v' + vz v' * vz v'
  = vx v * vx v + vy v * vy v + vz v * vz v
    + 4 * (qx q * qx q + qy q * qy q + qz q * qz q + qw q * qw q - 1)
      * (let c := crossVec3 (mkVec3 (qx q) (qy q) (qz q)) v in
         vx c * vx c + vy c * vy c + vz c * vz c).
Proof.
  destruct v as [x y z], q as [a b c w]. cbn. ring.
Qed.

(** A unit quaternion keeps lengths. *)
Lemma rotate_length (v : Vec3 R) (q : Quat R) :
  qx q * qx q + qy q * qy q + qz q * qz q + qw q * qw q = 1 ->
  lengthVec3 (rotateVec3ByQuat v q) = lengthVec3 v.
Proof.
  intros Hunit. unfold lengthVec3. cbn [nsqrt nadd nmul Number_R].
  pose proof (rotate_sqnorm v q) as Hsq. cbv zeta in Hsq.
  rewrite Hsq, Hunit. f_equal. ring.
Qed.


Lemma translate_distance (center p : Vec3 R) :
  distanceVec3 center (addVec3 center p) = lengthVec3 p.
Proof.
  unfold distanceVec3, lengthVec3, subVec3, addVec3. cbn.
  f_equal. ring.
Qed.




End RingFacts.

Local Open Scope R_scope.



(* ----------------------------------------------------------------- *)
(** ** Leaf instances *)

Section LeafFacts.
Context {num : Type} `{Number num}.

Lemma nth_setAt {A : Type} (i j : nat) (x d : A) (l : list A) :
  nth j (setAt i x l) d
  = if Nat.eqb i j then (if Nat.ltb j (List.length l) then x else d)
    else nth j l d.
Proof.
  revert i j. induction l as [|y l IH]; intros i j.
  - destruct i, j; simpl; try reflexivity. destruct (Nat.eqb i j); reflexivity.
  - destruct i as [|i], j as [|j]; simpl; try reflexivity.
    rewrite IH. destruct (Nat.eqb i j); [|reflexivity].
    destruct (Nat.ltb j (List.length l)) eqn:E.
    + apply Nat.ltb_lt in E. assert (Nat.ltb (S j) (S (List.length l)) = true) as ->
        by (apply Nat.ltb_lt; lia). reflexivity.
    + apply Nat.ltb_ge in E. assert (Nat.ltb (S j) (S (List.length l)) = false) as ->
        by (apply Nat.ltb_ge; lia). reflexivity.
Qed.

Lemma random_advance (g : Random.Sfc32) :
  snd (Random.random (num := num) g) = advance 1 g.
Proof.
  unfold Random.random, Random.nextRandom. cbn [advance].
  destruct (Random.sfc32 g). reflexivity.
Qed.

Lemma advance_add (a b : nat) (g : Random.Sfc32) :
  advance (a + b) g = advance b (advance a g).
Proof. revert g. induction a as [|a IH]; intros g; simpl; [reflexivity|apply IH]. Qed.

Lemma writeAt_length {A : Type} (base : nat) (vals : list A) :
  forall k l, List.length (writeAt base k vals l) = List.length l.
Proof.
  induction vals as [|x rest IH]; intros k l; simpl; [reflexivity|].
  rewrite IH. apply setAt_length.
Qed.

Lemma nth_writeAt_inside {A : Type} (base : nat) (d : A) (vals : list A) :
  forall k l j,
    (j < List.length vals)%nat -> (base + k + j < List.length l)%nat ->
    nth (base + (k + j)) (writeAt base k vals l) d = nth j vals d.
Proof.
  induction vals as [|x rest IH]; intros k l j Hj Hl; simpl in *; [lia|].
  destruct j as [|j].
  - clear IH. rewrite Nat.add_0_r.
    assert (Hgen : forall vs k' l', (k < k')%nat ->
               nth (base + k) (writeAt base k' vs l') d = nth (base + k) l' d).
    { induction vs as [|y vs IHvs]; intros k' l' Hk; simpl; [reflexivity|].
      rewrite IHvs by lia. rewrite nth_setAt.
      destruct (Nat.eqb (base + k') (base + k)) eqn:E; [|reflexivity].
      apply Nat.eqb_eq in E. lia. }
    rewrite Hgen by lia. rewrite nth_setAt, Nat.eqb_refl.
    assert (Nat.ltb (base + k) (List.length l) = true) as ->
      by (apply Nat.ltb_lt; lia).
    reflexivity.
  - replace (base + (k + S j))%nat with (base + (S k + j))%nat by lia.
    apply IH; [lia|rewrite setAt_length; lia].
Qed.

Lemma nth_writeAt_outside {A : Type} (base : nat) (d : A) (vals : list A) :
  forall k l j,
    ~ (base + k <= j < base + k + List.length vals)%nat ->
    nth j (writeAt base k vals l) d = nth j l d.
Proof.
  induction vals as [|x rest IH]; intros k l j Hj; simpl in *; [reflexivity|].
  rewrite IH by lia. rewrite nth_setAt.
  destruct (Nat.eqb (base + k) j) eqn:E; [|reflexivity].
  apply Nat.eqb_eq in E. lia.
Qed.

(** The body of the loop as two block writes: the matrix and the colour
    of instance [i], computed from the seven draws, and the generator
    seven draws later. *)
Lemma leafInstance_writes (cfg : LeafInstanceConfig num) (i : nat)
  (leaf : LeafPoint.t num) (g : Random.Sfc32) :
  exists (mvals cvals : list num),
    List.length mvals = 16%nat /\ List.length cvals = 3%nat
    /\ forall ms cs,
         leafInstance cfg (mkLeafAcc ms cs g) (i, leaf)
         = mkLeafAcc (writeAt (i * 16) 0 mvals ms) (writeAt (i * 3) 0 cvals cs)
             (advance 7 g).
Proof.
  unfold leafInstance.
  pose proof (random_advance g) as H1.
  destruct (Random.random g) as [r1 g1]. cbn [snd] in H1.
  pose proof (random_advance g1) as H2.
  destruct (Random.random g1) as [r2 g2]. cbn [snd] in H2.
  pose proof (random_advance g2) as H3.
  destruct (Random.random g2) as [r3 g3]. cbn [snd] in H3.
  pose proof (random_advance g3) as H4.
  destruct (Random.random g3) as [r4 g4]. cbn [snd] in H4.
  pose proof (random_advance g4) as H5.
  destruct (Random.random g4) as [r5 g5]. cbn [snd] in H5.
  pose proof (random_advance g5) as H6.
  destruct (Random.random g5) as [r6 g6]. cbn [snd] in H6.
  pose proof (random_advance g6) as H7.
  destruct (Random.random g6) as [r7 g7]. cbn [snd] in H7.
  assert (Hg : g7 = advance 7 g) by (subst; reflexivity).
  rewrite Hg. clear.
  eexists [_; _; _; _; _; _; _; _; _; _; _; _; _; _; _; _], [_; _; _].
  split; [reflexivity|]. split; [reflexivity|].
  intros ms cs. reflexivity.
Qed.

(** The loop of [buildLeafInstances] over the leaves from index [a] on,
    for arrays allocated for [n] leaves: the entries of the instances
    before [a] are kept, and instance [a + i] is the one the body of the
    loop computes at draw [7 * (a + i)] of the stream. *)
Lemma fold_leafInstance (cfg : LeafInstanceConfig num) (n : nat)
  (g0 : Random.Sfc32) (d : num) (leaves : list (LeafPoint.t num)) :
  forall (a : nat) (acc : @LeafAcc num),
    la_rng acc = advance (7 * a) g0 ->
    List.length (la_matrices acc) = (n * 16)%nat ->
    List.length (la_colors acc) = (n * 3)%nat ->
    (a + List.length leaves <= n)%nat ->
    let acc' :=
      fold_left (leafInstance cfg)
        (combine (seq a (List.length leaves)) leaves) acc in
    List.length (la_matrices acc') = (n * 16)%nat
    /\ List.length (la_colors acc') = (n * 3)%nat
    /\ (forall j, (j < a * 16)%nat ->
          nth j (la_matrices acc') d = nth j (la_matrices acc) d)
    /\ (forall j, (j < a * 3)%nat ->
          nth j (la_colors acc') d = nth j (la_colors acc) d)
    /\ forall i leaf, nth_error leaves i = Some leaf ->
         let ref := leafInstanceAt cfg n (a + i) leaf (advance (7 * (a + i)) g0) in
         (forall k, (k < 16)%nat ->
            nth ((a + i) * 16 + k) (la_matrices acc') d
            = nth ((a + i) * 16 + k) (la_matrices ref) d)
         /\ (forall k, (k < 3)%nat ->
               nth ((a + i) * 3 + k) (la_colors acc') d
               = nth ((a + i) * 3 + k) (la_colors ref) d).
Proof.
  induction leaves as [|leaf rest IH]; intros a acc Hrng Hms Hcs Hn.
  - cbn [List.length seq combine fold_left]. cbv zeta.
    refine (conj Hms (conj Hcs (conj (fun _ _ => eq_refl)
                                     (conj (fun _ _ => eq_refl) _)))).
    intros [|i'] leaf' Hnth; discriminate.
  - cbn [List.length seq combine fold_left]. cbn [List.length] in Hn.
    destruct acc as [ms cs g]. cbn [la_rng la_matrices la_colors] in *.
    destruct (leafInstance_writes cfg a leaf g) as (mvals & cvals & Hm & Hc & Hw).
    rewrite (Hw ms cs).
    assert (Hrng1 : advance 7 g = advance (7 * S a) g0).
    { rewrite Hrng, <- advance_add. f_equal. lia. }
    specialize (IH (S a) (mkLeafAcc (writeAt (a * 16) 0 mvals ms)
                                     (writeAt (a * 3) 0 cvals cs) (advance 7 g))).
    cbn [la_rng la_matrices la_colors] in IH.
    rewrite !writeAt_length in IH.
    specialize (IH Hrng1 Hms Hcs ltac:(lia)).
    cbv zeta in IH. destruct IH as (Hlm & Hlc & Hkm & Hkc & Hent).
    cbv zeta. split; [exact Hlm|]. split; [exact Hlc|].
    split; [|split].
    + intros j Hj. rewrite Hkm by lia.
      apply nth_writeAt_outside. lia.
    + intros j Hj. rewrite Hkc by lia.
      apply nth_writeAt_outside. lia.
    + intros [|i'] leaf' Hnth.
      * cbn in Hnth. injection Hnth as <-. rewrite Nat.add_0_r.
        unfold leafInstanceAt. rewrite <- Hrng.
        pose proof (Hw (newArray (ofZ 0) (n * 16)) (newArray (ofZ 0) (n * 3)))
          as Href.
        set (ref := leafInstance cfg _ (a, leaf)) in *.
        clearbody ref. subst ref.
        cbn [la_matrices la_colors]. split; intros k Hk.
        -- rewrite Hkm by lia.
           pose proof (nth_writeAt_inside (a * 16) d mvals 0 ms k) as E1.
           pose proof (nth_writeAt_inside (a * 16) d mvals 0
                         (newArray (ofZ 0) (n * 16)) k) as E2.
           unfold newArray in *. rewrite repeat_length in E2.
           cbn [Nat.add] in E1, E2.
           rewrite E1, E2 by lia. reflexivity.
        -- rewrite Hkc by lia.
           pose proof (nth_writeAt_inside (a * 3) d cvals 0 cs k) as E1.
           pose proof (nth_writeAt_inside (a * 3) d cvals 0
                         (newArray (ofZ 0) (n * 3)) k) as E2.
           unfold newArray in *. rewrite repeat_length in E2.
           cbn [Nat.add] in E1, E2.
           rewrite E1, E2 by lia. reflexivity.
      * cbn in Hnth.
        replace (a + S i')%nat with (S a + i')%nat by lia.
        apply (Hent i' leaf' Hnth).
Qed.

(** The colour the body of the loop writes for instance [i]: each
    channel of the base colour moved by its own draw, the fifth, sixth
    and seventh of the instance, and clamped to [0, 1]. *)
Lemma leafInstanceAt_colors (cfg : LeafInstanceConfig num) (n i : nat)
  (leaf : LeafPoint.t num) (g : Random.Sfc32) :
  (i < n)%nat ->
  let channel (base : num) (k : nat) : num :=
    nmax (ofZ 0)
      (nmin (ofZ 1)
         (base + (fst (Random.random (advance k g)) * ofZ 2 - ofZ 1)
                 * colorVariation cfg))%num in
  let cs := la_colors (leafInstanceAt cfg n i leaf g) in
  nth (i * 3 + 0) cs (ofZ 0) = channel (cr (baseColor cfg)) 4%nat
  /\ nth (i * 3 + 1) cs (ofZ 0) = channel (cg (baseColor cfg)) 5%nat
  /\ nth (i * 3 + 2) cs (ofZ 0) = channel (cb (baseColor cfg)) 6%nat.
Proof.
  intros Hi channel cs. unfold cs, channel, leafInstanceAt, leafInstance.
  pose proof (random_advance g) as A1.
  destruct (Random.random g) as [r1 g1]. cbn [snd] in A1.
  pose proof (random_advance g1) as A2.
  destruct (Random.random g1) as [r2 g2]. cbn [snd] in A2.
  pose proof (random_advance g2) as A3.
  destruct (Random.random g2) as [r3 g3]. cbn [snd] in A3.
  pose proof (random_advance g3) as A4.
  destruct (Random.random g3) as [r4 g4]. cbn [snd] in A4.
  replace (advance 4 g) with g4 by (subst; reflexivity).
  replace (advance 5 g) with (advance 1 g4) by (subst; reflexivity).
  replace (advance 6 g) with (advance 1 (advance 1 g4)) by (subst; reflexivity).
  clear A1 A2 A3 A4.
  pose proof (random_advance g4) as A5.
  destruct (Random.random g4) as [r5 g5]. cbn [snd] in A5. rewrite <- A5.
  pose proof (random_advance g5) as A6.
  destruct (Random.random g5) as [r6 g6]. cbn [snd] in A6. rewrite <- A6.
  destruct (Random.random g6) as [r7 g7].
  cbn [la_colors fst].
  assert (Hlen : List.length (newArray (ofZ 0) (n * 3)) = (n * 3)%nat)
    by apply repeat_length.
  rewrite !nth_setAt, !setAt_length, Hlen.
  assert (L0 : Nat.ltb (i * 3 + 0) (n * 3) = true) by (apply Nat.ltb_lt; lia).
  assert (L1 : Nat.ltb (i * 3 + 1) (n * 3) = true) by (apply Nat.ltb_lt; lia).
  assert (L2 : Nat.ltb (i * 3 + 2) (n * 3) = true) by (apply Nat.ltb_lt; lia).
  assert (E20 : Nat.eqb (i * 3 + 2) (i * 3 + 0) = false) by (apply Nat.eqb_neq; lia).
  assert (E10 : Nat.eqb (i * 3 + 1) (i * 3 + 0) = false) by (apply Nat.eqb_neq; lia).
  assert (E21 : Nat.eqb (i * 3 + 2) (i * 3 + 1) = false) by (apply Nat.eqb_neq; lia).
  rewrite L0, L1, L2, E20, E10, E21, !Nat.eqb_refl.
  repeat split; reflexivity.
Qed.



End LeafFacts.



(* ================================================================= *)
(** * Further properties *)

Local Close Scope R_scope.

(* ----------------------------------------------------------------- *)
(** ** The random source, continued *)

Module RandomMore.
Import Random.
Import RandomFacts.
Local Open Scope R_scope.

Lemma lxor_word (x y : Z) :
  (0 <= x < 4294967296)%Z -> (0 <= y < 4294967296)%Z ->
  (0 <= Z.lxor x y < 4294967296)%Z.
Proof.
  intros Hx Hy.
  assert (Hnn : (0 <= Z.lxor x y)%Z) by (apply Z.lxor_nonneg; split; lia).
  split; [exact Hnn|].
  destruct (Z.eq_dec (Z.lxor x y) 0) as [->|Hne]; [lia|].
  change 4294967296%Z with (2 ^ 32)%Z.
  apply Z.log2_lt_pow2; [lia|].
  eapply Z.le_lt_trans; [apply Z.log2_lxor; lia|].
  apply Z.max_lub_lt.
  - destruct (Z.eq_dec x 0) as [->|Hx0]; [simpl; lia|].
    apply Z.log2_lt_pow2; lia.
  - destruct (Z.eq_dec y 0) as [->|Hy0]; [simpl; lia|].
    apply Z.log2_lt_pow2; lia.
Qed.

Lemma shr_word (x k : Z) :
  (0 <= x < 4294967296)%Z -> (0 <= k)%Z -> (0 <= shr x k < 4294967296)%Z.
Proof.
  intros Hx Hk. unfold shr. rewrite Z.shiftr_div_pow2 by exact Hk.
  assert (Hp : (0 < 2 ^ k)%Z) by (apply Z.pow_pos_nonneg; lia).
  split.
  - apply Z.div_pos; lia.
  - apply Z.le_lt_trans with x; [|lia].
    apply Z.div_le_upper_bound; [exact Hp|]. nia.
Qed.

Lemma xmur3_next_word (h : Z) :
  (0 <= fst (xmur3_next h) < 4294967296)%Z /\ snd (xmur3_next h) = fst (xmur3_next h).
Proof.
  unfold xmur3_next. cbn [fst snd]. split; [|reflexivity].
  apply lxor_word.
  - unfold imul. apply u32_range.
  - apply shr_word; [unfold imul; apply u32_range|lia].
Qed.

Lemma createRandom_wordState (seed : string) : wordState (createRandom seed).
Proof.
  unfold createRandom.
  pose proof (xmur3_next_word (xmur3 seed)) as H1.
  destruct (xmur3_next (xmur3 seed)) as [a h1]. cbn [fst snd] in H1.
  pose proof (xmur3_next_word h1) as H2.
  destruct (xmur3_next h1) as [b h2]. cbn [fst snd] in H2.
  pose proof (xmur3_next_word h2) as H3.
  destruct (xmur3_next h2) as [c h3]. cbn [fst snd] in H3.
  pose proof (xmur3_next_word h3) as H4.
  destruct (xmur3_next h3) as [d h4]. cbn [fst snd] in H4.
  unfold wordState. cbn [ra rb rc rd]. tauto.
Qed.

Lemma sfc32_wordState (g : Sfc32) : wordState (snd (sfc32 g)).
Proof.
  unfold sfc32, wordState. cbn [snd ra rb rc rd].
  repeat split; try apply u32_range.
  - apply lxor_word; [apply u32_range|apply shr_word; [apply u32_range|lia]].
  - apply lxor_word; [apply u32_range|apply shr_word; [apply u32_range|lia]].
Qed.

Lemma sfc32_counter (g : Sfc32) :
  rd (snd (sfc32 g)) = ((rd g + 1) mod 4294967296)%Z.
Proof.
  unfold sfc32. cbn [snd rd]. unfold u32.
  rewrite Zplus_mod_idemp_l. reflexivity.
Qed.

Lemma advance_wordState (k : nat) :
  forall g, wordState g -> wordState (advance k g).
Proof.
  induction k as [|k IH]; intros g Hg; [exact Hg|].
  simpl. apply IH, sfc32_wordState.
Qed.

(** X1: the generator state stays a state of four 32-bit words:
    [createRandom] seeds such a state from any string and every draw
    keeps it one; the word drawn is a 32-bit unsigned integer; each draw
    adds one to the counter register modulo 2^32, so no draw leaves the
    state unchanged. *)
Theorem sfc32_state_invariant (seed : string) (k : nat) :
  let g := advance k (createRandom seed) in
  wordState g
  /\ (0 <= fst (sfc32 g) < 4294967296)%Z
  /\ rd (snd (sfc32 g)) = ((rd g + 1) mod 4294967296)%Z
  /\ snd (sfc32 g) <> g.
Proof.
  intros g.
  assert (Hw : wordState g).
  { apply advance_wordState, createRandom_wordState. }
  split; [exact Hw|]. split; [apply sfc32_word_range|].
  split; [apply sfc32_counter|].
  intros Heq. pose proof (sfc32_counter g) as Hc. rewrite Heq in Hc.
  destruct Hw as (_ & _ & _ & Hd).
  destruct (Z.eq_dec (rd g) 4294967295) as [E|E].
  - rewrite E in Hc. vm_compute in Hc. discriminate.
  - rewrite Z.mod_small in Hc by lia. lia.
Qed.



(** X3: [randomChance] never returns true for a probability of 0 or
    less, and always returns true for a probability of 1 or more. *)
Theorem randomChance_extremes (p : R) (g : Sfc32) :
  (p <= 0 -> fst (randomChance p g) = false)
  /\ (1 <= p -> fst (randomChance p g) = true).
Proof.
  pose proof (random_unit_interval g) as Hr.
  unfold randomChance, random in *.
  destruct (nextRandom g) as [r g']. cbn [fst snd] in *. cbn.
  destruct (Rlt_dec r p) as [Hlt|Hge].
  - split; [intros; lra|reflexivity].
  - split; [reflexivity|intros; lra].
Qed.

Lemma find_seq_unique (f : nat -> bool) (i : nat) :
  (forall j, f j = true <-> j = i) ->
  forall n a, (a <= i < a + n)%nat -> find f (seq a n) = Some i.
Proof.
  intros Hf. induction n as [|n IH]; intros a Ha; [lia|].
  simpl. destruct (f a) eqn:Hfa.
  - apply Hf in Hfa. congruence.
  - apply IH. assert (a <> i) by (intros ->; rewrite (proj2 (Hf i) eq_refl) in Hfa; discriminate).
    lia.
Qed.

Lemma arrayAt_position {T : Type} (array : list T) (i : nat) :
  (i < List.length array)%nat ->
  arrayAt (num := R) array (IZR (Z.of_nat i)) = nth_error array i.
Proof.
  intros Hi. unfold arrayAt.
  rewrite (find_seq_unique _ i); [reflexivity| |lia].
  intros j. unfold ofNat. cbn.
  destruct (Req_dec_T (IZR (Z.of_nat j)) (IZR (Z.of_nat i))) as [E|E].
  - apply eq_IZR in E. split; [lia|reflexivity].
  - split; [discriminate|intros ->; contradiction].
Qed.

(** X4: [randomChoice] takes exactly one draw [r]; on an empty array it
    returns [undefined]; on a non-empty array of length [n] it returns
    the element at index [floor(r * n)], which is a position of the
    array, so the result is always one of its elements. *)
Theorem randomChoice_member {T : Type} (array : list T) (g : Sfc32) :
  snd (randomChoice (num := R) array g) = snd (sfc32 g)
  /\ (array = [] -> fst (randomChoice (num := R) array g) = None)
  /\ (array <> [] ->
      exists (i : nat) (x : T),
        (i < List.length array)%nat
        /\ IZR (Z.of_nat i)
           = nfloor (fst (random (num := R) g) * IZR (Z.of_nat (List.length array)))
        /\ nth_error array i = Some x
        /\ fst (randomChoice array g) = Some x).
Proof.
  split; [|split].
  - unfold randomChoice, nextRandom. destruct (sfc32 g) as [t g']. reflexivity.
  - intros ->. unfold randomChoice, nextRandom.
    destruct (sfc32 g) as [t g']. reflexivity.
  - intros Hne.
    pose proof (random_unit_interval g) as Hr.
    unfold randomChoice, random in *. unfold nextRandom in *.
    destruct (sfc32 g) as [t g']. cbn [fst snd] in *.
    set (r := (ofZ t / ofZ 4294967296)%num) in *. clearbody r.
    set (n := List.length array).
    assert (Hn : (0 < n)%nat)
      by (destruct array; [contradiction|subst n; simpl; lia]).
    assert (HnR : 1 <= IZR (Z.of_nat n)) by (apply IZR_le; lia).
    assert (Hb : (0 <= Int_part (r * IZR (Z.of_nat n)) <= Z.of_nat n - 1)%Z).
    { apply Int_part_bounds. rewrite minus_IZR. split; nra. }
    set (k := Int_part (r * IZR (Z.of_nat n))) in *.
    assert (Hi : (Z.to_nat k < n)%nat) by lia.
    destruct (nth_error array (Z.to_nat k)) as [x|] eqn:Hx;
      [|apply nth_error_None in Hx; fold n in Hx; lia].
    exists (Z.to_nat k), x.
    assert (Hk : IZR (Z.of_nat (Z.to_nat k)) = IZR k) by (f_equal; lia).
    split; [exact Hi|]. split; [rewrite Hk; reflexivity|]. split; [exact Hx|].
    unfold ofNat. cbn. fold n. fold k. rewrite <- Hk.
    rewrite arrayAt_position by exact Hi. exact Hx.
Qed.

(** The theorem at an array of three names. *)
Lemma randomChoice_member_witness :
  ["oak"; "pine"; "birch"]%string <> []
  /\ exists (i : nat) (x : string),
       (i < 3)%nat
       /\ IZR (Z.of_nat i)
          = nfloor (fst (random (num := R) (createRandom "choice")) * IZR 3)
       /\ nth_error ["oak"; "pine"; "birch"]%string i = Some x
       /\ fst (randomChoice (num := R) ["oak"; "pine"; "birch"]%string
                 (createRandom "choice")) = Some x.
Proof.
  assert (Hne : ["oak"; "pine"; "birch"]%string <> []) by discriminate.
  split; [exact Hne|].
  exact (proj2 (proj2 (randomChoice_member ["oak"; "pine"; "birch"]%string
                         (createRandom "choice"))) Hne).
Defined.

End RandomMore.

(* ----------------------------------------------------------------- *)
(** ** The engine, continued *)

Section EngineMore.
Context {num : Type} `{Number num}.
Variable G : Type.
Variable random : G -> num * G.
Local Open Scope num_scope.

Lemma drawn_succ (k : nat) (g : G) :
  drawn random (S k) g = drawn random k (snd (random g)).
Proof.
  unfold drawn. induction k as [|k IH]; [reflexivity|].
  rewrite Nat.iter_succ, IH. reflexivity.
Qed.

Lemma createSymbol_draws (c : ascii) (cfg : LSystemConfig num) (d : Z) (g : G) :
  snd (createSymbol random (String c EmptyString) cfg d g)
  = if (variability cfg =? ofZ 0) then g
    else if variedChar c then snd (random g) else g.
Proof.
  unfold createSymbol, variedChar, getVariabilityFactor.
  destruct (String.eqb (String c EmptyString) "F").
  - cbn [orb]. destruct (variability cfg =? ofZ 0); [reflexivity|].
    destruct (random g); reflexivity.
  - cbn [orb].
    destruct (existsb (String.eqb (String c EmptyString)) rotationSymbols).
    + destruct (variability cfg =? ofZ 0); [reflexivity|].
      destruct (random g); reflexivity.
    + destruct (String.eqb (String c EmptyString) "L");
        destruct (variability cfg =? ofZ 0); reflexivity.
Qed.

Lemma parseProduction_fold_draws (cfg : LSystemConfig num) (d : Z) (cs : list ascii) :
  forall (acc : list (Symbol num)) (g : G),
    let out :=
      fold_left
        (fun '(symbols, g) c =>
           let '(sym, g') := createSymbol random (String c EmptyString) cfg d g in
           (symbols ++ [sym], g'))
        cs (acc, g) in
    List.length (fst out) = (List.length acc + List.length cs)%nat
    /\ snd out
       = if (variability cfg =? ofZ 0) then g
         else drawn random (List.length (filter variedChar cs)) g.
Proof.
  induction cs as [|c cs IH]; intros acc g; cbn zeta.
  - simpl. split; [lia|]. destruct (variability cfg =? ofZ 0); reflexivity.
  - cbn [fold_left].
    pose proof (createSymbol_draws c cfg d g) as Hd.
    destruct (createSymbol random (String c EmptyString) cfg d g) as [sym g'].
    cbn [snd] in Hd.
    destruct (IH (acc ++ [sym]) g') as [Hlen Hg].
    split.
    + rewrite Hlen, length_app. simpl. lia.
    + rewrite Hg, Hd. cbn [filter].
      destruct (variability cfg =? ofZ 0); [reflexivity|].
      destruct (variedChar c); [|reflexivity].
      cbn [List.length]. rewrite drawn_succ. reflexivity.
Qed.

(** X5: [parseProduction] yields one symbol per character of the
    production, in order, each carrying its character; with variability
    0 it leaves the generator untouched, otherwise it draws exactly once
    for every F and every rotation character and for no other. *)
Theorem parseProduction_draws (production : string) (cfg : LSystemConfig num)
  (d : Z) (g : G) :
  let out := parseProduction random production cfg d g in
  List.length (fst out) = String.length production
  /\ map (@symbol num) (fst out)
     = map (fun c => String c EmptyString) (list_ascii_of_string production)
  /\ snd out
     = if (variability cfg =? ofZ 0) then g
       else drawn random
              (List.length (filter variedChar (list_ascii_of_string production))) g.
Proof.
  cbn zeta.
  destruct (parseProduction_fold_draws cfg d (list_ascii_of_string production) [] g)
    as [Hlen Hg].
  split; [|split].
  - unfold parseProduction. rewrite Hlen. simpl.
    clear. induction production as [|c s IH]; simpl; congruence.
  - apply parseProduction_symbols.
  - exact Hg.
Qed.

Lemma filter_filter_implied {A : Type} (p q : A -> bool) (l : list A) :
  (forall x, p x = true -> q x = true) ->
  filter p (filter q l) = filter p l.
Proof.
  intros Hpq. induction l as [|x l IH]; [reflexivity|].
  simpl. destruct (q x) eqn:Hq.
  - simpl. rewrite IH. reflexivity.
  - rewrite IH. destruct (p x) eqn:Hp; [|reflexivity].
    apply Hpq in Hp. congruence.
Qed.

Lemma fold_left_ext_step {A B : Type} (f f' : A -> B -> A) (l : list B) :
  (forall a b, f a b = f' a b) -> forall a, fold_left f l a = fold_left f' l a.
Proof.
  intros Hf. induction l as [|b l IH]; intros a; [reflexivity|].
  simpl. rewrite Hf. apply IH.
Qed.

(** X6: [applyRules] never rewrites a bracket: rules whose [match] is
    an opening or a closing bracket are never consulted, so removing
    them changes neither the sentence produced nor the generator. *)
Theorem applyRules_brackets_fixed (sentence : list (Symbol num))
  (rs : list (Rule num G)) (cfg : LSystemConfig num) (g : G) :
  applyRules random sentence
    (filter (fun rule => negb (rewritesBracket rule)) rs) cfg g
  = applyRules random sentence rs cfg g.
Proof.
  unfold applyRules.
  rewrite (fold_left_ext_step
             (applyRulesStep random
                (filter (fun rule => negb (rewritesBracket rule)) rs) cfg)
             (applyRulesStep random rs cfg)); [reflexivity|].
  intros [result depth g0] sym. unfold applyRulesStep.
  destruct (String.eqb (symbol sym) "[") eqn:Hopen; [reflexivity|].
  destruct (String.eqb (symbol sym) "]") eqn:Hclose; [reflexivity|].
  rewrite filter_filter_implied; [reflexivity|].
  intros rule Hm. apply String.eqb_eq in Hm.
  unfold rewritesBracket. rewrite Hm, Hopen, Hclose. reflexivity.
Qed.

Lemma applyRulesStep_unmatched (rs : list (Rule num G)) (cfg : LSystemConfig num)
  (st : ApplyState G) (sym : Symbol num) :
  (forall rule, In rule rs -> rule_match rule = symbol sym ->
                symbol sym = "["%string \/ symbol sym = "]"%string) ->
  as_result (applyRulesStep random rs cfg st sym) = as_result st ++ [sym]
  /\ as_rng (applyRulesStep random rs cfg st sym) = as_rng st.
Proof.
  intros Hno. destruct st as [result depth g0]. unfold applyRulesStep.
  destruct (String.eqb (symbol sym) "[") eqn:Hopen; [split; reflexivity|].
  destruct (String.eqb (symbol sym) "]") eqn:Hclose; [split; reflexivity|].
  assert (Hnil : filter (fun rule => String.eqb (rule_match rule) (symbol sym)) rs = []).
  { destruct (filter _ rs) as [|rule rest] eqn:Hf; [reflexivity|].
    assert (Hin : In rule (filter (fun rule => String.eqb (rule_match rule) (symbol sym)) rs))
      by (rewrite Hf; left; reflexivity).
    apply filter_In in Hin. destruct Hin as [Hin Hm]. apply String.eqb_eq in Hm.
    destruct (Hno rule Hin Hm) as [E|E]; rewrite E in *; discriminate. }
  rewrite Hnil. split; reflexivity.
Qed.

Lemma applyRules_unmatched_fold (rs : list (Rule num G)) (cfg : LSystemConfig num)
  (sentence : list (Symbol num)) :
  (forall sym rule, In sym sentence -> In rule rs -> rule_match rule = symbol sym ->
                    symbol sym = "["%string \/ symbol sym = "]"%string) ->
  forall st,
    as_result (fold_left (applyRulesStep random rs cfg) sentence st)
    = as_result st ++ sentence
    /\ as_rng (fold_left (applyRulesStep random rs cfg) sentence st) = as_rng st.
Proof.
  induction sentence as [|sym rest IH]; intros Hno st.
  - simpl. rewrite app_nil_r. split; reflexivity.
  - simpl fold_left.
    destruct (applyRulesStep_unmatched rs cfg st sym) as [Hr Hg].
    { intros rule Hin Hm. apply (Hno sym rule); [left; reflexivity|exact Hin|exact Hm]. }
    destruct (IH (fun s r Hs => Hno s r (or_intror Hs))
                 (applyRulesStep random rs cfg st sym)) as [Hr' Hg'].
    rewrite Hr', Hg', Hr, Hg, <- app_assoc. split; reflexivity.
Qed.

(** X7: when no rule matches any symbol of the sentence other than a
    bracket (in particular when there are no rules), [applyRules]
    returns the sentence unchanged and takes no draw. *)
Theorem applyRules_unmatched (sentence : list (Symbol num))
  (rs : list (Rule num G)) (cfg : LSystemConfig num) (g : G) :
  (forall sym rule, In sym sentence -> In rule rs -> rule_match rule = symbol sym ->
                    symbol sym = "["%string \/ symbol sym = "]"%string) ->
  applyRules random sentence rs cfg g = (sentence, g).
Proof.
  intros Hno. unfold applyRules.
  destruct (applyRules_unmatched_fold rs cfg sentence Hno (mkApplyState [] 0 g))
    as [Hr Hg].
  rewrite Hr, Hg. reflexivity.
Qed.
End EngineMore.

(** The theorem at a sentence of leaves and brackets under the rule
    F -> FF. *)
Lemma applyRules_unmatched_witness :
  let sentence : list (Symbol R) :=
    [mkSymbol "[" noParams; mkSymbol "L" noParams; mkSymbol "]" noParams] in
  let rs : list (Rule R Random.Sfc32) := doublingRules in
  (forall sym rule, In sym sentence -> In rule rs -> rule_match rule = symbol sym ->
                    symbol sym = "["%string \/ symbol sym = "]"%string)
  /\ forall cfg g, applyRules Random.random sentence rs cfg g = (sentence, g).
Proof.
  intros sentence rs.
  assert (Hno : forall sym rule, In sym sentence -> In rule rs ->
                  rule_match rule = symbol sym ->
                  symbol sym = "["%string \/ symbol sym = "]"%string).
  { intros sym rule Hs Hr Hm.
    destruct Hr as [<-|[]]. cbn in Hm.
    destruct Hs as [<-|[<-|[<-|[]]]]; cbn in *; try discriminate; auto. }
  split; [exact Hno|].
  intros cfg g.
  exact (applyRules_unmatched Random.Sfc32 Random.random sentence rs cfg g Hno).
Defined.

Section SelectWeighted.
Variable G : Type.
Variable random : G -> R * G.
Local Open Scope R_scope.

Lemma cumulativeOdds_succ (rs : list (Rule R G)) (i : nat) (rule : Rule R G) :
  nth_error rs i = Some rule ->
  cumulativeOdds rs (S i) = cumulativeOdds rs i + odds rule.
Proof.
  unfold cumulativeOdds. generalize (ofZ (num := R) 0).
  revert i. induction rs as [|r0 rest IH]; intros i acc Hnth.
  - destruct i; discriminate.
  - destruct i as [|i].
    + injection Hnth as ->. reflexivity.
    + simpl in Hnth. change (firstn (S (S i)) (r0 :: rest)) with (r0 :: firstn (S i) rest).
      change (firstn (S i) (r0 :: rest)) with (r0 :: firstn i rest).
      cbn [fold_left]. apply IH. exact Hnth.
Qed.

Lemma cumulativeOdds_nonneg (rs : list (Rule R G)) :
  Forall (fun rule => 0 <= odds rule) rs ->
  forall i, 0 <= cumulativeOdds rs i.
Proof.
  intros Hall i. induction i as [|i IH].
  - unfold cumulativeOdds. simpl. lra.
  - destruct (nth_error rs i) as [rule|] eqn:Hnth.
    + rewrite (cumulativeOdds_succ rs i rule Hnth).
      apply nth_error_In in Hnth. rewrite Forall_forall in Hall.
      specialize (Hall rule Hnth). lra.
    + apply nth_error_None in Hnth. unfold cumulativeOdds in *.
      rewrite firstn_all2 by lia. rewrite firstn_all2 in IH by lia. exact IH.
Qed.

Lemma nltb_R_true (a b : R) : (a <? b)%num = true <-> a < b.
Proof. cbn. destruct (Rlt_dec a b); split; intros; try lra; congruence. Qed.

Lemma nltb_R_false (a b : R) : (a <? b)%num = false <-> b <= a.
Proof. cbn. destruct (Rlt_dec a b); split; intros; try lra; congruence. Qed.

(** X8: over the reals, for two or more candidate rules with
    non-negative odds that are not all zero and a draw [r] in [0, 1),
    [selectRule] returns the rule whose slice of the cumulative odds
    holds the threshold [r * total]: the fallback to the last rule is
    never needed, and a rule with odds 0 is never selected. *)
Theorem selectRule_weighted (rs : list (Rule R G)) (g : G) :
  List.length rs <> 1%nat ->
  Forall (fun rule => 0 <= odds rule) rs ->
  0 < cumulativeOdds rs (List.length rs) ->
  0 <= fst (random g) < 1 ->
  exists (i : nat) (rule : Rule R G),
    nth_error rs i = Some rule
    /\ fst (selectRule random rs g) = Some rule
    /\ cumulativeOdds rs i
       <= fst (random g) * cumulativeOdds rs (List.length rs)
       < cumulativeOdds rs (S i)
    /\ 0 < odds rule.
Proof.
  intros Hlen Hodds Htot Hr.
  unfold selectRule.
  destruct (Nat.eqb (List.length rs) 1) eqn:Hone;
    [apply Nat.eqb_eq in Hone; contradiction|].
  assert (Ht : fold_left (fun sum rule => (sum + odds rule)%num) rs (ofZ 0)
               = cumulativeOdds rs (List.length rs)).
  { unfold cumulativeOdds. rewrite firstn_all. reflexivity. }
  rewrite Ht.
  destruct (random g) as [r g'] eqn:Hdraw. cbn [fst snd] in *.
  set (total := cumulativeOdds rs (List.length rs)) in *.
  pose proof (selectLoop_first G (r * total)%num rs (ofZ 0)) as Hloop.
  destruct (selectLoop (r * total)%num (ofZ 0) rs) as [found|].
  - destruct Hloop as (i & Hnth & Hi & Hbefore).
    change (sumFrom (ofZ 0) rs (S i)) with (cumulativeOdds rs (S i)) in Hi.
    apply nltb_R_true in Hi. cbn [nmul Number_R] in Hi.
    assert (Hlow : cumulativeOdds rs i <= r * total).
    { destruct i as [|i].
      - unfold cumulativeOdds at 1. simpl. nra.
      - specialize (Hbefore i (Nat.lt_succ_diag_r i)).
        change (sumFrom (ofZ 0) rs (S i)) with (cumulativeOdds rs (S i)) in Hbefore.
        apply nltb_R_false in Hbefore. exact Hbefore. }
    exists i, found. cbn [fst].
    split; [exact Hnth|]. split; [reflexivity|]. split; [split; assumption|].
    rewrite (cumulativeOdds_succ rs i found Hnth) in Hi. lra.
  - exfalso.
    assert (Hpos : (0 < List.length rs)%nat).
    { destruct rs; [unfold total, cumulativeOdds in Htot; simpl in Htot; lra|simpl; lia]. }
    specialize (Hloop (List.length rs - 1)%nat ltac:(lia)).
    replace (S (List.length rs - 1)) with (List.length rs) in Hloop by lia.
    change (sumFrom (ofZ 0) rs (List.length rs)) with total in Hloop.
    apply nltb_R_false in Hloop. cbn [nmul Number_R] in Hloop. nra.
Qed.

End SelectWeighted.

(** The theorem at the two rules of the engine's documentation, odds 0.7
    and 0.3, with the seeded generator. *)
Lemma selectRule_weighted_witness :
  let rs : list (Rule R Random.Sfc32) :=
    [mkRule "F" (7 / 10)%R (Literal "F[+F]");
     mkRule "F" (3 / 10)%R (Literal "F[-F]")] in
  let g := Random.createRandom "tree-123" in
  exists (i : nat) (rule : Rule R Random.Sfc32),
    nth_error rs i = Some rule
    /\ fst (selectRule Random.random rs g) = Some rule
    /\ (cumulativeOdds rs i
       <= fst (Random.random g) * cumulativeOdds rs (List.length rs)
       < cumulativeOdds rs (S i))%R
    /\ (0 < odds rule)%R.
Proof.
  intros rs g.
  apply (selectRule_weighted Random.Sfc32 Random.random rs g).
  - cbn. discriminate.
  - repeat constructor; cbn; lra.
  - cbn. lra.
  - apply RandomFacts.random_unit_interval.
Defined.

Section SeedFree.
Context {num : Type} `{Number num}.
Variable G : Type.
Variable random : G -> num * G.
Local Open Scope num_scope.

Lemma createSymbol_fixed (char : string) (cfg : LSystemConfig num) (d : Z) :
  (variability cfg =? ofZ 0) = true ->
  exists sym, forall g, createSymbol random char cfg d g = (sym, g).
Proof.
  intros Hv. unfold createSymbol, getVariabilityFactor. rewrite Hv.
  destruct (String.eqb char "F"); [eexists; intros; reflexivity|].
  destruct (existsb (String.eqb char) rotationSymbols); [eexists; intros; reflexivity|].
  destruct (String.eqb char "L"); eexists; intros; reflexivity.
Qed.

Lemma parseProduction_fold_fixed (cfg : LSystemConfig num) (d : Z) (cs : list ascii) :
  (variability cfg =? ofZ 0) = true ->
  exists out, forall acc g,
    fold_left
      (fun '(symbols, g) c =>
         let '(sym, g') := createSymbol random (String c EmptyString) cfg d g in
         (symbols ++ [sym], g'))
      cs (acc, g)
    = (acc ++ out, g).
Proof.
  intros Hv. induction cs as [|c cs IH].
  - exists []. intros acc g. simpl. rewrite app_nil_r. reflexivity.
  - destruct IH as [out IH].
    destruct (createSymbol_fixed (String c EmptyString) cfg d Hv) as [sym Hsym].
    exists (sym :: out). intros acc g. cbn [fold_left].
    rewrite Hsym, IH, <- app_assoc. reflexivity.
Qed.

Lemma parseProduction_fixed (production : string) (cfg : LSystemConfig num) (d : Z) :
  (variability cfg =? ofZ 0) = true ->
  exists out, forall g, parseProduction random production cfg d g = (out, g).
Proof.
  intros Hv.
  destruct (parseProduction_fold_fixed cfg d (list_ascii_of_string production) Hv)
    as [out Hout].
  exists out. intros g. unfold parseProduction. rewrite Hout. reflexivity.
Qed.

Lemma applyRulesStep_fixed (ls : LSystem num G) (sym : Symbol num) (depth : Z) :
  deterministic ls ->
  exists out depth', forall result g,
    applyRulesStep random (rules ls) (config ls) (mkApplyState result depth g) sym
    = mkApplyState (result ++ out) depth' g.
Proof.
  intros (Hv & Hlit & Hone). unfold applyRulesStep.
  destruct (String.eqb (symbol sym) "["); [eexists _, _; intros; reflexivity|].
  destruct (String.eqb (symbol sym) "]"); [eexists _, _; intros; reflexivity|].
  specialize (Hone (symbol sym)).
  assert (Hsub : forall rule,
             In rule (filter (fun rule => String.eqb (rule_match rule) (symbol sym))
                             (rules ls)) ->
             exists production, produce rule = Literal production).
  { intros rule Hin. apply filter_In in Hin. rewrite Forall_forall in Hlit.
    apply Hlit. tauto. }
  destruct (filter (fun rule => String.eqb (rule_match rule) (symbol sym)) (rules ls))
    as [|rule [|rule' rest]].
  - eexists _, _; intros; reflexivity.
  - destruct (Hsub rule (or_introl eq_refl)) as [production Hp].
    destruct (parseProduction_fixed production (config ls) depth Hv) as [out Hout].
    exists out, depth. intros result g.
    cbn [List.length Nat.eqb selectRule nth_error]. rewrite Hp, Hout. reflexivity.
  - simpl in Hone. lia.
Qed.

Lemma applyRules_fold_fixed (ls : LSystem num G) (sentence : list (Symbol num)) :
  deterministic ls ->
  forall depth,
  exists out depth', forall result g,
    fold_left (applyRulesStep random (rules ls) (config ls)) sentence
              (mkApplyState result depth g)
    = mkApplyState (result ++ out) depth' g.
Proof.
  intros Hdet. induction sentence as [|sym rest IH]; intros depth.
  - exists [], depth. intros result g. simpl. rewrite app_nil_r. reflexivity.
  - destruct (applyRulesStep_fixed ls sym depth Hdet) as (o1 & d1 & H1).
    destruct (IH d1) as (o2 & d2 & H2).
    exists (o1 ++ o2), d2. intros result g.
    cbn [fold_left]. rewrite H1, H2, <- app_assoc. reflexivity.
Qed.

Lemma generateFrom_fixed (ls : LSystem num G) (n : nat) :
  deterministic ls ->
  exists out, forall g, generateFrom random ls n g = (out, g).
Proof.
  intros Hdet. unfold generateFrom.
  induction n as [|n IH].
  - destruct Hdet as (Hv & _).
    destruct (parseProduction_fixed (axiom ls) (config ls) 0 Hv) as [out Hout].
    exists out. intros g. simpl. apply Hout.
  - destruct IH as [sentence IH].
    destruct (applyRules_fold_fixed ls sentence Hdet 0) as (out & d' & Hout).
    exists out. intros g. rewrite Nat.iter_succ, IH.
    unfold applyRules. rewrite Hout. reflexivity.
Qed.

End SeedFree.

(** X9: for an L-system without chance (variability 0, literal
    productions only, at most one rule per symbol) [generateSentence]
    returns the same sentence for every seed. *)
Theorem generateSentence_seed_free {num : Type} `{Number num}
  (ls : LSystem num Random.Sfc32) (n : nat) (seed1 seed2 : string) :
  deterministic ls ->
  generateSentence ls n seed1 = generateSentence ls n seed2.
Proof.
  intros Hdet. unfold generateSentence.
  destruct (generateFrom_fixed Random.Sfc32 Random.random ls n Hdet) as [out Hout].
  rewrite !Hout. reflexivity.
Qed.

(** The theorem at the rules of the default tree with variability 0. *)
Lemma generateSentence_seed_free_witness :
  let ls : LSystem R Random.Sfc32 :=
    mkLSystem "X"
      [mkRule "X" 1%R (Literal "F[+X][-X]FL"); mkRule "F" 1%R (Literal "FF")]
      (mkLSystemConfig 1%R (1 / 10)%R (8 / 10)%R (7 / 10)%R 25%R 0%R) in
  deterministic ls
  /\ generateSentence ls 3 "oak" = generateSentence ls 3 "pine".
Proof.
  intros ls.
  assert (Hdet : deterministic ls).
  { split; [|split].
    - cbn. destruct (Req_dec_T 0 0); [reflexivity|contradiction].
    - repeat constructor; eexists; reflexivity.
    - intros c. cbn [rules ls filter rule_match].
      destruct (String.eqb "X" c) eqn:HX; destruct (String.eqb "F" c) eqn:HF;
        cbn [List.length]; try lia.
      apply String.eqb_eq in HX, HF. congruence. }
  split; [exact Hdet|].
  exact (generateSentence_seed_free ls 3 "oak" "pine" Hdet).
Defined.

(* ----------------------------------------------------------------- *)
(** ** The turtle interpreter, continued *)

Section TurtleMore.
Context {num : Type} `{Number num}.
Local Open Scope num_scope.

Lemma dense_nth (ns : list (SkeletonNode.t num)) (n : nat) (node : SkeletonNode.t num) :
  map (@SkeletonNode.id num) ns = seq 0 n -> In node ns ->
  nth_error ns (SkeletonNode.id node) = Some node.
Proof.
  intros Hids Hin. apply In_nth_error in Hin. destruct Hin as [i Hi].
  assert (Hm : nth_error (map (@SkeletonNode.id num) ns) i = Some (SkeletonNode.id node)).
  { rewrite nth_error_map, Hi. reflexivity. }
  rewrite Hids in Hm.
  assert (Hlt : (i < n)%nat).
  { assert (Hl : (i < List.length (seq 0 n))%nat)
      by (apply nth_error_Some; congruence).
    rewrite length_seq in Hl. exact Hl. }
  assert (Hs : nth_error (seq 0 n) i = Some i).
  { rewrite (nth_error_nth' (seq 0 n) 0%nat) by (rewrite length_seq; exact Hlt).
    rewrite seq_nth by exact Hlt. reflexivity. }
  rewrite Hs in Hm. injection Hm as <-. exact Hi.
Qed.

Lemma nth_dense_id (ns : list (SkeletonNode.t num)) (n k : nat)
  (node : SkeletonNode.t num) :
  map (@SkeletonNode.id num) ns = seq 0 n -> nth_error ns k = Some node ->
  SkeletonNode.id node = k.
Proof.
  intros Hids Hnth.
  assert (Hk : (k < n)%nat).
  { rewrite <- (ids_length ns n Hids). apply nth_error_Some. congruence. }
  assert (Hm : nth_error (map (@SkeletonNode.id num) ns) k
               = Some (SkeletonNode.id node))
    by (rewrite nth_error_map, Hnth; reflexivity).
  rewrite Hids in Hm.
  rewrite (nth_error_nth' (seq 0 n) 0%nat) in Hm by (rewrite length_seq; exact Hk).
  rewrite seq_nth in Hm by exact Hk. injection Hm as <-. reflexivity.
Qed.

(** The six things one turn of the loop can do. *)
Lemma step_cases (config : TurtleConfig num) (m : Interp.t num) (sym : Symbol num) :
  InterpInv m ->
  exists m',
    step config m sym = Some m'
    /\ InterpInv m'
    /\ let state := Interp.state m in
       ((symbol sym = "F"%string
         /\ exists currentNode,
             nth_error (Interp.nodes m) (TurtleState.currentNodeId state)
             = Some currentNode
             /\ let length := orDefault (param_length (params sym)) (ofZ 1) in
                let newPosition :=
                  addVec3 (TurtleState.position state)
                    (scaleVec3 (getForward (TurtleState.orientation state)) length) in
                let newRadius :=
                  tc_baseRadius config
                  * npow (tc_radiusFalloff config)
                      (Z.of_nat (TurtleState.depth state)) in
                let newNode :=
                  createNode (Interp.nextNodeId m) newPosition
                    (TurtleState.orientation state) newRadius
                    (Some (TurtleState.currentNodeId state))
                    (TurtleState.depth state) in
                m' = Interp.mk (Interp.nodes m ++ [newNode])
                       (Interp.segments m
                          ++ [createSegment currentNode newNode length])
                       (Interp.leaves m)
                       (mapSet (TurtleState.currentNodeId state)
                          (mapGet (TurtleState.currentNodeId state)
                             (Interp.childCounts m) + 1)%nat
                          (Interp.childCounts m))
                       (S (Interp.nextNodeId m)) (Interp.stateStack m)
                       (TurtleState.mk newPosition (TurtleState.orientation state)
                          newRadius (TurtleState.depth state) (Interp.nextNodeId m)))
        \/ (symbol sym <> "F"%string /\ symbol sym <> "L"%string
            /\ symbol sym <> "["%string /\ symbol sym <> "]"%string
            /\ exists basis angle,
                In basis [vec3 (ofZ 0) (ofZ 0) (ofZ 1); vec3 (ofZ 1) (ofZ 0) (ofZ 0);
                          vec3 (ofZ 0) (ofZ 1) (ofZ 0)]
                /\ m' = rotateState m
                          (rotateVec3ByQuat basis (TurtleState.orientation state))
                          angle)
        \/ (symbol sym = "["%string
            /\ m' = Interp.mk (Interp.nodes m) (Interp.segments m) (Interp.leaves m)
                      (Interp.childCounts m) (Interp.nextNodeId m)
                      (state :: Interp.stateStack m)
                      (TurtleState.mk (TurtleState.position state)
                         (TurtleState.orientation state) (TurtleState.radius state)
                         (TurtleState.depth state + 1)%nat
                         (TurtleState.currentNodeId state)))
        \/ (symbol sym = "]"%string
            /\ exists savedState rest,
                Interp.stateStack m = savedState :: rest
                /\ m' = Interp.mk (Interp.nodes m) (Interp.segments m)
                          (Interp.leaves m) (Interp.childCounts m)
                          (Interp.nextNodeId m) rest savedState)
        \/ (symbol sym = "L"%string
            /\ m' = Interp.mk (Interp.nodes m) (Interp.segments m)
                      (Interp.leaves m
                         ++ [LeafPoint.mk (TurtleState.position state)
                               (TurtleState.orientation state)
                               (orDefault (param_size (params sym)) (ofZ 1))])
                      (Interp.childCounts m) (Interp.nextNodeId m)
                      (Interp.stateStack m) state)
        \/ (symbol sym <> "F"%string /\ symbol sym <> "L"%string
            /\ symbol sym <> "["%string /\ m' = m)).
Proof.
  intros Hinv.
  destruct (step_inv config m sym Hinv) as (m' & Hstep & Hinv').
  exists m'. split; [exact Hstep|]. split; [exact Hinv'|]. cbn zeta.
  pose proof Hinv as [Hids Hcur _ _ _ _ _].
  unfold step in Hstep.
  destruct (String.eqb (symbol sym) "F") eqn:EF.
  { left. apply String.eqb_eq in EF. split; [exact EF|].
    match type of Hstep with
    | match findNode _ (_ ++ [?nn]) with _ => _ end = _ => set (newNode := nn) in *
    end.
    assert (Hids' : map (@SkeletonNode.id num) (Interp.nodes m ++ [newNode])
                    = seq 0 (S (Interp.nextNodeId m))).
    { rewrite map_app, Hids, seq_S. reflexivity. }
    destruct (findNode (TurtleState.currentNodeId (Interp.state m))
                (Interp.nodes m ++ [newNode])) as [currentNode|] eqn:Hfind;
      [|discriminate].
    unfold findNode in Hfind. apply find_some in Hfind.
    destruct Hfind as [Hin Hid]. apply Nat.eqb_eq in Hid.
    pose proof (dense_nth _ _ _ Hids' Hin) as Hnth.
    rewrite Hid in Hnth.
    rewrite nth_error_app1 in Hnth
      by (rewrite (ids_length _ _ Hids); exact Hcur).
    exists currentNode. split; [exact Hnth|].
    injection Hstep as <-. reflexivity. }
  assert (HF : symbol sym <> "F"%string) by (apply String.eqb_neq; exact EF).
  assert (Hrot : forall basis angle,
             In basis [vec3 (ofZ 0) (ofZ 0) (ofZ 1); vec3 (ofZ 1) (ofZ 0) (ofZ 0);
                       vec3 (ofZ 0) (ofZ 1) (ofZ 0)] ->
             symbol sym <> "L"%string -> symbol sym <> "["%string ->
             symbol sym <> "]"%string ->
             Some (rotateState m
                     (rotateVec3ByQuat basis (TurtleState.orientation (Interp.state m)))
                     angle) = Some m' ->
             symbol sym <> "F"%string /\ symbol sym <> "L"%string
             /\ symbol sym <> "["%string /\ symbol sym <> "]"%string
             /\ exists basis angle,
                 In basis [vec3 (ofZ 0) (ofZ 0) (ofZ 1); vec3 (ofZ 1) (ofZ 0) (ofZ 0);
                           vec3 (ofZ 0) (ofZ 1) (ofZ 0)]
                 /\ m' = rotateState m
                           (rotateVec3ByQuat basis
                              (TurtleState.orientation (Interp.state m)))
                           angle).
  { intros basis angle Hb HL Ho Hc Heq. injection Heq as <-.
    repeat (split; [assumption|]). exists basis, angle. split; [exact Hb|reflexivity]. }
  destruct (String.eqb (symbol sym) "+") eqn:E1.
  { right; left. apply String.eqb_eq in E1.
    eapply Hrot; [| | | |exact Hstep]; rewrite ?E1; simpl; try discriminate; auto. }
  destruct (String.eqb (symbol sym) "-") eqn:E2.
  { right; left. apply String.eqb_eq in E2.
    eapply Hrot; [| | | |exact Hstep]; rewrite ?E2; simpl; try discriminate; auto. }
  destruct (String.eqb (symbol sym) "^") eqn:E3.
  { right; left. apply String.eqb_eq in E3.
    eapply Hrot; [| | | |exact Hstep]; rewrite ?E3; simpl; try discriminate; auto. }
  destruct (String.eqb (symbol sym) "&") eqn:E4.
  { right; left. apply String.eqb_eq in E4.
    eapply Hrot; [| | | |exact Hstep]; rewrite ?E4; simpl; try discriminate; auto. }
  destruct (String.eqb (symbol sym) "/") eqn:E5.
  { right; left. apply String.eqb_eq in E5.
    eapply Hrot; [| | | |exact Hstep]; rewrite ?E5; simpl; try discriminate; auto. }
  destruct (String.eqb (symbol sym) "\") eqn:E6.
  { right; left. apply String.eqb_eq in E6.
    eapply Hrot; [| | | |exact Hstep]; rewrite ?E6; simpl; try discriminate; auto. }
  clear Hrot.
  destruct (String.eqb (symbol sym) "[") eqn:EO.
  { right; right; left. apply String.eqb_eq in EO. split; [exact EO|].
    injection Hstep as <-. unfold cloneTurtleState.
    destruct (Interp.state m). reflexivity. }
  assert (HO : symbol sym <> "["%string) by (apply String.eqb_neq; exact EO).
  destruct (String.eqb (symbol sym) "]") eqn:EC.
  { apply String.eqb_eq in EC.
    destruct (Interp.stateStack m) as [|savedState rest] eqn:Estack.
    - right; right; right; right; right. injection Hstep as <-.
      rewrite EC. repeat split; try discriminate.
    - right; right; right; left. split; [exact EC|].
      exists savedState, rest. split; [reflexivity|].
      injection Hstep as <-. reflexivity. }
  destruct (String.eqb (symbol sym) "L") eqn:EL.
  { right; right; right; right; left. apply String.eqb_eq in EL.
    split; [exact EL|]. injection Hstep as <-. reflexivity. }
  right; right; right; right; right.
  injection Hstep as <-. repeat split; try assumption.
  apply String.eqb_neq; exact EL.
Qed.
(** A property of the interpreter state that every turn keeps holds when
    the loop ends. *)
Lemma runSentence_preserves (config : TurtleConfig num) (P : Interp.t num -> Prop) :
  (forall m sym m', InterpInv m -> P m -> step config m sym = Some m' -> P m') ->
  forall sentence m, InterpInv m -> P m ->
    exists m', runSentence config sentence m = Some m' /\ InterpInv m' /\ P m'.
Proof.
  intros Hstep. unfold runSentence.
  induction sentence as [|sym rest IH]; intros m Hinv HP; simpl.
  - exists m. auto.
  - destruct (step_inv config m sym Hinv) as (m1 & Hs & Hinv1).
    rewrite Hs. apply IH; [exact Hinv1|]. exact (Hstep m sym m1 Hinv HP Hs).
Qed.

Lemma initialInterp_tree (config : TurtleConfig num) :
  TreeInv config (initialInterp config).
Proof.
  constructor; simpl.
  - exists []. reflexivity.
  - intros i n Hn. destruct i; discriminate.
  - intros i n Hn. destruct i; discriminate.
  - reflexivity.
  - intros k s Hs. destruct k; discriminate.
Qed.

Lemma nth_error_snoc {A : Type} (l : list A) (x y : A) (i : nat) :
  nth_error (l ++ [x]) i = Some y ->
  (nth_error l i = Some y /\ (i < List.length l)%nat) \/ (i = List.length l /\ y = x).
Proof.
  intros Hn. destruct (Nat.lt_ge_cases i (List.length l)) as [Hlt|Hge].
  - rewrite nth_error_app1 in Hn by exact Hlt. left. auto.
  - rewrite nth_error_app2 in Hn by exact Hge.
    destruct (i - List.length l)%nat as [|j] eqn:E; simpl in Hn.
    + right. split; [lia|congruence].
    + destruct j; discriminate.
Qed.

Lemma nth_error_app_keep {A : Type} (l l' : list A) (x : A) (i : nat) :
  nth_error l i = Some x -> nth_error (l ++ l') i = Some x.
Proof.
  intros Hn. rewrite nth_error_app1; [exact Hn|].
  apply nth_error_Some. congruence.
Qed.

Lemma step_tree (config : TurtleConfig num) (m : Interp.t num) (sym : Symbol num)
  (m' : Interp.t num) :
  InterpInv m -> TreeInv config m -> step config m sym = Some m' ->
  TreeInv config m'.
Proof.
  intros Hinv Htree Hstep.
  destruct (step_cases config m sym Hinv) as (m1 & Hs1 & _ & Hcases).
  rewrite Hstep in Hs1. injection Hs1 as <-. cbn zeta in Hcases.
  pose proof Hinv as [Hids Hcur _ _ _ _ _].
  pose proof (ids_length _ _ Hids) as Hlen.
  destruct Htree as [Hroot Hparent Hradius Hcount Hseg].
  destruct Hcases as [(_ & currentNode & Hnth & ->)
                     |[(_ & _ & _ & _ & basis & angle & _ & ->)
                     |[(_ & ->)
                     |[(_ & saved & rest & _ & ->)
                     |[(_ & ->)
                     |(_ & _ & _ & ->)]]]]];
    try (constructor; assumption).
  constructor; cbn [Interp.nodes Interp.segments].
  - destruct Hroot as [rest ->]. eexists. reflexivity.
  - intros i n Hn. apply nth_error_snoc in Hn.
    destruct Hn as [[Hn _]|[Hi ->]]; [exact (Hparent i n Hn)|].
    eexists. split; [reflexivity|]. lia.
  - intros i n Hn. apply nth_error_snoc in Hn.
    destruct Hn as [[Hn _]|[Hi ->]]; [exact (Hradius i n Hn)|]. reflexivity.
  - rewrite !length_app. simpl. lia.
  - intros k s Hs. apply nth_error_snoc in Hs.
    destruct Hs as [[Hs _]|[Hk ->]].
    + destruct (Hseg k s Hs) as (a & b & Ha & Hb & Hrest).
      exists a, b. split; [apply nth_error_app_keep; exact Ha|].
      split; [apply nth_error_app_keep; exact Hb|exact Hrest].
    + eexists currentNode, _.
      split; [apply nth_error_app_keep|].
      * unfold createSegment. cbn [SkeletonSegment.startNodeId].
        rewrite (nth_dense_id _ _ _ _ Hids Hnth). exact Hnth.
      * split.
        { rewrite nth_error_app2 by lia.
          replace (S k - List.length (Interp.nodes m))%nat with 0%nat by lia.
          reflexivity. }
        unfold createSegment, createNode.
        cbn [SkeletonSegment.endNodeId SkeletonSegment.startNodeId
             SkeletonSegment.startRadius SkeletonSegment.endRadius
             SkeletonNode.id SkeletonNode.parentId SkeletonNode.radius].
        rewrite (nth_dense_id _ _ _ _ Hids Hnth).
        repeat split; try reflexivity. lia.
Qed.
Lemma setBranchPoint_unflag (k : nat) (ns : list (SkeletonNode.t num)) :
  map unflag (setBranchPoint k ns) = map unflag ns.
Proof.
  induction ns as [|n ns IH]; [reflexivity|].
  simpl. destruct (Nat.eqb (SkeletonNode.id n) k); simpl; [reflexivity|].
  rewrite IH. reflexivity.
Qed.

Lemma markBranchPoints_unflag (cc : list (nat * nat)) :
  forall ns : list (SkeletonNode.t num),
    map unflag (markBranchPoints cc ns) = map unflag ns.
Proof.
  unfold markBranchPoints.
  induction cc as [|[k c] cc IH]; intros ns; simpl; [reflexivity|].
  rewrite IH. destruct (Nat.ltb 1 c); [apply setBranchPoint_unflag|reflexivity].
Qed.

Lemma markTerminals_unflag (segs : list (SkeletonSegment.t num))
  (ns : list (SkeletonNode.t num)) :
  map unflag (markTerminals segs ns) = map unflag ns.
Proof.
  unfold markTerminals. rewrite map_map. apply map_ext.
  intros n. destruct (negb _); reflexivity.
Qed.

(** The post-processing only sets flags: with the flags cleared again
    the nodes are those the loop built. *)
Lemma finish_unflag (m : Interp.t num) :
  InterpInv m -> map unflag (Skeleton.nodes (finish m)) = Interp.nodes m.
Proof.
  intros Hinv. unfold finish. cbn [Skeleton.nodes].
  rewrite markTerminals_unflag, markBranchPoints_unflag.
  destruct Hinv as [_ _ _ _ _ _ Hflags].
  rewrite <- (map_id (Interp.nodes m)) at 2. apply map_ext_in.
  intros n Hn. rewrite Forall_forall in Hflags.
  destruct (Hflags n Hn) as [Ht Hb]. destruct n. simpl in *. subst. reflexivity.
Qed.

Lemma finish_node (m : Interp.t num) (i : nat) (n : SkeletonNode.t num) :
  InterpInv m ->
  nth_error (Skeleton.nodes (finish m)) i = Some n ->
  nth_error (Interp.nodes m) i = Some (unflag n).
Proof.
  intros Hinv Hn. rewrite <- (finish_unflag m Hinv), nth_error_map, Hn. reflexivity.
Qed.

Lemma finish_node_back (m : Interp.t num) (i : nat) (n0 : SkeletonNode.t num) :
  InterpInv m ->
  nth_error (Interp.nodes m) i = Some n0 ->
  exists n, nth_error (Skeleton.nodes (finish m)) i = Some n /\ unflag n = n0.
Proof.
  intros Hinv Hn. rewrite <- (finish_unflag m Hinv), nth_error_map in Hn.
  destruct (nth_error (Skeleton.nodes (finish m)) i) as [n|]; [|discriminate].
  exists n. split; [reflexivity|]. simpl in Hn. congruence.
Qed.

(** The loop from the initial state: it ends, in a state that satisfies
    both invariants. *)
Lemma runSentence_tree (config : TurtleConfig num) (sentence : list (Symbol num)) :
  exists m,
    runSentence config sentence (initialInterp config) = Some m
    /\ InterpInv m /\ TreeInv config m.
Proof.
  apply (runSentence_preserves config (TreeInv config)).
  - intros m sym m'. apply step_tree.
  - apply initialInterp_inv.
  - apply initialInterp_tree.
Qed.

(** X10: the skeleton of every sentence is a rooted tree in creation
    order: node ids are 0, 1, 2, ... in list order; there is one more
    node than segments; node 0 is the only node without a parent and
    every other node names an earlier node as its parent; segment [k]
    ends at node [k + 1] and starts at that node's parent. *)
Theorem interpretSentence_tree (sentence : list (Symbol num))
  (config : TurtleConfig num) :
  exists sk,
    interpretSentence sentence config = Some sk
    /\ map (@SkeletonNode.id num) (Skeleton.nodes sk)
       = seq 0 (List.length (Skeleton.nodes sk))
    /\ List.length (Skeleton.nodes sk) = S (List.length (Skeleton.segments sk))
    /\ (forall node, In node (Skeleton.nodes sk) ->
          (SkeletonNode.id node = 0%nat /\ SkeletonNode.parentId node = None)
          \/ (exists p, SkeletonNode.parentId node = Some p
                        /\ (p < SkeletonNode.id node)%nat))
    /\ (forall k s, nth_error (Skeleton.segments sk) k = Some s ->
          SkeletonSegment.endNodeId s = S k
          /\ (SkeletonSegment.startNodeId s <= k)%nat
          /\ exists child,
               nth_error (Skeleton.nodes sk) (S k) = Some child
               /\ SkeletonNode.parentId child = Some (SkeletonSegment.startNodeId s)).
Proof.
  destruct (runSentence_tree config sentence) as (m & Hrun & Hinv & Htree).
  unfold interpretSentence. rewrite Hrun. exists (finish m).
  split; [reflexivity|].
  pose proof (finish_unflag m Hinv) as Hun.
  pose proof Hinv as [Hids _ _ _ _ _ _].
  destruct Htree as [Hroot Hparent _ Hcount Hseg].
  assert (Hlen : List.length (Skeleton.nodes (finish m)) = List.length (Interp.nodes m)).
  { rewrite <- Hun, length_map. reflexivity. }
  assert (Hids' : map (@SkeletonNode.id num) (Skeleton.nodes (finish m))
                  = seq 0 (List.length (Skeleton.nodes (finish m)))).
  { rewrite Hlen, (ids_length _ _ Hids), <- Hids, <- Hun, map_map. reflexivity. }
  split; [exact Hids'|]. split; [rewrite Hlen; exact Hcount|]. split.
  - intros node Hin. apply In_nth_error in Hin. destruct Hin as [i Hi].
    pose proof (nth_dense_id _ _ _ _ Hids' Hi) as Hid.
    apply (finish_node m i node Hinv) in Hi.
    destruct i as [|i].
    + left. split; [exact Hid|]. destruct Hroot as [rest Hr].
      rewrite Hr in Hi. simpl in Hi.
      apply (f_equal (option_map (@SkeletonNode.parentId num))) in Hi.
      simpl in Hi. congruence.
    + right. destruct (Hparent i (unflag node) Hi) as (p & Hp & Hle).
      exists p. split; [exact Hp|]. lia.
  - intros k s Hs. cbn [finish Skeleton.segments] in Hs.
    destruct (Hseg k s Hs) as (a & b & Ha & Hb & Hend & Hpar & _).
    split; [exact Hend|]. split.
    + destruct (Hparent k b Hb) as (p & Hp & Hle). congruence.
    + destruct (finish_node_back m (S k) b Hinv Hb) as (child & Hc & Hu).
      exists child. split; [exact Hc|]. rewrite <- Hu in Hpar. exact Hpar.
Qed.

(** X12: the root has radius [baseRadius] and every other node has
    radius [baseRadius * radiusFalloff ^ depth] for its own depth; a
    segment's start and end radius are the radii of the two nodes it
    joins. *)
Theorem interpretSentence_radii (sentence : list (Symbol num))
  (config : TurtleConfig num) :
  exists sk,
    interpretSentence sentence config = Some sk
    /\ (forall i node, nth_error (Skeleton.nodes sk) i = Some node ->
          SkeletonNode.radius node
          = match i with
            | O => tc_baseRadius config
            | S _ => tc_baseRadius config
                     * npow (tc_radiusFalloff config)
                         (Z.of_nat (SkeletonNode.depth node))
            end)
    /\ (forall s, In s (Skeleton.segments sk) ->
          exists a b,
            nth_error (Skeleton.nodes sk) (SkeletonSegment.startNodeId s) = Some a
            /\ nth_error (Skeleton.nodes sk) (SkeletonSegment.endNodeId s) = Some b
            /\ SkeletonSegment.startRadius s = SkeletonNode.radius a
            /\ SkeletonSegment.endRadius s = SkeletonNode.radius b).
Proof.
  destruct (runSentence_tree config sentence) as (m & Hrun & Hinv & Htree).
  unfold interpretSentence. rewrite Hrun. exists (finish m).
  split; [reflexivity|].
  destruct Htree as [Hroot _ Hradius _ Hseg]. split.
  - intros i node Hi. apply (finish_node m i node Hinv) in Hi.
    destruct i as [|i].
    + destruct Hroot as [rest Hr]. rewrite Hr in Hi. simpl in Hi.
      apply (f_equal (option_map (@SkeletonNode.radius num))) in Hi.
      simpl in Hi. congruence.
    + exact (Hradius i (unflag node) Hi).
  - intros s Hin. cbn [finish Skeleton.segments] in Hin.
    apply In_nth_error in Hin. destruct Hin as [k Hk].
    destruct (Hseg k s Hk) as (a & b & Ha & Hb & Hend & _ & Hsr & Her).
    destruct (finish_node_back m _ a Hinv Ha) as (a' & Ha' & Hua).
    destruct (finish_node_back m _ b Hinv Hb) as (b' & Hb' & Hub).
    exists a', b'. rewrite Hend.
    split; [exact Ha'|]. split; [exact Hb'|].
    rewrite Hsr, Her, <- Hua, <- Hub. split; reflexivity.
Qed.

Lemma countSymbol_cons (c : string) (sym : Symbol num) (rest : list (Symbol num)) :
  countSymbol c (sym :: rest)
  = ((if String.eqb (symbol sym) c then 1 else 0) + countSymbol c rest)%nat.
Proof.
  unfold countSymbol. simpl. destruct (String.eqb (symbol sym) c); reflexivity.
Qed.

Lemma runSentence_cons (config : TurtleConfig num) (sym : Symbol num)
  (rest : list (Symbol num)) (m m1 : Interp.t num) :
  step config m sym = Some m1 ->
  runSentence config (sym :: rest) m = runSentence config rest m1.
Proof. intros Hs. unfold runSentence. simpl. rewrite Hs. reflexivity. Qed.

Lemma runSentence_counts (config : TurtleConfig num) (sentence : list (Symbol num)) :
  forall m, InterpInv m ->
    exists m',
      runSentence config sentence m = Some m'
      /\ List.length (Interp.nodes m')
         = (List.length (Interp.nodes m) + countSymbol "F" sentence)%nat
      /\ List.length (Interp.segments m')
         = (List.length (Interp.segments m) + countSymbol "F" sentence)%nat
      /\ List.length (Interp.leaves m')
         = (List.length (Interp.leaves m) + countSymbol "L" sentence)%nat.
Proof.
  induction sentence as [|sym rest IH]; intros m Hinv.
  - exists m. unfold countSymbol. simpl. repeat split; auto.
  - destruct (step_cases config m sym Hinv) as (m1 & Hs & Hinv1 & Hcases).
    rewrite (runSentence_cons config sym rest m m1 Hs).
    destruct (IH m1 Hinv1) as (m' & Hrun & Hn & Hsg & Hl).
    exists m'. split; [exact Hrun|].
    rewrite Hn, Hsg, Hl, !countSymbol_cons. clear Hn Hsg Hl Hrun IH.
    cbn zeta in Hcases.
    destruct Hcases as [(E & currentNode & _ & ->)
                       |[(EF & EL & _ & _ & basis & angle & _ & ->)
                       |[(E & ->)
                       |[(E & saved & rest' & _ & ->)
                       |[(E & ->)
                       |(EF & EL & _ & ->)]]]]];
      cbn [Interp.nodes Interp.segments Interp.leaves rotateState];
      rewrite ?length_app; cbn [List.length];
      try (rewrite E; cbn [String.eqb Ascii.eqb Bool.eqb]; repeat split; lia);
      apply String.eqb_neq in EF, EL; rewrite EF, EL; repeat split; lia.
Qed.

(** X11: the skeleton of a sentence has one node for the root and one
    for every F, one segment for every F and one leaf for every L;
    rotations, brackets and other symbols add nothing. *)
Theorem interpretSentence_counts (sentence : list (Symbol num))
  (config : TurtleConfig num) :
  exists sk,
    interpretSentence sentence config = Some sk
    /\ List.length (Skeleton.nodes sk) = (1 + countSymbol "F" sentence)%nat
    /\ List.length (Skeleton.segments sk) = countSymbol "F" sentence
    /\ List.length (Skeleton.leaves sk) = countSymbol "L" sentence.
Proof.
  destruct (runSentence_counts config sentence (initialInterp config)
              (initialInterp_inv config)) as (m & Hrun & Hn & Hs & Hl).
  destruct (runSentence_inv config sentence (initialInterp config)
              (initialInterp_inv config)) as (m0 & Hrun0 & Hinv).
  rewrite Hrun in Hrun0. injection Hrun0 as <-.
  unfold interpretSentence. rewrite Hrun. exists (finish m).
  split; [reflexivity|].
  split; [|split; [exact Hs|exact Hl]].
  rewrite <- (finish_unflag m Hinv), length_map in Hn. exact Hn.
Qed.

Lemma step_not_command (config : TurtleConfig num) (m : Interp.t num)
  (sym : Symbol num) :
  isCommand sym = false -> step config m sym = Some m.
Proof.
  unfold isCommand, turtleCommands. cbn [existsb]. intros Hc.
  repeat (apply orb_false_elim in Hc; destruct Hc as [? Hc]).
  unfold step.
  repeat match goal with
         | E : String.eqb (symbol sym) _ = false |- _ => rewrite E; clear E
         end.
  reflexivity.
Qed.

Lemma runSentence_filter (config : TurtleConfig num) (sentence : list (Symbol num)) :
  forall acc : option (Interp.t num),
    fold_left
      (fun acc sym => match acc with Some m => step config m sym | None => None end)
      (filter isCommand sentence) acc
    = fold_left
        (fun acc sym => match acc with Some m => step config m sym | None => None end)
        sentence acc.
Proof.
  induction sentence as [|sym rest IH]; intros acc; [reflexivity|].
  simpl. destruct (isCommand sym) eqn:Ec.
  - simpl. apply IH.
  - rewrite IH. destruct acc as [m|]; [|reflexivity].
    rewrite (step_not_command config m sym Ec). reflexivity.
Qed.

(** X13: symbols other than the ten commands (X among them) are
    ignored: removing them from the sentence gives the same skeleton. *)
Theorem interpretSentence_ignores (sentence : list (Symbol num))
  (config : TurtleConfig num) :
  interpretSentence (filter isCommand sentence) config
  = interpretSentence sentence config.
Proof.
  unfold interpretSentence, runSentence.
  rewrite runSentence_filter. reflexivity.
Qed.

Lemma runSentence_app (config : TurtleConfig num) (s1 s2 : list (Symbol num))
  (m m1 : Interp.t num) :
  runSentence config s1 m = Some m1 ->
  runSentence config (s1 ++ s2) m = runSentence config s2 m1.
Proof.
  unfold runSentence. intros H1. rewrite fold_left_app, H1. reflexivity.
Qed.

(** A sentence with matched brackets leaves the stack as it found it. *)
Lemma balanced_stack (config : TurtleConfig num) (body : list (Symbol num)) :
  balanced body ->
  forall m, InterpInv m ->
    exists m',
      runSentence config body m = Some m'
      /\ InterpInv m'
      /\ Interp.stateStack m' = Interp.stateStack m.
Proof.
  induction 1 as [|s rest Ho Hc Hrest IH|o c body rest Ho Hc Hbody IHb Hrest IHr];
    intros m Hinv.
  - exists m. auto.
  - destruct (step_cases config m s Hinv) as (m1 & Hs & Hinv1 & Hcases).
    rewrite (runSentence_cons config s rest m m1 Hs).
    destruct (IH m1 Hinv1) as (m' & Hrun & Hinv' & Hst).
    exists m'. split; [exact Hrun|]. split; [exact Hinv'|].
    rewrite Hst. cbn zeta in Hcases.
    destruct Hcases as [(E & currentNode & _ & ->)
                       |[(_ & _ & _ & _ & basis & angle & _ & ->)
                       |[(E & _)
                       |[(E & _)
                       |[(E & ->)
                       |(_ & _ & _ & ->)]]]]];
      try reflexivity; contradiction.
  - destruct (step_cases config m o Hinv) as (m1 & Hs & Hinv1 & Hcases).
    rewrite (runSentence_cons config o _ m m1 Hs).
    cbn zeta in Hcases.
    assert (Hm1 : Interp.stateStack m1 = Interp.state m :: Interp.stateStack m).
    { destruct Hcases as [(E & _)|[(_ & _ & E & _)|[(_ & ->)|[(E & _)|[(E & _)
                         |(_ & _ & E & _)]]]]];
        try reflexivity; try contradiction; rewrite Ho in E; discriminate. }
    destruct (IHb m1 Hinv1) as (m2 & Hrun2 & Hinv2 & Hst2).
    rewrite (runSentence_app config body (c :: rest) m1 m2 Hrun2).
    destruct (step_cases config m2 c Hinv2) as (m3 & Hs3 & Hinv3 & Hcases3).
    rewrite (runSentence_cons config c rest m2 m3 Hs3).
    cbn zeta in Hcases3.
    assert (Hm3 : Interp.stateStack m3 = Interp.stateStack m).
    { destruct Hcases3 as [(E & _)|[(_ & _ & _ & E & _)|[(E & _)
                          |[(_ & saved & rest' & Hst & ->)|[(E & _)
                          |(_ & _ & _ & ->)]]]]];
        try contradiction; try (rewrite Hc in E; discriminate).
      - cbn [Interp.stateStack]. rewrite Hst2, Hm1 in Hst. congruence.
      - exfalso. destruct (step_cases config m2 c Hinv2) as (m4 & Hs4 & _ & _).
        unfold step in Hs3. rewrite Hc in Hs3. cbn in Hs3.
        rewrite Hst2, Hm1 in Hs3. injection Hs3 as Hs3.
        apply (f_equal (@Interp.stateStack num)) in Hs3. cbn in Hs3.
        rewrite Hst2, Hm1 in Hs3.
        apply (f_equal (@List.length _)) in Hs3. simpl in Hs3. lia. }
    destruct (IHr m3 Hinv3) as (m' & Hrun & Hinv' & Hst).
    exists m'. split; [exact Hrun|]. split; [exact Hinv'|]. congruence.
Qed.

(** X14: a branch restores the turtle: after an opening bracket, a
    body whose brackets match and the closing bracket, the turtle state
    (position, orientation, radius, depth, current node) and the stack
    are exactly those before the opening bracket, whatever the body
    drew. *)
Theorem branch_restores_state (config : TurtleConfig num) (m : Interp.t num)
  (o c : Symbol num) (body : list (Symbol num)) :
  InterpInv m -> balanced body ->
  symbol o = "["%string -> symbol c = "]"%string ->
  exists m',
    runSentence config (o :: body ++ [c]) m = Some m'
    /\ Interp.state m' = Interp.state m
    /\ Interp.stateStack m' = Interp.stateStack m.
Proof.
  intros Hinv Hbody Ho Hc.
  assert (Hs : step config m o
               = Some (Interp.mk (Interp.nodes m) (Interp.segments m)
                         (Interp.leaves m) (Interp.childCounts m)
                         (Interp.nextNodeId m)
                         (cloneTurtleState (Interp.state m) :: Interp.stateStack m)
                         (TurtleState.mk (TurtleState.position (Interp.state m))
                            (TurtleState.orientation (Interp.state m))
                            (TurtleState.radius (Interp.state m))
                            (TurtleState.depth (Interp.state m) + 1)%nat
                            (TurtleState.currentNodeId (Interp.state m))))).
  { unfold step. rewrite Ho. reflexivity. }
  rewrite (runSentence_cons config o _ m _ Hs).
  destruct (step_inv config m o Hinv) as (m1 & Hs1 & Hinv1).
  rewrite Hs in Hs1. injection Hs1 as Hs1. rewrite <- Hs1 in Hinv1.
  destruct (balanced_stack config body Hbody _ Hinv1) as (m2 & Hrun2 & Hinv2 & Hst2).
  rewrite (runSentence_app config body [c] _ m2 Hrun2).
  cbn [Interp.stateStack] in Hst2.
  unfold runSentence. cbn [fold_left]. unfold step. rewrite Hc.
  cbn [String.eqb Ascii.eqb Bool.eqb]. rewrite Hst2.
  eexists. split; [reflexivity|]. cbn [Interp.state Interp.stateStack].
  split; [|reflexivity]. unfold cloneTurtleState. destruct (Interp.state m). reflexivity.
Qed.

Lemma standsOn_app (ns extra : list (SkeletonNode.t num)) (st : TurtleState.t num) :
  standsOn ns st -> standsOn (ns ++ extra) st.
Proof.
  intros (n & Hn & Hp & Hd). exists n.
  split; [apply nth_error_app_keep; exact Hn|]. auto.
Qed.

Lemma initialInterp_place (config : TurtleConfig num) :
  PlaceInv (initialInterp config).
Proof.
  constructor; simpl.
  - eexists. simpl. split; [reflexivity|]. split; [reflexivity|]. simpl. lia.
  - constructor.
  - intros i n Hn. destruct i; discriminate.
  - constructor.
Qed.

Lemma step_place (config : TurtleConfig num) (m : Interp.t num) (sym : Symbol num)
  (m' : Interp.t num) :
  InterpInv m -> PlaceInv m -> step config m sym = Some m' -> PlaceInv m'.
Proof.
  intros Hinv Hplace Hstep.
  destruct (step_cases config m sym Hinv) as (m1 & Hs1 & _ & Hcases).
  rewrite Hstep in Hs1. injection Hs1 as <-. cbn zeta in Hcases.
  pose proof Hinv as [Hids Hcur _ _ _ _ _].
  pose proof (ids_length _ _ Hids) as Hlen.
  destruct Hplace as [Hhere Hsaved Hchild Hleaves].
  destruct Hcases as [(_ & currentNode & Hnth & ->)
                     |[(_ & _ & _ & _ & basis & angle & _ & ->)
                     |[(_ & ->)
                     |[(_ & saved & rest & Hst & ->)
                     |[(_ & ->)
                     |(_ & _ & _ & ->)]]]]].
  - constructor; cbn [Interp.nodes Interp.state Interp.stateStack Interp.leaves].
    + eexists. cbn [TurtleState.currentNodeId TurtleState.position TurtleState.depth].
      split; [rewrite nth_error_app2 by lia;
              replace (Interp.nextNodeId m - List.length (Interp.nodes m))%nat
                with 0%nat by lia; reflexivity|].
      split; [reflexivity|]. simpl. lia.
    + eapply Forall_impl; [|exact Hsaved]. intros st. apply standsOn_app.
    + intros i n Hn. apply nth_error_snoc in Hn.
      destruct Hn as [[Hn _]|[Hi ->]].
      * destruct (Hchild i n Hn) as (p & pn & Hp & Hpn & Hd).
        exists p, pn. split; [exact Hp|]. split; [apply nth_error_app_keep; exact Hpn|exact Hd].
      * destruct Hhere as (n & Hn & _ & Hd).
        exists (TurtleState.currentNodeId (Interp.state m)), n.
        split; [reflexivity|]. split; [apply nth_error_app_keep; exact Hn|exact Hd].
    + eapply Forall_impl; [|exact Hleaves].
      intros l (n & Hin & Hp). exists n. split; [apply in_or_app; left; exact Hin|exact Hp].
  - constructor; simpl; assumption.
  - constructor; cbn [Interp.nodes Interp.state Interp.stateStack Interp.leaves];
      try assumption.
    + destruct Hhere as (n & Hn & Hp & Hd). exists n. simpl. repeat split; auto. lia.
    + constructor; assumption.
  - rewrite Hst in Hsaved. inversion Hsaved as [|? ? Hs Hr]; subst.
    constructor; simpl; assumption.
  - constructor; cbn [Interp.nodes Interp.state Interp.stateStack Interp.leaves];
      try assumption.
    apply Forall_app. split; [exact Hleaves|]. constructor; [|constructor].
    destruct Hhere as (n & Hn & Hp & _). exists n.
    split; [exact (nth_error_In _ _ Hn)|exact Hp].
  - constructor; assumption.
Qed.

Lemma runSentence_place (config : TurtleConfig num) (sentence : list (Symbol num)) :
  exists m,
    runSentence config sentence (initialInterp config) = Some m
    /\ InterpInv m /\ TreeInv config m /\ PlaceInv m.
Proof.
  destruct (runSentence_preserves config
              (fun m => TreeInv config m /\ PlaceInv m)) with
    (sentence := sentence) (m := initialInterp config)
    as (m & Hrun & Hinv & Htree & Hplace).
  - intros m sym m' Hinv [Ht Hp] Hs.
    split; [exact (step_tree config m sym m' Hinv Ht Hs)
           |exact (step_place config m sym m' Hinv Hp Hs)].
  - apply initialInterp_inv.
  - split; [apply initialInterp_tree|apply initialInterp_place].
  - exists m. auto.
Qed.

(** X15: in the skeleton of every sentence the parent of a node exists
    and is no deeper than the node, and every leaf lies at the position
    of a node. *)
Theorem interpretSentence_places (sentence : list (Symbol num))
  (config : TurtleConfig num) :
  exists sk,
    interpretSentence sentence config = Some sk
    /\ (forall i node, nth_error (Skeleton.nodes sk) (S i) = Some node ->
          exists p parent,
            SkeletonNode.parentId node = Some p
            /\ nth_error (Skeleton.nodes sk) p = Some parent
            /\ (SkeletonNode.depth parent <= SkeletonNode.depth node)%nat)
    /\ (forall leaf, In leaf (Skeleton.leaves sk) ->
          exists node, In node (Skeleton.nodes sk)
                       /\ SkeletonNode.position node = LeafPoint.position leaf).
Proof.
  destruct (runSentence_place config sentence) as (m & Hrun & Hinv & _ & Hplace).
  unfold interpretSentence. rewrite Hrun. exists (finish m).
  split; [reflexivity|].
  destruct Hplace as [_ _ Hchild Hleaves]. split.
  - intros i node Hi. apply (finish_node m _ node Hinv) in Hi.
    destruct (Hchild i (unflag node) Hi) as (p & pn & Hp & Hpn & Hd).
    destruct (finish_node_back m p pn Hinv Hpn) as (parent & Hpar & Hu).
    exists p, parent. split; [exact Hp|]. split; [exact Hpar|].
    rewrite <- Hu in Hd. exact Hd.
  - intros leaf Hin. cbn [finish Skeleton.leaves] in Hin.
    rewrite Forall_forall in Hleaves.
    destruct (Hleaves leaf Hin) as (n & Hn & Hp).
    apply In_nth_error in Hn. destruct Hn as [i Hi].
    destruct (finish_node_back m i n Hinv Hi) as (node & Hnode & Hu).
    exists node. split; [exact (nth_error_In _ _ Hnode)|].
    rewrite <- Hu in Hp. exact Hp.
Qed.
End TurtleMore.

(** The theorem at the initial state and the body "+FL", over the
    reals. *)
Lemma branch_restores_state_witness :
  let config := turtleConfig (defaultTreeConfig (num := R)) in
  let m := initialInterp config in
  let body := [mkSymbol "+" noParams; mkSymbol "F" noParams; mkSymbol "L" noParams] in
  InterpInv m /\ balanced body
  /\ exists m',
       runSentence config (mkSymbol "[" noParams :: body ++ [mkSymbol "]" noParams]) m
       = Some m'
       /\ Interp.state m' = Interp.state m
       /\ Interp.stateStack m' = Interp.stateStack m.
Proof.
  intros config m body.
  assert (Hinv : InterpInv m) by apply initialInterp_inv.
  assert (Hb : balanced body).
  { unfold body. repeat (apply balanced_symbol; [discriminate|discriminate|]).
    apply balanced_nil. }
  split; [exact Hinv|]. split; [exact Hb|].
  exact (branch_restores_state config m (mkSymbol "[" noParams)
           (mkSymbol "]" noParams) body Hinv Hb eq_refl eq_refl).
Defined.

Section TurtleReal.
Local Open Scope R_scope.

Lemma multiplyQuat_unit (a b : Quat R) :
  unitQuat a -> unitQuat b -> unitQuat (multiplyQuat a b).
Proof.
  unfold unitQuat. destruct a as [ax ay az aw], b as [bx by' bz bw]. cbn.
  intros Ha Hb.
  replace 1 with ((ax * ax + ay * ay + az * az + aw * aw)
                  * (bx * bx + by' * by' + bz * bz + bw * bw))
    by (rewrite Ha, Hb; ring).
  ring.
Qed.

Lemma rotate_basis_sqnorm (basis : Vec3 R) (q : Quat R) :
  In basis [vec3 (ofZ 0) (ofZ 0) (ofZ 1); vec3 (ofZ 1) (ofZ 0) (ofZ 0);
            vec3 (ofZ 0) (ofZ 1) (ofZ 0)] ->
  unitQuat q ->
  let v := rotateVec3ByQuat basis q in
  vx v * vx v + vy v * vy v + vz v * vz v = 1.
Proof.
  intros Hb Hq. cbv zeta.
  pose proof (rotate_sqnorm basis q) as Hsq. cbv zeta in Hsq.
  unfold unitQuat in Hq. cbn in Hq.
  rewrite Hsq, Hq.
  destruct Hb as [<-|[<-|[<-|[]]]]; cbn; ring.
Qed.

Lemma quatFromAxisAngle_unit (axis : Vec3 R) (angle : R) :
  vx axis * vx axis + vy axis * vy axis + vz axis * vz axis = 1 ->
  unitQuat (quatFromAxisAngle axis angle).
Proof.
  intros Hax. unfold unitQuat, quatFromAxisAngle. cbn.
  pose proof (sin2_cos2 (angle / 2)) as Hsc. unfold Rsqr in Hsc. nra.
Qed.

Lemma initialInterp_unit (config : TurtleConfig R) : UnitInv (initialInterp config).
Proof.
  assert (Hid : unitQuat (identityQuat (num := R))) by (unfold unitQuat; cbn; ring).
  constructor; simpl; repeat constructor; exact Hid.
Qed.

Lemma step_unit (config : TurtleConfig R) (m : Interp.t R) (sym : Symbol R)
  (m' : Interp.t R) :
  InterpInv m -> UnitInv m -> step config m sym = Some m' -> UnitInv m'.
Proof.
  intros Hinv Hunit Hstep.
  destruct (step_cases config m sym Hinv) as (m1 & Hs1 & _ & Hcases).
  rewrite Hstep in Hs1. injection Hs1 as <-. cbn zeta in Hcases.
  destruct Hunit as [Hstate Hsaved Hnodes Hleaves].
  destruct Hcases as [(_ & currentNode & Hnth & ->)
                     |[(_ & _ & _ & _ & basis & angle & Hb & ->)
                     |[(_ & ->)
                     |[(_ & saved & rest & Hst & ->)
                     |[(_ & ->)
                     |(_ & _ & _ & ->)]]]]].
  - constructor; cbn [Interp.nodes Interp.state Interp.stateStack Interp.leaves
                      TurtleState.orientation]; try assumption.
    apply Forall_app. split; [exact Hnodes|]. constructor; [exact Hstate|constructor].
  - constructor; cbn [rotateState Interp.nodes Interp.state Interp.stateStack
                      Interp.leaves TurtleState.orientation]; try assumption.
    apply multiplyQuat_unit; [exact Hstate|].
    apply quatFromAxisAngle_unit.
    exact (rotate_basis_sqnorm basis _ Hb Hstate).
  - constructor; cbn [Interp.nodes Interp.state Interp.stateStack Interp.leaves
                      TurtleState.orientation]; try assumption.
    constructor; assumption.
  - rewrite Hst in Hsaved. inversion Hsaved; subst.
    constructor; simpl; assumption.
  - constructor; cbn [Interp.nodes Interp.state Interp.stateStack Interp.leaves];
      try assumption.
    apply Forall_app. split; [exact Hleaves|]. constructor; [exact Hstate|constructor].
  - constructor; assumption.
Qed.

(** X16: over the reals, the orientation of every node and of every
    leaf of the skeleton of a sentence is a unit quaternion, whatever
    the angles of the rotations. *)
Theorem interpretSentence_unit (sentence : list (Symbol R)) (config : TurtleConfig R) :
  exists sk,
    interpretSentence sentence config = Some sk
    /\ (forall node, In node (Skeleton.nodes sk) ->
          unitQuat (SkeletonNode.orientation node))
    /\ (forall leaf, In leaf (Skeleton.leaves sk) ->
          unitQuat (LeafPoint.orientation leaf)).
Proof.
  destruct (runSentence_preserves config (@UnitInv R _)
              (step_unit config) sentence (initialInterp config)
              (initialInterp_inv config) (initialInterp_unit config))
    as (m & Hrun & Hinv & Hunit).
  unfold interpretSentence. rewrite Hrun. exists (finish m).
  split; [reflexivity|].
  destruct Hunit as [_ _ Hnodes Hleaves]. rewrite Forall_forall in Hnodes, Hleaves.
  split.
  - intros node Hin. apply In_nth_error in Hin. destruct Hin as [i Hi].
    apply (finish_node m i node Hinv) in Hi. apply nth_error_In in Hi.
    exact (Hnodes _ Hi).
  - intros leaf Hin. exact (Hleaves leaf Hin).
Qed.
Lemma scale_length (v : Vec3 R) (s : R) :
  lengthVec3 (scaleVec3 v s) = Rabs s * lengthVec3 v.
Proof.
  unfold lengthVec3, scaleVec3. cbn.
  replace (vx v * s * (vx v * s) + vy v * s * (vy v * s) + vz v * s * (vz v * s))
    with (Rsqr s * (vx v * vx v + vy v * vy v + vz v * vz v))
    by (unfold Rsqr; ring).
  rewrite sqrt_mult; [|apply Rle_0_sqr|nra].
  rewrite sqrt_Rsqr_abs. reflexivity.
Qed.

Lemma forward_length (q : Quat R) : unitQuat q -> lengthVec3 (getForward q) = 1.
Proof.
  intros Hq. unfold getForward. rewrite rotate_length by exact Hq.
  unfold lengthVec3, vec3. cbn.
  replace (0 * 0 + 1 * 1 + 0 * 0) with 1 by ring. apply sqrt_1.
Qed.

Lemma step_spans (config : TurtleConfig R) (m : Interp.t R) (sym : Symbol R)
  (m' : Interp.t R) :
  InterpInv m ->
  PlaceInv m /\ UnitInv m /\ Forall (segmentSpans (Interp.nodes m)) (Interp.segments m) ->
  step config m sym = Some m' ->
  PlaceInv m' /\ UnitInv m'
  /\ Forall (segmentSpans (Interp.nodes m')) (Interp.segments m').
Proof.
  intros Hinv (Hplace & Hunit & Hspans) Hstep.
  split; [exact (step_place config m sym m' Hinv Hplace Hstep)|].
  split; [exact (step_unit config m sym m' Hinv Hunit Hstep)|].
  destruct (step_cases config m sym Hinv) as (m1 & Hs1 & _ & Hcases).
  rewrite Hstep in Hs1. injection Hs1 as <-. cbn zeta in Hcases.
  pose proof Hinv as [Hids Hcur _ _ _ _ _].
  pose proof (ids_length _ _ Hids) as Hlen.
  destruct Hcases as [(_ & currentNode & Hnth & ->)
                     |[(_ & _ & _ & _ & basis & angle & _ & ->)
                     |[(_ & ->)
                     |[(_ & saved & rest & Hst & ->)
                     |[(_ & ->)
                     |(_ & _ & _ & ->)]]]]];
    try exact Hspans.
  cbn [Interp.nodes Interp.segments].
  apply Forall_app. split.
  - eapply Forall_impl; [|exact Hspans].
    intros s (a & b & Ha & Hb & Hd). exists a, b.
    split; [apply nth_error_app_keep; exact Ha|].
    split; [apply nth_error_app_keep; exact Hb|exact Hd].
  - constructor; [|constructor].
    eexists currentNode, _.
    unfold createSegment, createNode.
    cbn [SkeletonSegment.startNodeId SkeletonSegment.endNodeId
         SkeletonSegment.length SkeletonNode.id SkeletonNode.position].
    rewrite (nth_dense_id _ _ _ _ Hids Hnth).
    split; [apply nth_error_app_keep; exact Hnth|].
    split.
    + rewrite nth_error_app2 by lia.
      replace (Interp.nextNodeId m - List.length (Interp.nodes m))%nat
        with 0%nat by lia.
      reflexivity.
    + cbn [SkeletonNode.position].
      destruct Hplace as [(n & Hn & Hp & _) _ _ _].
      rewrite Hnth in Hn. injection Hn as <-. rewrite Hp.
      rewrite translate_distance, scale_length.
      rewrite forward_length by (destruct Hunit; assumption). ring.
Qed.

(** X17: over the reals, the length recorded in a segment is, up to its
    sign, the distance between the positions of its start and end
    nodes. *)
Theorem interpretSentence_spans (sentence : list (Symbol R)) (config : TurtleConfig R) :
  exists sk,
    interpretSentence sentence config = Some sk
    /\ forall s, In s (Skeleton.segments sk) ->
         exists a b,
           nth_error (Skeleton.nodes sk) (SkeletonSegment.startNodeId s) = Some a
           /\ nth_error (Skeleton.nodes sk) (SkeletonSegment.endNodeId s) = Some b
           /\ distanceVec3 (SkeletonNode.position a) (SkeletonNode.position b)
              = Rabs (SkeletonSegment.length s).
Proof.
  destruct (runSentence_preserves config
              (fun m => PlaceInv m /\ UnitInv m
                        /\ Forall (segmentSpans (Interp.nodes m)) (Interp.segments m))
              (step_spans config) sentence (initialInterp config)
              (initialInterp_inv config))
    as (m & Hrun & Hinv & _ & _ & Hspans).
  { split; [apply initialInterp_place|]. split; [apply initialInterp_unit|].
    constructor. }
  unfold interpretSentence. rewrite Hrun. exists (finish m).
  split; [reflexivity|].
  intros s Hin. cbn [finish Skeleton.segments] in Hin.
  rewrite Forall_forall in Hspans.
  destruct (Hspans s Hin) as (a & b & Ha & Hb & Hd).
  destruct (finish_node_back m _ a Hinv Ha) as (a' & Ha' & Hua).
  destruct (finish_node_back m _ b Hinv Hb) as (b' & Hb' & Hub).
  exists a', b'. split; [exact Ha'|]. split; [exact Hb'|].
  rewrite <- Hua, <- Hub in Hd. exact Hd.
Qed.

Lemma pow_antitone (f : R) (a b : nat) :
  0 < f <= 1 -> (a <= b)%nat -> f ^ b <= f ^ a.
Proof.
  intros Hf Hab. replace b with (a + (b - a))%nat by lia.
  rewrite pow_add.
  assert (H0 : 0 <= f ^ a) by (apply pow_le; lra).
  assert (H1 : f ^ (b - a) <= 1).
  { rewrite <- (pow1 (b - a)). apply pow_incr. lra. }
  nra.
Qed.

(** X18: over the reals, for a non-negative base radius and a falloff
    in (0, 1], branches never thicken: in every segment
    [0 <= endRadius <= startRadius <= baseRadius]. *)
Theorem interpretSentence_tapers (sentence : list (Symbol R)) (config : TurtleConfig R) :
  0 <= tc_baseRadius config ->
  0 < tc_radiusFalloff config <= 1 ->
  exists sk,
    interpretSentence sentence config = Some sk
    /\ forall s, In s (Skeleton.segments sk) ->
         0 <= SkeletonSegment.endRadius s <= SkeletonSegment.startRadius s
         /\ SkeletonSegment.startRadius s <= tc_baseRadius config.
Proof.
  intros Hbase Hfall.
  destruct (runSentence_place config sentence) as (m & Hrun & Hinv & Htree & Hplace).
  unfold interpretSentence. rewrite Hrun. exists (finish m).
  split; [reflexivity|].
  intros s Hin. cbn [finish Skeleton.segments] in Hin.
  apply In_nth_error in Hin. destruct Hin as [k Hk].
  destruct Htree as [Hroot _ Hradius _ Hseg].
  destruct Hplace as [_ _ Hchild _].
  destruct (Hseg k s Hk) as (a & b & Ha & Hb & _ & Hpar & Hsr & Her).
  destruct (Hchild k b Hb) as (p & pn & Hp & Hpn & Hd).
  rewrite Hpar in Hp. injection Hp as <-. rewrite Ha in Hpn. injection Hpn as <-.
  rewrite Hsr, Her, (Hradius k b Hb).
  cbn [nmul npow Number_R]. rewrite <- !pow_powerRZ.
  assert (Hb1 : 0 <= tc_radiusFalloff config ^ SkeletonNode.depth b <= 1).
  { split; [apply pow_le; lra|].
    rewrite <- (pow1 (SkeletonNode.depth b)). apply pow_incr. lra. }
  destruct (SkeletonSegment.startNodeId s) as [|j] eqn:Ej.
  - destruct Hroot as [rest Hr]. rewrite Hr in Ha. simpl in Ha.
    injection Ha as <-. cbn [createNode SkeletonNode.radius]. nra.
  - rewrite (Hradius j a Ha). cbn [nmul npow Number_R]. rewrite <- !pow_powerRZ.
    pose proof (pow_antitone (tc_radiusFalloff config) _ _ Hfall Hd) as Hmono.
    assert (Ha1 : tc_radiusFalloff config ^ SkeletonNode.depth a <= 1).
    { rewrite <- (pow1 (SkeletonNode.depth a)). apply pow_incr. lra. }
    nra.
Qed.
End TurtleReal.

(** The theorem at the sentence "F[+F][-F]L" with base radius 0.1 and
    falloff 0.7. *)
Lemma interpretSentence_tapers_witness :
  let config := mkTurtleConfig (1 / 10)%R (7 / 10)%R (mkVec3 0 1 0)%R (mkVec3 0 1 0)%R in
  let sentence :=
    map (fun c => mkSymbol (num := R) c noParams)
        ["F"; "["; "+"; "F"; "]"; "["; "-"; "F"; "]"; "L"]%string in
  (0 <= tc_baseRadius config)%R /\ (0 < tc_radiusFalloff config <= 1)%R
  /\ exists sk,
       interpretSentence sentence config = Some sk
       /\ forall s, In s (Skeleton.segments sk) ->
            (0 <= SkeletonSegment.endRadius s <= SkeletonSegment.startRadius s)%R
            /\ (SkeletonSegment.startRadius s <= tc_baseRadius config)%R.
Proof.
  intros config sentence.
  assert (Hb : (0 <= tc_baseRadius config)%R) by (cbn; lra).
  assert (Hf : (0 < tc_radiusFalloff config <= 1)%R) by (cbn; lra).
  split; [exact Hb|]. split; [exact Hf|].
  exact (interpretSentence_tapers sentence config Hb Hf).
Defined.

(* ----------------------------------------------------------------- *)
(** ** Geometry, continued *)

Section GeometryMore.
Context {num : Type} `{Number num}.

Lemma fold_left_Forall {A B : Type} (P : A -> Prop) (f : list A -> B -> list A)
  (l : list B) :
  (forall acc b, In b l -> Forall P acc -> Forall P (f acc b)) ->
  forall acc, Forall P acc -> Forall P (fold_left f l acc).
Proof.
  induction l as [|b l IH]; intros Hf acc Hacc; simpl; [exact Hacc|].
  apply IH.
  - intros acc' b' Hin. apply Hf. right. exact Hin.
  - apply Hf; [left; reflexivity|exact Hacc].
Qed.

Lemma connectRings_range (ring1Offset ring2Offset segments : nat) :
  Forall (fun x => (ring1Offset <= x < ring1Offset + segments)%nat
                   \/ (ring2Offset <= x < ring2Offset + segments)%nat)
         (connectRings ring1Offset ring2Offset segments).
Proof.
  unfold connectRings. apply fold_left_Forall; [|constructor].
  intros acc i Hin Hacc. apply in_seq in Hin.
  assert (Hm : ((i + 1) mod segments < segments)%nat)
    by (apply Nat.mod_upper_bound; lia).
  apply Forall_app. split; [exact Hacc|].
  repeat constructor; lia.
Qed.

Lemma fold_left_append {A B : Type} (g : B -> list A) (l : list B) :
  forall acc, fold_left (fun acc b => acc ++ g b) l acc = acc ++ flat_map g l.
Proof.
  induction l as [|b l IH]; intros acc; simpl.
  - rewrite app_nil_r. reflexivity.
  - rewrite IH, <- app_assoc. reflexivity.
Qed.

(** X19: [connectRings] returns two triangles for each of the [n]
    positions around the rings, six indices each, the neighbour of the
    last position being the first; every index names a vertex of one of
    the two rings. *)
Theorem connectRings_triangles (ring1Offset ring2Offset segments : nat) :
  connectRings ring1Offset ring2Offset segments
  = flat_map
      (fun i => [ring1Offset + i; ring2Offset + i;
                 ring1Offset + (i + 1) mod segments;
                 ring1Offset + (i + 1) mod segments; ring2Offset + i;
                 ring2Offset + (i + 1) mod segments]%nat)
      (seq 0 segments)
  /\ List.length (connectRings ring1Offset ring2Offset segments) = (6 * segments)%nat
  /\ Forall (fun x => (ring1Offset <= x < ring1Offset + segments)%nat
                      \/ (ring2Offset <= x < ring2Offset + segments)%nat)
            (connectRings ring1Offset ring2Offset segments).
Proof.
  split; [|split; [apply connectRings_length|apply connectRings_range]].
  unfold connectRings.
  rewrite (fold_left_append
             (fun i => [ring1Offset + i; ring2Offset + i;
                        ring1Offset + (i + 1) mod segments]
                       ++ [ring1Offset + (i + 1) mod segments; ring2Offset + i;
                           ring2Offset + (i + 1) mod segments])%nat).
  reflexivity.
Qed.

Lemma branchSegment_indexed (skeleton : Skeleton.t num)
  (cfg : BranchGeometryConfig num) (segmentInfos : list num) (acc acc' : @BranchAcc num)
  (segment : SkeletonSegment.t num) (segmentIndex : nat) :
  accIndexed acc ->
  branchSegment skeleton cfg segmentInfos acc segment segmentIndex = Some acc' ->
  accIndexed acc'
  /\ vertexOffset acc' = (vertexOffset acc + 2 * radialSegments cfg)%nat.
Proof.
  intros (Hp & Hn & Hu & Hi & Hr). unfold branchSegment.
  destruct (findNode _ _) as [startNode|]; [|discriminate].
  destruct (findNode _ _) as [endNode|]; [|discriminate].
  intros Heq. injection Heq as <-.
  split; [|cbn [vertexOffset]; lia].
  unfold accIndexed. cbn [allPositions allNormals allUvs allIndices vertexOffset].
  rewrite !length_app, Hp, Hn, Hu, Hi, connectRings_length, !ringUvs_length.
  destruct (generateRing_lengths (SkeletonNode.position startNode)
              (SkeletonNode.orientation startNode)
              (SkeletonSegment.startRadius segment) (radialSegments cfg))
    as [Hp1 Hn1].
  destruct (generateRing_lengths (SkeletonNode.position endNode)
              (SkeletonNode.orientation endNode)
              (SkeletonSegment.endRadius segment) (radialSegments cfg))
    as [Hp2 Hn2].
  rewrite Hp1, Hn1, Hp2, Hn2.
  repeat (split; [lia|]).
  apply Forall_app. split.
  - eapply Forall_impl; [|exact Hr]. cbv beta. intros; lia.
  - eapply Forall_impl; [|apply connectRings_range]. cbv beta. intros; lia.
Qed.

Lemma forEachSegment_indexed (skeleton : Skeleton.t num)
  (cfg : BranchGeometryConfig num) (segmentInfos : list num)
  (segs : list (SkeletonSegment.t num)) :
  forall (segmentIndex : nat) (acc acc' : @BranchAcc num),
    accIndexed acc ->
    forEachSegment skeleton cfg segmentInfos segs segmentIndex acc = Some acc' ->
    accIndexed acc'
    /\ vertexOffset acc'
       = (vertexOffset acc + 2 * radialSegments cfg * List.length segs)%nat.
Proof.
  induction segs as [|segment rest IH]; intros segmentIndex acc acc' Hacc; simpl.
  - intros Heq. injection Heq as <-. split; [exact Hacc|lia].
  - destruct (branchSegment skeleton cfg segmentInfos acc segment segmentIndex)
      as [acc1|] eqn:Hseg; [|discriminate].
    intros Hrest.
    destruct (branchSegment_indexed skeleton cfg segmentInfos acc acc1 segment
                segmentIndex Hacc Hseg) as [Hacc1 Hv1].
    destruct (IH (S segmentIndex) acc1 acc' Hacc1 Hrest) as [Hacc' Hv'].
    split; [exact Hacc'|]. rewrite Hv', Hv1. lia.
Qed.

(** X20: for a skeleton whose segments join nodes it holds,
    [buildBranchGeometry] returns buffers for [2 * radialSegments]
    vertices per segment, with as many index triples as vertices, and
    every index names a vertex of the buffers. *)
Theorem buildBranchGeometry_indexed (skeleton : Skeleton.t num)
  (cfg : BranchGeometryConfig num) :
  segmentsReferToNodes skeleton ->
  exists g,
    buildBranchGeometry skeleton cfg = Some g
    /\ let vertices :=
         (2 * radialSegments cfg * List.length (Skeleton.segments skeleton))%nat in
       List.length (positions g) = (3 * vertices)%nat
       /\ List.length (normals g) = (3 * vertices)%nat
       /\ List.length (uvs g) = (2 * vertices)%nat
       /\ List.length (indices g) = (3 * vertices)%nat
       /\ Forall (fun i => (i < vertices)%nat) (indices g).
Proof.
  intros Hrefs.
  destruct (forEachSegment_total skeleton cfg
              (map (@SkeletonSegment.length num) (Skeleton.segments skeleton))
              (Skeleton.segments skeleton) Hrefs 0 (mkBranchAcc [] [] [] [] 0))
    as (acc & Hacc).
  unfold buildBranchGeometry. rewrite Hacc. eexists. split; [reflexivity|].
  cbn [positions normals uvs indices].
  assert (Hinit : accIndexed (mkBranchAcc (num := num) [] [] [] [] 0)).
  { unfold accIndexed. cbn. repeat split; constructor. }
  destruct (forEachSegment_indexed skeleton cfg _ _ _ _ acc Hinit Hacc)
    as [(Hp & Hn & Hu & Hi & Hr) Hv].
  cbn [vertexOffset] in Hv. rewrite Nat.add_0_l in Hv. rewrite Hv in *.
  cbv zeta. repeat split; assumption.
Qed.

End GeometryMore.

(** The theorem at a trunk of one segment with eight radial segments. *)
Lemma buildBranchGeometry_indexed_witness :
  let skeleton :=
    Skeleton.mk
      [SkeletonNode.mk 0 (mkVec3 0%R 0%R 0%R) (mkQuat 0%R 0%R 0%R 1%R) 1%R
         None 0 false false;
       SkeletonNode.mk 1 (mkVec3 0%R 1%R 0%R) (mkQuat 0%R 0%R 0%R 1%R) 1%R
         (Some 0%nat) 0 true false]
      [SkeletonSegment.mk 0 1 1%R 1%R 1%R] [] in
  segmentsReferToNodes skeleton
  /\ exists g,
       buildBranchGeometry skeleton (mkBranchGeometryConfig 8 2%R) = Some g
       /\ List.length (positions g) = 48%nat
       /\ Forall (fun i => (i < 16)%nat) (indices g).
Proof.
  intros skeleton.
  assert (Hrefs : segmentsReferToNodes skeleton).
  { unfold segmentsReferToNodes, skeleton. cbn.
    constructor; [split; discriminate|constructor]. }
  split; [exact Hrefs|].
  destruct (buildBranchGeometry_indexed skeleton (mkBranchGeometryConfig 8 2%R) Hrefs)
    as (g & Hg & Hp & _ & _ & _ & Hr).
  exists g. split; [exact Hg|]. split; [exact Hp|exact Hr].
Defined.

Section UvMore.
Local Open Scope R_scope.

Lemma calculateVOffset_sum (segments : list R) (textureScale : R) (k : nat) :
  calculateVOffset k segments textureScale
  = fold_left (fun offset len => offset + len * textureScale) (firstn k segments) 0.
Proof.
  unfold calculateVOffset. destruct k; reflexivity.
Qed.

Lemma calculateVOffset_succ (segments : list R) (textureScale len : R) (k : nat) :
  nth_error segments k = Some len ->
  calculateVOffset (S k) segments textureScale
  = calculateVOffset k segments textureScale + len * textureScale.
Proof.
  intros Hk. rewrite !calculateVOffset_sum.
  assert (Hf : firstn (S k) segments = firstn k segments ++ [len]).
  { revert k Hk. induction segments as [|x xs IH]; intros k Hk.
    - destruct k; discriminate.
    - destruct k as [|k]; simpl in *.
      + injection Hk as ->. reflexivity.
      + rewrite <- (IH k Hk). reflexivity. }
  rewrite Hf, fold_left_app. reflexivity.
Qed.

(** X21: over the reals, the texture runs on from segment to segment:
    the V of the end ring of segment [k] is the V of the start ring of
    segment [k + 1]; the V of the start ring is the sum of the lengths
    of the segments before it times the texture scale; and U lies in
    [0, 1) for every vertex of a ring. *)
Theorem branch_uv_continuous (segments : list R) (textureScale : R)
  (radialSegs k i j : nat) (len next : R) :
  nth_error segments k = Some len ->
  v (calculateBranchUV 1 i 2 radialSegs len textureScale
       (calculateVOffset k segments textureScale))
  = v (calculateBranchUV 0 j 2 radialSegs next textureScale
         (calculateVOffset (S k) segments textureScale))
  /\ v (calculateBranchUV 0 i 2 radialSegs len textureScale
          (calculateVOffset k segments textureScale))
     = fold_left (fun offset l => offset + l * textureScale) (firstn k segments) 0
  /\ ((i < radialSegs)%nat ->
      0 <= u (calculateBranchUV 0 i 2 radialSegs len textureScale
                (calculateVOffset k segments textureScale)) < 1).
Proof.
  intros Hk.
  rewrite (calculateVOffset_succ segments textureScale len k Hk).
  rewrite <- calculateVOffset_sum.
  unfold calculateBranchUV. cbn [v u Nat.ltb Nat.leb Nat.sub]. unfold ofNat. cbn.
  split; [field|]. split; [field|].
  intros Hi.
  assert (Hr : 0 < INR radialSegs) by (apply lt_0_INR; lia).
  rewrite <- !INR_IZR_INZ.
  assert (Hii : 0 <= INR i < INR radialSegs).
  { split; [apply pos_INR|apply lt_INR; exact Hi]. }
  split.
  - apply Rmult_le_reg_r with (INR radialSegs); [exact Hr|].
    unfold Rdiv. rewrite Rmult_assoc, Rinv_l by lra. lra.
  - apply Rmult_lt_reg_r with (INR radialSegs); [exact Hr|].
    unfold Rdiv. rewrite Rmult_assoc, Rinv_l by lra. lra.
Qed.

End UvMore.

(** The theorem at two segments of lengths 2 and 3. *)
Lemma branch_uv_continuous_witness :
  nth_error [2%R; 3%R] 0 = Some 2%R
  /\ v (calculateBranchUV 1 0 2 8 2%R (1 / 2)%R
          (calculateVOffset 0 [2%R; 3%R] (1 / 2)%R))
     = v (calculateBranchUV 0 0 2 8 3%R (1 / 2)%R
            (calculateVOffset 1 [2%R; 3%R] (1 / 2)%R)).
Proof.
  assert (Hk : nth_error [2%R; 3%R] 0 = Some 2%R) by reflexivity.
  split; [exact Hk|].
  exact (proj1 (branch_uv_continuous [2%R; 3%R] (1 / 2)%R 8 0 0 0 2%R 3%R Hk)).
Defined.

Section LeafShapeMore.
Context {num : Type} `{Number num}.

Lemma setAt_Forall {A : Type} (P : A -> Prop) (i : nat) (x : A) (l : list A) :
  P x -> Forall P l -> Forall P (setAt i x l).
Proof.
  intros Hx. revert i. induction l as [|y l IH]; intros i Hl.
  - destruct i; constructor.
  - inversion Hl; subst. destruct i; simpl; constructor; auto.
Qed.





End LeafShapeMore.

Section LeafMore.
Context {num : Type} `{Number num}.

Lemma buildLeafInstances_fold (leaves : list (LeafPoint.t num))
  (cfg : LeafInstanceConfig num) (d : num) :
  let data := buildLeafInstances leaves cfg in
  let n := List.length leaves in
  count data = n
  /\ List.length (matrices data) = (n * 16)%nat
  /\ List.length (colors data) = (n * 3)%nat
  /\ forall i leaf, nth_error leaves i = Some leaf ->
       let ref := leafInstanceAt cfg n i leaf
                    (advance (7 * i) (Random.createRandom (li_seed cfg))) in
       (forall k, (k < 16)%nat ->
          nth (i * 16 + k) (matrices data) d = nth (i * 16 + k) (la_matrices ref) d)
       /\ (forall k, (k < 3)%nat ->
             nth (i * 3 + k) (colors data) d = nth (i * 3 + k) (la_colors ref) d).
Proof.
  cbv zeta. unfold buildLeafInstances.
  destruct (Nat.eqb (List.length leaves) 0) eqn:Hz.
  - apply Nat.eqb_eq in Hz. rewrite Hz. cbn [count matrices colors List.length].
    repeat split; try reflexivity;
      destruct leaves; try discriminate; destruct i; discriminate.
  - cbn [count matrices colors].
    pose proof (fold_leafInstance cfg (List.length leaves)
                  (Random.createRandom (li_seed cfg)) d leaves 0
                  (mkLeafAcc (newArray (ofZ 0) (List.length leaves * 16))
                             (newArray (ofZ 0) (List.length leaves * 3))
                             (Random.createRandom (li_seed cfg)))
                  eq_refl (repeat_length _ _) (repeat_length _ _) (le_n _))
      as Hfold.
    cbv zeta in Hfold. destruct Hfold as (Hm & Hc & _ & _ & Hent).
    split; [reflexivity|]. split; [exact Hm|]. split; [exact Hc|].
    intros i leaf Hnth. exact (Hent i leaf Hnth).
Qed.




End LeafMore.


Section LeafReal.
Local Open Scope R_scope.

(** X23: over the reals, [buildLeafInstances] returns 16 matrix entries
    and 3 colour entries per leaf (none for no leaf), and every colour
    entry lies in [0, 1], whatever the base colour and the variation. *)
Theorem buildLeafInstances_colors (leaves : list (LeafPoint.t R))
  (cfg : LeafInstanceConfig R) :
  let data := buildLeafInstances leaves cfg in
  count data = List.length leaves
  /\ List.length (matrices data) = (16 * List.length leaves)%nat
  /\ List.length (colors data) = (3 * List.length leaves)%nat
  /\ Forall (fun c => 0 <= c <= 1) (colors data).
Proof.
  cbv zeta.
  destruct (buildLeafInstances_fold leaves cfg (ofZ 0)) as (Hc & Hm & Hcs & Hent).
  split; [exact Hc|]. split; [rewrite Hm; lia|]. split; [rewrite Hcs; lia|].
  apply Forall_forall. intros c Hin.
  destruct (In_nth _ _ (ofZ 0) Hin) as (j & Hj & <-).
  rewrite Hcs in Hj.
  assert (Hdiv : exists i k, j = (i * 3 + k)%nat /\ (k < 3)%nat
                             /\ (i < List.length leaves)%nat).
  { exists (j / 3)%nat, (j mod 3)%nat.
    pose proof (Nat.div_mod_eq j 3).
    split; [lia|]. split; [apply Nat.mod_upper_bound; lia|].
    apply Nat.Div0.div_lt_upper_bound. lia. }
  destruct Hdiv as (i & k & -> & Hk & Hi).
  destruct (nth_error leaves i) as [leaf|] eqn:Hleaf;
    [|apply nth_error_None in Hleaf; lia].
  destruct (Hent i leaf Hleaf) as [_ Hcol].
  rewrite (Hcol k Hk).
  destruct (leafInstanceAt_colors cfg (List.length leaves) i leaf
              (advance (7 * i) (Random.createRandom (li_seed cfg))) Hi)
    as (H0 & H1 & H2).
  assert (Hclamp : forall x, 0 <= Rmax 0 (Rmin 1 x) <= 1).
  { intros x. unfold Rmax, Rmin.
    destruct (Rle_dec 1 x); destruct (Rle_dec 0 _); lra. }
  destruct k as [|[|[|k]]]; [| | |lia].
  - rewrite H0. apply Hclamp.
  - rewrite H1. apply Hclamp.
  - rewrite H2. apply Hclamp.
Qed.

End LeafReal.

(* ----------------------------------------------------------------- *)
(** ** The pipeline *)

Section TreeMore.
Context {num : Type} `{Number num}.


End TreeMore.

(* ----------------------------------------------------------------- *)
(** ** Vectors and quaternions *)

Section MathMore.
Local Open Scope R_scope.



(** X28: over the reals, [multiplyQuat] has [identityQuat] as left and
    right neutral element, is associative, and multiplies squared
    lengths. *)
Theorem multiplyQuat_algebra (a b c : Quat R) :
  multiplyQuat identityQuat a = a
  /\ multiplyQuat a identityQuat = a
  /\ multiplyQuat (multiplyQuat a b) c = multiplyQuat a (multiplyQuat b c)
  /\ (let n q := qx q * qx q + qy q * qy q + qz q * qz q + qw q * qw q in
      n (multiplyQuat a b) = n a * n b).
Proof.
  destruct a as [ax ay az aw], b as [bx by' bz bw], c as [cx cy cz cw].
  unfold multiplyQuat, identityQuat. cbn.
  repeat split; try (f_equal; ring); ring.
Qed.

(** The rotation as the sandwich product [q v q*], a polynomial in the
    components. *)
Lemma rotate_sandwich (v : Vec3 R) (q : Quat R) :
  unitQuat q ->
  rotateVec3ByQuat v q
  = mkVec3
      ((qw q * qw q + qx q * qx q - qy q * qy q - qz q * qz q) * vx v
       + 2 * (qx q * qy q - qw q * qz q) * vy v
       + 2 * (qx q * qz q + qw q * qy q) * vz v)
      (2 * (qx q * qy q + qw q * qz q) * vx v
       + (qw q * qw q - qx q * qx q + qy q * qy q - qz q * qz q) * vy v
       + 2 * (qy q * qz q - qw q * qx q) * vz v)
      (2 * (qx q * qz q - qw q * qy q) * vx v
       + 2 * (qy q * qz q + qw q * qx q) * vy v
       + (qw q * qw q - qx q * qx q - qy q * qy q + qz q * qz q) * vz v).
Proof.
  unfold unitQuat. destruct v as [x y z], q as [a b c w].
  unfold rotateVec3ByQuat, crossVec3, scaleVec3, addVec3. cbn. intros Hu.
  assert (Hw : w * w = 1 - a * a - b * b - c * c) by lra.
  f_equal.
  - replace (w * w + a * a - b * b - c * c) with (1 - 2 * (b * b + c * c)) by lra. ring.
  - replace (w * w - a * a + b * b - c * c) with (1 - 2 * (a * a + c * c)) by lra. ring.
  - replace (w * w - a * a - b * b + c * c) with (1 - 2 * (a * a + b * b)) by lra. ring.
Qed.

(** X29: over the reals, for unit quaternions, rotating by
    [multiplyQuat a b] is rotating by [b] and then by [a]; rotating by
    the identity changes nothing; a rotation keeps lengths. *)
Theorem rotate_compose (v : Vec3 R) (a b : Quat R) :
  unitQuat a -> unitQuat b ->
  rotateVec3ByQuat v (multiplyQuat a b)
  = rotateVec3ByQuat (rotateVec3ByQuat v b) a
  /\ rotateVec3ByQuat v identityQuat = v
  /\ lengthVec3 (rotateVec3ByQuat v a) = lengthVec3 v.
Proof.
  intros Ha Hb.
  split; [|split].
  - rewrite (rotate_sandwich v (multiplyQuat a b) (multiplyQuat_unit a b Ha Hb)).
    rewrite (rotate_sandwich (rotateVec3ByQuat v b) a Ha).
    rewrite (rotate_sandwich v b Hb).
    destruct v as [x y z], a as [ax ay az aw], b as [bx by' bz bw].
    unfold multiplyQuat. cbn. f_equal; ring.
  - destruct v as [x y z].
    unfold rotateVec3ByQuat, identityQuat, crossVec3, scaleVec3, addVec3. cbn.
    f_equal; ring.
  - apply rotate_length. exact Ha.
Qed.

(** X30: over the reals, for an axis of length 1,
    [quatFromAxisAngle axis angle] is a unit quaternion whose rotation
    leaves the axis fixed and turns every vector perpendicular to the
    axis by [angle] (the scalar product of the vector and its image is
    [cos angle] times its squared length); the angle 0 gives the
    identity. *)
Theorem quatFromAxisAngle_rotation (axis : Vec3 R) (angle : R) :
  lengthVec3 axis = 1 ->
  unitQuat (quatFromAxisAngle axis angle)
  /\ rotateVec3ByQuat axis (quatFromAxisAngle axis angle) = axis
  /\ quatFromAxisAngle axis 0 = identityQuat
  /\ forall v, dotVec3 axis v = 0 ->
       dotVec3 v (rotateVec3ByQuat v (quatFromAxisAngle axis angle))
       = cos angle * dotVec3 v v.
Proof.
  intros Hlen.
  assert (Hsq : vx axis * vx axis + vy axis * vy axis + vz axis * vz axis = 1).
  { unfold lengthVec3 in Hlen. cbn [nsqrt nadd nmul Number_R] in Hlen.
    set (s := vx axis * vx axis + vy axis * vy axis + vz axis * vz axis) in *.
    assert (Hs : 0 <= s) by (unfold s; nra).
    pose proof (sqrt_sqrt s Hs) as Hss. rewrite Hlen in Hss. lra. }
  split; [apply quatFromAxisAngle_unit; exact Hsq|].
  split; [|split].
  - destruct axis as [x y z].
    unfold rotateVec3ByQuat, quatFromAxisAngle, crossVec3, scaleVec3, addVec3. cbn.
    f_equal; ring.
  - unfold quatFromAxisAngle, identityQuat. cbn.
    replace (0 / 2) with 0 by field. rewrite sin_0, cos_0.
    f_equal; ring.
  - intros v Hperp.
    destruct axis as [x y z], v as [p q r].
    unfold rotateVec3ByQuat, quatFromAxisAngle, dotVec3, crossVec3, scaleVec3,
      addVec3 in *. cbn in *.
    set (s := sin (angle / 2)). set (c := cos (angle / 2)).
    assert (Hcos : cos angle = 1 - 2 * s * s).
    { replace angle with (2 * (angle / 2)) at 1 by field.
      rewrite cos_2a_sin. reflexivity. }
    rewrite Hcos.
    assert (Hx : (x * p + y * q + z * r) * (x * p + y * q + z * r) = 0)
      by (rewrite Hperp; ring).
    nra.
Qed.

(** The cross product is perpendicular to both operands and changes
    sign when they are swapped; [lerpVec3] returns its first argument at
    0 and its second at 1, and moves in proportion to [t]; the distance
    is symmetric. *)
Lemma vector_algebra (a b : Vec3 R) (t : R) :
  dotVec3 a (crossVec3 a b) = 0
  /\ dotVec3 b (crossVec3 a b) = 0
  /\ crossVec3 a b = scaleVec3 (crossVec3 b a) (-1)
  /\ lerpVec3 a b 0 = a
  /\ lerpVec3 a b 1 = b
  /\ distanceVec3 a (lerpVec3 a b t) = Rabs t * distanceVec3 a b
  /\ distanceVec3 a b = distanceVec3 b a.
Proof.
  destruct a as [ax ay az], b as [bx by' bz].
  unfold dotVec3, crossVec3, scaleVec3, lerpVec3, distanceVec3, subVec3, lengthVec3.
  cbn.
  repeat split; try ring; try (f_equal; ring).
  - replace ((ax + (bx - ax) * t - ax) * (ax + (bx - ax) * t - ax)
             + (ay + (by' - ay) * t - ay) * (ay + (by' - ay) * t - ay)
             + (az + (bz - az) * t - az) * (az + (bz - az) * t - az))
      with (Rsqr t * ((bx - ax) * (bx - ax) + (by' - ay) * (by' - ay)
                      + (bz - az) * (bz - az)))
      by (unfold Rsqr; ring).
    rewrite sqrt_mult; [|apply Rle_0_sqr|].
    + rewrite sqrt_Rsqr_abs. reflexivity.
    + pose proof (Rle_0_sqr (bx - ax)) as H1.
      pose proof (Rle_0_sqr (by' - ay)) as H2.
      pose proof (Rle_0_sqr (bz - az)) as H3.
      unfold Rsqr in *. lra.
Qed.

End MathMore.

(** The theorem at a quarter turn about z after a sixth of a turn
    about x. *)
Lemma rotate_compose_witness :
  let a := quatFromAxisAngle (mkVec3 0 0 1)%R (PI / 2)%R in
  let b := quatFromAxisAngle (mkVec3 1 0 0)%R (PI / 3)%R in
  let v := mkVec3 1%R 2%R 3%R in
  unitQuat a /\ unitQuat b
  /\ rotateVec3ByQuat v (multiplyQuat a b)
     = rotateVec3ByQuat (rotateVec3ByQuat v b) a.
Proof.
  intros a b v.
  assert (Ha : unitQuat a).
  { apply quatFromAxisAngle_unit. cbn. ring. }
  assert (Hb : unitQuat b).
  { apply quatFromAxisAngle_unit. cbn. ring. }
  split; [exact Ha|]. split; [exact Hb|].
  exact (proj1 (rotate_compose v a b Ha Hb)).
Defined.

(** The theorem at the z axis. *)
Lemma quatFromAxisAngle_rotation_witness :
  lengthVec3 (mkVec3 0 0 1)%R = 1%R
  /\ rotateVec3ByQuat (mkVec3 0 0 1)%R (quatFromAxisAngle (mkVec3 0 0 1)%R (PI / 6)%R)
     = (mkVec3 0 0 1)%R.
Proof.
  assert (Hl : lengthVec3 (mkVec3 0 0 1)%R = 1%R).
  { unfold lengthVec3. cbn.
    replace (0 * 0 + 0 * 0 + 1 * 1)%R with 1%R by ring. apply sqrt_1. }
  split; [exact Hl|].
  exact (proj1 (proj2 (quatFromAxisAngle_rotation (mkVec3 0 0 1)%R (PI / 6)%R Hl))).
Defined.
